(** * cadence-beats: BPM enrichment pipeline and cadence zones

    A shallow embedding of [cadence_beats/bpm.py] and
    [cadence_beats/garmin.py], with the properties of the pipeline that the
    design document states about them.

    Conventions of the embedding.
    - A Python [str] is the list of its code points ([pystr]); string
      literals of the source are written with [codepoints].
    - A tempo (Python [float]) is a rational number: the comparisons and the
      doubling and halving done on tempos are exact in that range.  NaN and
      the infinities are not represented: the service is taken to send
      finite tempos.
    - The SQLite table [bpm_cache] is a finite map from [track_id] (its
      primary key) to the columns the code reads and writes.
    - [click.echo] appends a line to an output log, [time.sleep] increments
      a counter, and the HTTP service is a state-passing oracle. *)

From Stdlib Require Import ZArith QArith Lqa List Ascii String Lia Bool.
From stdpp Require Import base option list gmap sorting pretty.

Set Warnings "-register-all".
Local Open Scope Z_scope.

(** ** Python strings *)

Abbreviation pystr := (list N).

Definition codepoints (s : string) : list N :=
  map N_of_ascii (list_ascii_of_string s).

(** [str.isspace] on one code point; [\s] of a [str] pattern is the same
    set. *)
Definition isspace (c : N) : bool :=
  ((9 <=? c) && (c <=? 13) || (28 <=? c) && (c <=? 32)
   || (c =? 133) || (c =? 160) || (c =? 5760)
   || (8192 <=? c) && (c <=? 8202)
   || (c =? 8232) || (c =? 8233) || (c =? 8239) || (c =? 8287)
   || (c =? 12288))%N.

Fixpoint lstrip (s : list N) : list N :=
  match s with
  | c :: s' => if isspace c then lstrip s' else s
  | [] => []
  end.

Definition rstrip (s : list N) : list N := reverse (lstrip (reverse s)).

(** [s.strip()] *)
Definition strip (s : list N) : list N := rstrip (lstrip s).

(** [s.split(sep)[0]] for a one-character separator: the text before the
    first separator, the whole string when there is none. *)
Fixpoint split_first (sep : N) (s : list N) : list N :=
  match s with
  | [] => []
  | c :: s' => if (c =? sep)%N then [] else c :: split_first sep s'
  end.

(** ** Regular expressions of the normalizer

    The fragment of [re] that the four patterns use, matched the way [re]
    does: leftmost, alternatives tried in order, [*] and [?] greedy, with
    backtracking. *)

Inductive regex : Type :=
  | RClass (p : N -> bool)          (* one character of a class *)
  | RSeq (r1 r2 : regex)
  | RAlt (r1 r2 : regex)
  | RStar (r : regex)
  | ROpt (r : regex)
  | REps
  | REnd.                           (* [$] without MULTILINE *)

(** [rmatch r s k]: match [r] at the start of [s], then hand the rest to the
    continuation [k]; [None] makes the matcher backtrack. *)
Fixpoint rmatch (r : regex) (s : list N)
    (k : list N -> option (list N)) {struct r} : option (list N) :=
  match r with
  | RClass p =>
      match s with
      | c :: s' => if p c then k s' else None
      | [] => None
      end
  | RSeq r1 r2 => rmatch r1 s (fun s' => rmatch r2 s' k)
  | RAlt r1 r2 =>
      match rmatch r1 s k with
      | Some e => Some e
      | None => rmatch r2 s k
      end
  | RStar r' =>
      (fix iter (fuel : nat) (s : list N) {struct fuel} : option (list N) :=
         match fuel with
         | O => k s
         | S fuel' =>
             match rmatch r' s (fun s' =>
                     if (length s' <? length s)%nat then iter fuel' s'
                     else None) with
             | Some e => Some e
             | None => k s
             end
         end) (length s) s
  | ROpt r' =>
      match rmatch r' s k with
      | Some e => Some e
      | None => k s
      end
  | REps => k s
  | REnd =>
      match s with
      | [] => k s
      | [10%N] => k s
      | _ => None
      end
  end.

(** [re.sub(r, "", s)]: every non-overlapping match, scanning from the left,
    is deleted.  An empty match deletes nothing and the scan moves on. *)
Fixpoint sub_empty_fuel (fuel : nat) (r : regex) (s : list N) : list N :=
  match fuel with
  | O => s
  | S fuel' =>
      match s with
      | [] => []
      | c :: s' =>
          match rmatch r s Some with
          | Some rest =>
              if (length rest <? length s)%nat
              then sub_empty_fuel fuel' r rest
              else c :: sub_empty_fuel fuel' r s'
          | None => c :: sub_empty_fuel fuel' r s'
          end
      end
  end.

Definition sub_empty (r : regex) (s : list N) : list N :=
  sub_empty_fuel (length s) r s.

(** Pattern constructors. *)
Definition lit (c : N) : regex := RClass (N.eqb c).
Definition not_lit (c : N) : regex := RClass (fun x => negb (N.eqb c x)).
Definition ws : regex := RStar (RClass isspace).
(* [.] : anything but a newline *)
Definition dot : regex := not_lit 10.

(** One letter under [re.IGNORECASE]: a subject character matches when its
    simple lower-case mapping is the letter; [re] adds the characters that
    fold to it another way (U+017F for s, U+0131 for i), and U+212A and
    U+0130 lower-case to k and i. *)
Definition ilit (c : N) : regex :=
  RClass (fun x =>
    (x =? c) || (x =? c - 32)
    || (c =? 115) && (x =? 383)
    || (c =? 107) && (x =? 8490)
    || (c =? 105) && ((x =? 304) || (x =? 305)))%N.

Definition is_lower (c : N) : bool := ((97 <=? c) && (c <=? 122))%N.

(** A literal word under [re.IGNORECASE]; characters that are not letters
    match themselves only. *)
Fixpoint iword_of (cs : list N) : regex :=
  match cs with
  | [] => REps
  | c :: cs' => RSeq (if is_lower c then ilit c else lit c) (iword_of cs')
  end.

Definition iword (s : string) : regex := iword_of (codepoints s).

(* [[-–]] *)
Definition dash : regex := RAlt (lit 45) (lit 8211).

(* [\s*\([^)]*\)] *)
Definition re_paren : regex :=
  RSeq ws (RSeq (lit 40) (RSeq (RStar (not_lit 41)) (lit 41))).

(* [\s*\[[^\]]*\]] *)
Definition re_bracket : regex :=
  RSeq ws (RSeq (lit 91) (RSeq (RStar (not_lit 93)) (lit 93))).

(* [\s*[-–]\s*(feat|ft)\.?\s+.*$], IGNORECASE *)
Definition re_feat : regex :=
  RSeq ws (RSeq dash (RSeq ws
    (RSeq (RAlt (iword "feat") (iword "ft"))
      (RSeq (ROpt (lit 46))
        (RSeq (RSeq (RClass isspace) ws)
          (RSeq (RStar dot) REnd)))))).

(* [\s*[-–]\s*(remaster(ed)?|radio edit|single version|bonus track|live).*$],
   IGNORECASE *)
Definition re_suffix : regex :=
  RSeq ws (RSeq dash (RSeq ws
    (RSeq
      (RAlt (RSeq (iword "remaster") (ROpt (iword "ed")))
        (RAlt (iword "radio edit")
          (RAlt (iword "single version")
            (RAlt (iword "bonus track") (iword "live")))))
      (RSeq (RStar dot) REnd)))).

Definition normalize_track_name (name : list N) : list N :=
  let name := sub_empty re_paren name in
  let name := sub_empty re_bracket name in
  let name := sub_empty re_feat name in
  let name := sub_empty re_suffix name in
  strip name.

Definition normalize_artist (artist : list N) : list N :=
  strip (split_first 44 artist).

(** ** JSON values and Python's dynamic operations on them *)

Inductive json : Type :=
  | JNull
  | JBool (b : bool)
  | JNum (q : Q)
  | JStr (s : list N)
  | JArr (items : list json)
  | JObj (members : list (list N * json)).

(** Exceptions that the operations modelled here raise. *)
Inductive pyexn : Type :=
  | RequestException | ValueError | KeyError
  | AttributeError | TypeError | IndexError | OverflowError
  | RecursionError.

(** The value of a statement sequence inside a function body: it goes on with
    a value, returns from the function, or raises. *)
Inductive flow (R A : Type) : Type :=
  | Val (a : A)
  | Return (r : R)
  | Raise (e : pyexn).
Arguments Val {R A} a.
Arguments Return {R A} r.
Arguments Raise {R A} e.

#[global] Instance flow_bind {R} : MBind (flow R) := fun A B f m =>
  match m with
  | Val a => f a
  | Return r => Return r
  | Raise e => Raise e
  end.

(** What a call gives back: a value, or an exception that leaves it. *)
Inductive outcome (A : Type) : Type :=
  | Returned (a : A)
  | Raised (e : pyexn).
Arguments Returned {A} a.
Arguments Raised {A} e.

(** Truth value of a decoded JSON value ([if x:], [if not x:]). *)
Definition truthy (j : json) : bool :=
  match j with
  | JNull => false
  | JBool b => b
  | JNum q => negb (Qeq_bool q 0)
  | JStr s => negb (Nat.eqb (length s) 0)
  | JArr l => negb (Nat.eqb (length l) 0)
  | JObj l => negb (Nat.eqb (length l) 0)
  end.

Definition pystr_eqb (a b : list N) : bool := bool_decide (a = b).

(** Key lookup in a decoded object: of two members with one key the decoder
    keeps the later. *)
Definition obj_get (key : list N) (members : list (list N * json))
  : option json :=
  snd <$> find (fun kv => pystr_eqb key (fst kv)) (rev members).

(** [x.get(key, default)]: only a dict has the method. *)
Definition py_get {R} (x : json) (key : list N) (default : json)
  : flow R json :=
  match x with
  | JObj members =>
      Val (match obj_get key members with Some v => v | None => default end)
  | _ => Raise AttributeError
  end.

(** [x[0]].  The keys of a decoded object are strings, so the integer key is
    never present. *)
Definition py_index0 {R} (x : json) : flow R json :=
  match x with
  | JArr (first :: _) => Val first
  | JArr [] => Raise IndexError
  | JStr (c :: _) => Val (JStr [c])
  | JStr [] => Raise IndexError
  | JObj _ => Raise KeyError
  | _ => Raise TypeError
  end.

(** [float(n)] of an [int]: the double nearest to [n], a tie going to the
    even mantissa; [None] stands for [OverflowError], raised from
    [2^1024 - 2^970] on. *)
Definition float_of_int (n : Z) : option Q :=
  let m := Z.abs n in
  let bits := Z.log2 m + 1 in
  if bits <=? 53 then Some (inject_Z n)
  else
    let shift := bits - 53 in
    let mantissa := Z.shiftr m shift in
    let rest := Z.land m (Z.ones shift) in
    let half := Z.shiftl 1 (shift - 1) in
    let mantissa :=
      if (half <? rest) || ((rest =? half) && Z.odd mantissa)
      then mantissa + 1 else mantissa in
    let rounded := Z.shiftl mantissa shift in
    if 2 ^ 1024 <=? rounded then None
    else Some (inject_Z (Z.sgn n * rounded)).

(** [float(x)] of a decoded JSON number.  The decoder gives an [int] of any
    size or a finite double; a whole number is converted as an [int] (a
    double that is whole converts to itself that way), any other number is
    a double already. *)
Definition float_of_num (q : Q) : option Q :=
  if Qnum q mod Zpos (Qden q) =? 0 then float_of_int (Qnum q / Zpos (Qden q))
  else Some q.

(** [float(x)], given the conversion of a string to a finite float ([None]:
    [ValueError]). *)
Definition py_float {R} (float_of_str : list N -> option Q) (x : json)
  : flow R Q :=
  match x with
  | JNum q =>
      match float_of_num q with
      | Some f => Val f
      | None => Raise OverflowError
      end
  | JBool b => Val (if b then 1 else 0)%Q
  | JStr s =>
      match float_of_str s with
      | Some q => Val q
      | None => Raise ValueError
      end
  | _ => Raise TypeError
  end.

(** ** The tempo service *)

(** What [search_bpm] returns: a tempo, [None], or the string
    ["RATE_LIMITED"]. *)
Inductive bpm_result : Type :=
  | Tempo (q : Q)
  | NoneResult
  | RATE_LIMITED.

(** The two requests, with their parameters. *)
Inductive request : Type :=
  | SearchGet (api_key lookup : list N)
  | SongGet (api_key : list N) (song_id : json).

(** What [.json()] makes of a body: the decoded value, [ValueError] on a
    text that is not JSON, [RecursionError] on a text nested deeper than
    the decoder goes. *)
Inductive decoded : Type :=
  | Decoded (j : json)
  | NotJSON
  | TooDeep.

(** What [requests.get] gives: it raises, or answers with a status code and
    a body. *)
Inductive response : Type :=
  | Failed
  | Response (status_code : Z) (body : decoded).

Definition resp_json {R} (body : decoded) : flow R json :=
  match body with
  | Decoded j => Val j
  | NotJSON => Raise ValueError
  | TooDeep => Raise RecursionError
  end.

(** Lines 109-123 of [bpm.py]: from the search response to the identifier of
    the first result. *)
Definition search_phase (resp : response) : flow bpm_result json :=
  match resp with
  | Failed => Raise RequestException
  | Response status_code body =>
      if status_code =? 429 then Return RATE_LIMITED
      else if negb (status_code =? 200) then Return NoneResult
      else
        data ← resp_json body;
        results ← py_get data (codepoints "search") (JArr []);
        if negb (truthy results) then Return NoneResult
        else
          first ← py_index0 results;
          song_id ← py_get first (codepoints "id") JNull;
          if negb (truthy song_id) then Return NoneResult
          else Val song_id
  end.

(** Lines 132-142: from the detail response to the result. *)
Definition detail_phase (float_of_str : list N -> option Q)
    (detail_resp : response) : flow bpm_result bpm_result :=
  match detail_resp with
  | Failed => Raise RequestException
  | Response status_code body =>
      if status_code =? 429 then Return RATE_LIMITED
      else if negb (status_code =? 200) then Return NoneResult
      else
        detail ← resp_json body;
        song ← py_get detail (codepoints "song") (JObj []);
        tempo ← py_get song (codepoints "tempo") JNull;
        if truthy tempo then
          t ← py_float float_of_str tempo;
          Return (Tempo t)
        else Return NoneResult
  end.

(** [except (requests.RequestException, ValueError, KeyError): return None];
    any other exception leaves the function. *)
Definition handle (body : flow bpm_result bpm_result) : outcome bpm_result :=
  match body with
  | Val r | Return r => Returned r
  | Raise RequestException | Raise ValueError | Raise KeyError =>
      Returned NoneResult
  | Raise e => Raised e
  end.

Section Service.

(** The state of the network and of the service, and one GET on it. *)
Context {World : Type}.
Variable http_get : World -> request -> response * World.
Variable float_of_str : list N -> option Q.

Definition search_bpm (track_name artist api_key : list N) (w : World)
  : outcome bpm_result * World :=
  let clean_name := normalize_track_name track_name in
  let clean_artist := normalize_artist artist in
  let query := clean_artist ++ [32%N] ++ clean_name in
  let '(resp, w) := http_get w (SearchGet api_key query) in
  match search_phase resp with
  | Val song_id =>
      let '(detail_resp, w) := http_get w (SongGet api_key song_id) in
      (handle (detail_phase float_of_str detail_resp), w)
  | Return r => (Returned r, w)
  | Raise e => (handle (Raise e), w)
  end.

End Service.

(** ** The BPM cache (table [bpm_cache]) *)

(** A row without its key.  The columns [source] and [fetched_at] take their
    defaults on every write and are never read. *)
Record row : Type := Row {
  track_name : list N;
  artist : list N;
  bpm : option Q        (* REAL, nullable *)
}.

(* [SELECT bpm ... WHERE track_id = ?] then [row[0] if row else None] *)
Definition get_cached_bpm (conn : gmap (list N) row) (track_id : list N)
  : option Q :=
  match conn !! track_id with
  | Some r => bpm r
  | None => None
  end.

(* [INSERT OR REPLACE] *)
Definition set_cached_bpm (conn : gmap (list N) row)
    (track_id track_name artist : list N) (bpm : option Q)
  : gmap (list N) row :=
  <[track_id := Row track_name artist bpm]> conn.

(* [SELECT ... WHERE bpm IS NOT NULL], in the order of the keys *)
Definition get_all_cached (conn : gmap (list N) row)
  : list (list N * list N * list N * Q) :=
  omap (fun kr => match bpm (snd kr) with
                  | Some q => Some (fst kr, track_name (snd kr),
                                    artist (snd kr), q)
                  | None => None
                  end) (map_to_list conn).

(** ** The enrichment scanner *)

Module Track.
(* [spotify.Track] *)
Record t : Type := Make {
  id : list N;
  name : list N;
  artist : list N;
  uri : list N
}.
End Track.

(** The dict that [scan_for_bpms] returns. *)
Record stats : Type := Stats {
  found : nat;
  not_found : nat;
  cached : nat;
  rate_limited : bool
}.

(** The variables of [scan_for_bpms] and what it acts on: the table, the
    network, the console.  [lookups] records the calls of [search_bpm] and
    [sleeps] the calls of [time.sleep(1)]. *)
Record scan {World : Type} : Type := Scan {
  conn : gmap (list N) row;
  world : World;
  st : stats;
  missing_songs : list (list N);
  api_calls : nat;
  echoed : list (list N);
  lookups : list Track.t;
  sleeps : nat
}.
Arguments scan : clear implicits.
Arguments Scan {World}.

(** How the [for] loop ends. *)
Inductive loop_exit : Type :=
  | Exhausted
  | Break
  | Propagate (e : pyexn).

Definition decimal (n : nat) : list N := codepoints (pretty n).

Definition rate_limit_message : list N :=
  [10%N] ++ codepoints "Daily API limit reached (2000 requests/day). "
         ++ codepoints "Run again tomorrow to continue scanning.".

Definition progress_message (api_calls : nat) : list N :=
  codepoints "  Looked up " ++ decimal api_calls ++ codepoints " songs...".

(* [f"  {track.artist} - {track.name}"] *)
Definition missing_line (track : Track.t) : list N :=
  codepoints "  " ++ Track.artist track ++ codepoints " - "
                  ++ Track.name track.

Definition missing_header (n : nat) : list N :=
  [10%N] ++ codepoints "Songs with no BPM found (" ++ decimal n
         ++ codepoints "):".

Definition more_line (n : nat) : list N :=
  codepoints "  ... and " ++ decimal n ++ codepoints " more".

(** Lines 209-214: what is printed about the songs without a tempo. *)
Definition missing_report (missing_songs : list (list N))
  : list (list N) :=
  if bool_decide (missing_songs = []) then []
  else
    missing_header (length missing_songs)
    :: take 20 missing_songs
    ++ (if (20 <? length missing_songs)%nat
        then [more_line (length missing_songs - 20)]
        else []).

Section Scanner.

Context {World : Type}.
Variable http_get : World -> request -> response * World.
Variable float_of_str : list N -> option Q.
Variable api_key : list N.

(** The tail of one iteration after a lookup that was not rate limited:
    lines 190-205, [new_bpm] being what is written to the table. *)
Definition after_lookup (progress : bool) (track : Track.t)
    (new_bpm : option Q) (s : scan World) : scan World :=
  let conn' := set_cached_bpm (conn s) (Track.id track) (Track.name track)
                 (Track.artist track) new_bpm in
  let st' :=
    match new_bpm with
    | Some _ => Stats (S (found (st s))) (not_found (st s))
                  (cached (st s)) (rate_limited (st s))
    | None => Stats (found (st s)) (S (not_found (st s)))
                (cached (st s)) (rate_limited (st s))
    end in
  let missing' :=
    match new_bpm with
    | Some _ => missing_songs s
    | None => missing_songs s ++ [missing_line track]
    end in
  let api_calls' := S (api_calls s) in
  let echoed' :=
    if progress && (api_calls' mod 50 =? 0)%nat
    then echoed s ++ [progress_message api_calls']
    else echoed s in
  Scan conn' (world s) st' missing' api_calls' echoed' (lookups s)
    (S (sleeps s)).

(** The [for] loop of lines 164-205. *)
Fixpoint scan_loop (progress : bool) (tracks : list Track.t)
    (s : scan World) : loop_exit * scan World :=
  match tracks with
  | [] => (Exhausted, s)
  | track :: rest =>
      match get_cached_bpm (conn s) (Track.id track) with
      | Some _ =>
          scan_loop progress rest
            (Scan (conn s) (world s)
               (Stats (found (st s)) (not_found (st s))
                  (S (cached (st s))) (rate_limited (st s)))
               (missing_songs s) (api_calls s) (echoed s) (lookups s)
               (sleeps s))
      | None =>
          match conn s !! Track.id track with
          | Some _ =>
              scan_loop progress rest
                (Scan (conn s) (world s)
                   (Stats (found (st s)) (S (not_found (st s)))
                      (cached (st s)) (rate_limited (st s)))
                   (missing_songs s ++ [missing_line track])
                   (api_calls s) (echoed s) (lookups s) (sleeps s))
          | None =>
              let '(r, w) :=
                search_bpm http_get float_of_str (Track.name track)
                  (Track.artist track) api_key (world s) in
              let s := Scan (conn s) w (st s) (missing_songs s)
                         (api_calls s) (echoed s) (lookups s ++ [track])
                         (sleeps s) in
              match r with
              | Raised e => (Propagate e, s)
              | Returned RATE_LIMITED =>
                  (Break,
                   Scan (conn s) (world s)
                     (Stats (found (st s)) (not_found (st s))
                        (cached (st s)) true)
                     (missing_songs s) (api_calls s)
                     (echoed s ++ [rate_limit_message]) (lookups s)
                     (sleeps s))
              | Returned (Tempo q) =>
                  scan_loop progress rest
                    (after_lookup progress track (Some q) s)
              | Returned NoneResult =>
                  scan_loop progress rest
                    (after_lookup progress track None s)
              end
          end
      end
  end.

Definition scan_init (conn : gmap (list N) row) (w : World) : scan World :=
  Scan conn w (Stats 0 0 0 false) [] 0 [] [] 0.

(** [scan_for_bpms(tracks, progress)] on a table and a network state: the
    returned dict, or the exception of a lookup, and the final state. *)
Definition scan_for_bpms (tracks : list Track.t) (progress : bool)
    (conn0 : gmap (list N) row) (w : World)
  : outcome stats * scan World :=
  match scan_loop progress tracks (scan_init conn0 w) with
  | (Propagate e, s) => (Raised e, s)
  | (_, s) =>
      (Returned (st s),
       Scan (conn s) (world s) (st s) (missing_songs s) (api_calls s)
         (echoed s ++ missing_report (missing_songs s)) (lookups s)
         (sleeps s))
  end.

End Scanner.

(** ** Cadence zones *)

(** A zone set: the dict [name -> [low, high]] in its insertion order. *)
Abbreviation zones := (list (list N * (Z * Z))).

(* [garmin.FIXED_ZONES] *)
Definition FIXED_ZONES : zones :=
  [ (codepoints "Easy", (150, 165));
    (codepoints "Moderate", (165, 175));
    (codepoints "Tempo", (175, 185));
    (codepoints "Speed", (185, 200)) ].

(** [l[i]] on a Python list, negative indices counting from the end. *)
Definition py_item (l : list Z) (i : Z) : outcome Z :=
  let j := if i <? 0 then Z.of_nat (length l) + i else i in
  if j <? 0 then Raised IndexError
  else match l !! Z.to_nat j with
       | Some x => Returned x
       | None => Raised IndexError
       end.

(** The inner function [percentile] of [calculate_zones].  For the four
    percentages that are used, [int(p / 100 * n)] is the integer quotient
    of [p * n] by 100 (the double-precision product is exact or off by less
    than the distance to the next integer for every length below 2^50). *)
Definition percentile (sorted_cadence : list Z) (p : Z) : outcome Z :=
  let n := Z.of_nat (length sorted_cadence) in
  let idx := p * n / 100 in
  let idx := Z.min idx (n - 1) in
  py_item sorted_cadence idx.

Definition low_data_warning : list N :=
  codepoints "Warning: very little cadence data, zones may not be meaningful.".

Definition outcome_bind {A B} (m : outcome A) (f : A -> outcome B)
  : outcome B :=
  match m with
  | Returned a => f a
  | Raised e => Raised e
  end.

#[global] Instance outcome_mbind : MBind outcome := fun A B f m =>
  outcome_bind m f.

(** [calculate_zones(all_cadence)]: the lines printed and the result. *)
Definition calculate_zones (all_cadence : list Z)
  : list (list N) * outcome zones :=
  let out := if (length all_cadence <? 100)%nat then [low_data_warning]
             else [] in
  let sorted_cadence := merge_sort Z.le all_cadence in
  (out,
   p25 ← percentile sorted_cadence 25;
   p50 ← percentile sorted_cadence 50;
   p75 ← percentile sorted_cadence 75;
   p90 ← percentile sorted_cadence 90;
   top ← py_item sorted_cadence (-1);
   Returned
     [ (codepoints "Easy", (p25, p50));
       (codepoints "Moderate", (p50, p75));
       (codepoints "Tempo", (p75, p90));
       (codepoints "Speed", (p90, Z.max top (p90 + 10))) ]).

(** The analysis of [analyze_runs] (lines 146-167), from what
    [parse_cadence_from_fit] gave for each path of [fit_paths]: the zone set
    that is then printed and saved, with the branch that produced it. *)
Inductive zone_source : Type := FromFallback | FromPercentiles.

Inductive analysis : Type :=
  | ClickException (message : list N)
  | Analysed (src : zone_source) (z : outcome zones).

Definition analyze_runs (fit_cadence : list (list Z)) : analysis :=
  if bool_decide (fit_cadence = []) then
    ClickException (codepoints "No FIT files to analyze.")
  else
    let all_cadence :=
      flat_map (fun cadence => if bool_decide (cadence = []) then []
                               else cadence) fit_cadence in
    if bool_decide (all_cadence = []) then
      ClickException (codepoints "No cadence data found in any FIT file.")
    else
      let num_runs := length fit_cadence in
      if (num_runs <? 10)%nat then Analysed FromFallback (Returned FIXED_ZONES)
      else Analysed FromPercentiles (snd (calculate_zones all_cadence)).

(** ** The zone matcher *)

Definition in_bounds (low high : Z) (candidate : Q) : bool :=
  Qle_bool (inject_Z low) candidate && Qle_bool candidate (inject_Z high).

(** The loop over the zones, [matched] being the list built so far; the
    inner loop appends the name at the first candidate within the bounds
    and breaks. *)
Fixpoint match_loop (candidates : list Q) (zs : zones)
    (matched : list (list N)) : list (list N) :=
  match zs with
  | [] => matched
  | (zone_name, (low, high)) :: rest =>
      match_loop candidates rest
        (if existsb (in_bounds low high) candidates
         then matched ++ [zone_name] else matched)
  end.

Definition candidates_of (bpm : Q) : list Q := [bpm; bpm * 2; bpm / 2]%Q.

Definition match_to_zone (bpm : Q) (zs : zones) : list (list N) :=
  match_loop (candidates_of bpm) zs [].

(** ** Vocabulary of the design document *)

(** A zone matches when one of the candidates is within its bounds. *)
Definition zone_matches (candidates : list Q) (z : list N * (Z * Z)) : bool :=
  existsb (in_bounds (fst (snd z)) (snd (snd z))) candidates.

(** No white space at either end. *)
Definition trimmed (s : list N) : Prop :=
  (forall c, head s = Some c -> isspace c = false)
  /\ (forall c, last s = Some c -> isspace c = false).

(** The three states of a track in the store, in the words of the design
    document: no row, a row with a null tempo, a row with a tempo. *)
Inductive TempoState : Type :=
  | Unknown
  | ConfirmedAbsent
  | Known (value : Q).

Definition tempo_state (conn : gmap (list N) row) (track_id : list N)
  : TempoState :=
  match conn !! track_id with
  | None => Unknown
  | Some r => match bpm r with
              | None => ConfirmedAbsent
              | Some v => Known v
              end
  end.

(** The activities that contributed samples. *)
Definition contributing (fit_cadence : list (list Z)) : nat :=
  length (filter (fun cadence => cadence <> []) fit_cadence).

(** ** A scripted service

    A network whose state is the list of the responses still to come: each
    GET takes the next one, and fails when none is left. *)
Definition scripted (w : list response) (_ : request)
  : response * list response :=
  match w with
  | r :: w' => (r, w')
  | [] => (Failed, [])
  end.

Definition ok (j : json) : response := Response 200 (Decoded j).

(** A search result list with one song, and the details of a song. *)
Definition search_hit (song_id : string) : json :=
  JObj [ (codepoints "search",
          JArr [ JObj [ (codepoints "id", JStr (codepoints song_id)) ] ]) ].

Definition song_detail (tempo : json) : json :=
  JObj [ (codepoints "song", JObj [ (codepoints "tempo", tempo) ]) ].

(** No string converts to a number. *)
Definition no_float (_ : list N) : option Q := None.

(** How a track resolves from the store. *)
Definition known_in (conn : gmap (list N) row) (t : Track.t) : bool :=
  match tempo_state conn (Track.id t) with Known _ => true | _ => false end.

Definition absent_in (conn : gmap (list N) row) (t : Track.t) : bool :=
  match tempo_state conn (Track.id t) with
  | ConfirmedAbsent => true
  | _ => false
  end.

(** The sum of the three tallies. *)
Definition tallied (st : stats) : nat := found st + not_found st + cached st.

(** Five tracks of a library, and a key. *)
Definition song (id name artist : string) : Track.t :=
  Track.Make (codepoints id) (codepoints name) (codepoints artist)
    (codepoints "spotify:track:" ++ codepoints id).

Definition library : list Track.t :=
  [ song "t1" "Under Pressure" "Queen, David Bowie";
    song "t2" "Silence (Live)" "Nobody";
    song "t3" "Heroes" "David Bowie";
    song "t4" "Song 2" "Blur";
    song "t5" "Clocks" "Coldplay" ].

Definition demo_key : list N := codepoints "key".

(** The service finds the first track at 114 beats per minute, has no tempo
    for the second, and then answers 429. *)
Definition limited_after_two : list response :=
  [ ok (search_hit "s1"); ok (song_detail (JNum 114));
    ok (search_hit "s2"); ok (song_detail JNull);
    Response 429 NotJSON ].

(** ** One iteration of the scanner

    The body of the [for] loop of [scan_for_bpms] on one track: [None] when
    the loop goes on to the next track, the way the loop ends otherwise. *)

Section ScannerBody.

Context {World : Type}.
Variable http_get : World -> request -> response * World.
Variable float_of_str : list N -> option Q.
Variable api_key : list N.

Definition scan_body (progress : bool) (track : Track.t) (s : scan World)
  : option loop_exit * scan World :=
  match get_cached_bpm (conn s) (Track.id track) with
  | Some _ =>
      (None,
       Scan (conn s) (world s)
         (Stats (found (st s)) (not_found (st s))
            (S (cached (st s))) (rate_limited (st s)))
         (missing_songs s) (api_calls s) (echoed s) (lookups s)
         (sleeps s))
  | None =>
      match conn s !! Track.id track with
      | Some _ =>
          (None,
           Scan (conn s) (world s)
             (Stats (found (st s)) (S (not_found (st s)))
                (cached (st s)) (rate_limited (st s)))
             (missing_songs s ++ [missing_line track])
             (api_calls s) (echoed s) (lookups s) (sleeps s))
      | None =>
          let '(r, w) :=
            search_bpm http_get float_of_str (Track.name track)
              (Track.artist track) api_key (world s) in
          let s := Scan (conn s) w (st s) (missing_songs s)
                     (api_calls s) (echoed s) (lookups s ++ [track])
                     (sleeps s) in
          match r with
          | Raised e => (Some (Propagate e), s)
          | Returned RATE_LIMITED =>
              (Some Break,
               Scan (conn s) (world s)
                 (Stats (found (st s)) (not_found (st s))
                    (cached (st s)) true)
                 (missing_songs s) (api_calls s)
                 (echoed s ++ [rate_limit_message]) (lookups s)
                 (sleeps s))
          | Returned (Tempo q) =>
              (None, after_lookup progress track (Some q) s)
          | Returned NoneResult =>
              (None, after_lookup progress track None s)
          end
      end
  end.

End ScannerBody.

(** ** A service that keeps a log

    The same service, with the list of the requests made so far beside its
    state. *)
Definition logged {World : Type}
    (http_get : World -> request -> response * World)
    (wl : World * list request) (req : request)
  : response * (World * list request) :=
  let '(resp, w) := http_get (fst wl) req in
  (resp, (w, snd wl ++ [req])).

(** ** Cadence readings of one FIT file

    [parse_cadence_from_fit] on the record messages that the file yields
    (those read before a parsing error, when there is one), each with its
    fields: a name and a value, [None] when the field is empty. *)
Fixpoint parse_fields (fields : list (list N * option Z))
    (cadence_values : list Z) : list Z :=
  match fields with
  | [] => cadence_values
  | (name, value) :: rest =>
      parse_fields rest
        (if pystr_eqb name (codepoints "cadence") then
           match value with
           | Some v => if 0 <? v then cadence_values ++ [v * 2]
                       else cadence_values
           | None => cadence_values
           end
         else cadence_values)
  end.

Fixpoint parse_records (records : list (list (list N * option Z)))
    (cadence_values : list Z) : list Z :=
  match records with
  | [] => cadence_values
  | record :: rest => parse_records rest (parse_fields record cadence_values)
  end.

Definition parse_cadence_from_fit
    (records : list (list (list N * option Z))) : list Z :=
  parse_records records [].

(** ** Playlists ([spotify.py])

    The library calls that [create_or_update_playlist] makes on the client,
    in their order. *)
Inductive spotify_call : Type :=
  | PlaylistChangeDetails (playlist_id description : list N)
  | PlaylistReplaceItems (playlist_id : list N) (items : list (list N))
  | UserPlaylistCreate (user_id name : list N) (public : bool)
      (description : list N)
  | PlaylistAddItems (playlist_id : list N) (items : list (list N)).

(** [range(0, stop, step)] for a positive step. *)
Definition py_range_step (stop step : nat) : list nat :=
  map (fun j => j * step)%nat (seq 0 ((stop + step - 1) / step)).

(** The batches of the loop of lines 108-110: [track_uris[i : i + 100]] for
    [i] in [range(0, len(track_uris), 100)]. *)
Definition add_batches (track_uris : list (list N)) : list (list (list N)) :=
  map (fun i => take 100 (drop i track_uris))
    (py_range_step (length track_uris) 100).

(** [create_or_update_playlist]: [existing] is what
    [find_existing_playlist] returned and [created_id] the identifier in
    the answer to a creation.  The calls made, and the identifier
    returned. *)
Definition create_or_update_playlist (existing : option (list N))
    (created_id user_id name description : list N)
    (track_uris : list (list N)) : list spotify_call * list N :=
  let found_id :=
    match existing with
    | Some (c :: playlist_id) => Some (c :: playlist_id)
    | _ => None                       (* [None] and [""] are false *)
    end in
  let '(calls, playlist_id) :=
    match found_id with
    | Some playlist_id =>
        ([ PlaylistChangeDetails playlist_id description;
           PlaylistReplaceItems playlist_id [] ], playlist_id)
    | None =>
        ([ UserPlaylistCreate user_id name false description ], created_id)
    end in
  (calls ++ map (PlaylistAddItems playlist_id) (add_batches track_uris),
   playlist_id).

(** ** Grouping the songs by zone ([generator.py]) *)

(** A song of [get_all_cached]: identifier, name, artist, tempo. *)
Abbreviation song_row := (list N * list N * list N * Q)%type.

Definition song_id (t : song_row) : list N := fst (fst (fst t)).
Definition song_bpm (t : song_row) : Q := snd t.

(* [zone_tracks[zone_name].append(song)] *)
Fixpoint append_to (zone_name : list N) (t : song_row)
    (zone_tracks : list (list N * list song_row))
  : list (list N * list song_row) :=
  match zone_tracks with
  | [] => []
  | (n, tracks) :: rest =>
      if pystr_eqb n zone_name then (n, tracks ++ [t]) :: rest
      else (n, tracks) :: append_to zone_name t rest
  end.

(** The loop of lines 34-40: the groups and the unmatched songs. *)
Fixpoint group_songs (zs : zones) (cached_songs : list song_row)
    (zone_tracks : list (list N * list song_row))
    (unmatched : list song_row)
  : list (list N * list song_row) * list song_row :=
  match cached_songs with
  | [] => (zone_tracks, unmatched)
  | t :: rest =>
      let matched_zones := match_to_zone (song_bpm t) zs in
      if bool_decide (matched_zones = []) then
        group_songs zs rest zone_tracks (unmatched ++ [t])
      else
        group_songs zs rest
          (foldl (fun zt zone_name => append_to zone_name t zt)
             zone_tracks matched_zones)
          unmatched
  end.

(* [zones[zone_name]] *)
Definition zone_bounds (zs : zones) (zone_name : list N) : option (Z * Z) :=
  snd <$> find (fun z => pystr_eqb (fst z) zone_name) zs.

Definition PLAYLIST_PREFIX : list N := codepoints "Run".
Definition ATTRIBUTION : list N := codepoints "BPM data from GetSongBPM.com".

Definition decimal_Z (x : Z) : list N := codepoints (pretty x).

(* [f"{PLAYLIST_PREFIX}: {zone_name} Pace ({low}-{high} BPM)"] *)
Definition playlist_name (zone_name : list N) (low high : Z) : list N :=
  PLAYLIST_PREFIX ++ codepoints ": " ++ zone_name ++ codepoints " Pace ("
    ++ decimal_Z low ++ codepoints "-" ++ decimal_Z high
    ++ codepoints " BPM)".

Section Generator.

(** [str.lower] *)
Variable lower : list N -> list N.

Definition playlist_description (zone_name : list N) (low high : Z)
  : list N :=
  codepoints "Songs matching your " ++ lower zone_name
    ++ codepoints " running cadence (" ++ decimal_Z low ++ codepoints "-"
    ++ decimal_Z high ++ codepoints " steps per minute). " ++ ATTRIBUTION.

(** The loop of lines 51-70: the arguments of the successive calls of
    [create_or_update_playlist], name, description and track URIs. *)
Fixpoint playlist_plans (zs : zones)
    (zone_tracks : list (list N * list song_row))
  : outcome (list (list N * list N * list (list N))) :=
  match zone_tracks with
  | [] => Returned []
  | (zone_name, tracks) :: rest =>
      if bool_decide (tracks = []) then playlist_plans zs rest
      else
        match zone_bounds zs zone_name with
        | None => Raised KeyError
        | Some (low, high) =>
            match playlist_plans zs rest with
            | Raised e => Raised e
            | Returned plans =>
                Returned
                  ((playlist_name zone_name low high,
                    playlist_description zone_name low high,
                    map (fun t => codepoints "spotify:track:" ++ song_id t)
                      tracks) :: plans)
            end
        end
  end.

(** What [generate_playlists] does before it reaches the Spotify client. *)
Inductive generated : Type :=
  | GenError (message : list N)
  | Generated (zone_tracks : list (list N * list song_row))
      (unmatched : list song_row)
      (plans : outcome (list (list N * list N * list (list N)))).

(** [generate_playlists], from the zone file ([None] when it does not
    exist) and the songs of [get_all_cached]. *)
Definition generate_playlists (zone_file : option zones)
    (cached_songs : list song_row) : generated :=
  match zone_file with
  | None =>
      GenError (codepoints
        "No cadence zones found. Run 'cadence-beats analyze-runs' first.")
  | Some zs =>
      if bool_decide (cached_songs = []) then
        GenError (codepoints
          "No songs with BPM data found. Run 'cadence-beats scan-library' first.")
      else
        let '(zone_tracks, unmatched) :=
          group_songs zs cached_songs (map (fun z => (fst z, [])) zs) [] in
        Generated zone_tracks unmatched (playlist_plans zs zone_tracks)
  end.

End Generator.

(** ** Joined artist names

    [sep.join(items)], as [spotify.fetch_liked_songs] builds the artist of a
    track from the names of its artists, with [", "]. *)
Fixpoint join (sep : list N) (items : list (list N)) : list N :=
  match items with
  | [] => []
  | [x] => x
  | x :: rest => x ++ sep ++ join sep rest
  end.

Definition join_artists (names : list (list N)) : list N :=
  join (codepoints ", ") names.

(** No group is left: no opening character has a closing one after it. *)
Definition no_group (opening closing : N) (s : list N) : Prop :=
  forall a b, s = a ++ opening :: b -> closing ∉ b.

(** White space only. *)
Definition blank (w : list N) : Prop := forall x, x ∈ w -> isspace x = true.

(** Neither parenthesis nor square bracket, neither hyphen nor en dash. *)
Definition plain (s : list N) : Prop :=
  forall c, c ∈ s -> c <> 40%N /\ c <> 91%N /\ c <> 45%N /\ c <> 8211%N.

(** [written] spells [word] in lower-case and upper-case ASCII letters. *)
Definition same_letter (c x : N) : Prop :=
  x = c \/ (is_lower c = true /\ x = (c - 32)%N).

Definition spelled (word written : list N) : Prop :=
  Forall2 same_letter word written.

(** The words that introduce a suffix, after a dash. *)
Definition suffix_words : list (list N) :=
  map codepoints
    ["remaster"; "radio edit"; "single version"; "bonus track"; "live"]%string.

Definition feat_words : list (list N) := map codepoints ["feat"; "ft"]%string.

(** The rank of the percentile [p] among [n] samples. *)
Definition rank_of (n p : nat) : nat := Nat.min (p * n / 100) (n - 1).

(** The items that a sequence of calls adds, in order, and the sizes of the
    additions. *)
Definition added_items (calls : list spotify_call) : list (list N) :=
  flat_map (fun c => match c with
                     | PlaylistAddItems _ items => items
                     | _ => []
                     end) calls.

Definition is_add (c : spotify_call) : bool :=
  match c with PlaylistAddItems _ _ => true | _ => false end.

(** The songs of a zone, and the playlist made of them. *)
Definition zone_group (cached_songs : list song_row) (z : list N * (Z * Z))
  : list song_row :=
  filter (fun t => zone_matches (candidates_of (song_bpm t)) z = true)
    cached_songs.

Definition plan_of (lower : list N -> list N) (cached_songs : list song_row)
    (z : list N * (Z * Z)) : option (list N * list N * list (list N)) :=
  if bool_decide (zone_group cached_songs z = []) then None
  else Some (playlist_name (fst z) (fst (snd z)) (snd (snd z)),
             playlist_description lower (fst z) (fst (snd z)) (snd (snd z)),
             map (fun t => codepoints "spotify:track:" ++ song_id t)
               (zone_group cached_songs z)).

(** * Properties *)

(** ** Zone matcher *)

Lemma match_loop_filter (candidates : list Q) (zs : zones)
    (matched : list (list N)) :
  match_loop candidates zs matched
  = matched ++ map fst (filter (fun z => zone_matches candidates z = true) zs).
Proof.
  revert matched.
  induction zs as [|[zone_name [low high]] rest IH]; intros matched; simpl.
  - by rewrite app_nil_r.
  - rewrite IH, filter_cons.
    change (zone_matches candidates (zone_name, (low, high)))
      with (existsb (in_bounds low high) candidates).
    destruct (existsb (in_bounds low high) candidates) eqn:E.
    + rewrite decide_True by done. simpl. by rewrite <- app_assoc.
    + rewrite decide_False by done. done.
Qed.

Lemma match_to_zone_filter (bpm : Q) (zs : zones) :
  match_to_zone bpm zs
  = map fst (filter (fun z => zone_matches (candidates_of bpm) z = true) zs).
Proof. unfold match_to_zone. by rewrite match_loop_filter. Qed.

Lemma in_bounds_spec (low high : Z) (c : Q) :
  in_bounds low high c = true
  <-> (inject_Z low <= c)%Q /\ (c <= inject_Z high)%Q.
Proof.
  unfold in_bounds. rewrite andb_true_iff, !Qle_bool_iff. tauto.
Qed.

Lemma zone_matches_spec (bpm : Q) (z : list N * (Z * Z)) :
  zone_matches (candidates_of bpm) z = true
  <-> exists c, (c = bpm \/ c = bpm * 2 \/ c = bpm / 2)%Q
        /\ (inject_Z (fst (snd z)) <= c)%Q /\ (c <= inject_Z (snd (snd z)))%Q.
Proof.
  unfold zone_matches. rewrite existsb_exists. split.
  - intros (c & Hin & Hb). exists c. split; [|by apply in_bounds_spec].
    unfold candidates_of in Hin.
    destruct Hin as [<-|[<-|[<-|[]]]]; auto.
  - intros (c & Hc & Hb). exists c. split; [|by apply in_bounds_spec].
    unfold candidates_of.
    destruct Hc as [->|[->| ->]];
      [left|right; left|right; right; left]; reflexivity.
Qed.

(** C5.  [match_to_zone] names a zone exactly when the tempo, its double or
    its half lies within the inclusive bounds of a zone of that name; every
    zone of the set is examined, and on the empty zone set the result is
    empty whatever the tempo. *)
Theorem match_to_zone_semantics (bpm : Q) (zs : zones) (zone_name : list N) :
  (zone_name ∈ match_to_zone bpm zs
   <-> exists low high,
         (zone_name, (low, high)) ∈ zs
         /\ exists c, (c = bpm \/ c = bpm * 2 \/ c = bpm / 2)%Q
              /\ (inject_Z low <= c)%Q /\ (c <= inject_Z high)%Q)
  /\ match_to_zone bpm [] = [].
Proof.
  split; [|reflexivity].
  rewrite match_to_zone_filter, list_elem_of_fmap. split.
  - intros ([n [low high]] & -> & Hin).
    apply list_elem_of_filter in Hin as [Hm Hin].
    exists low, high. split; [done|].
    by apply (zone_matches_spec bpm (n, (low, high))).
  - intros (low & high & Hin & Hc).
    exists (zone_name, (low, high)). split; [done|].
    apply list_elem_of_filter. split; [|done].
    by apply (zone_matches_spec bpm (zone_name, (low, high))).
Qed.

(** C10.  In a zone set whose names are distinct, as the keys of a dict are,
    no name occurs twice in the result of [match_to_zone], however many of
    the three candidates fall in one zone, and the names come in the order
    of the zone set. *)
Theorem match_to_zone_nodup_ordered (bpm : Q) (zs : zones) :
  NoDup (map fst zs) ->
  NoDup (match_to_zone bpm zs)
  /\ sublist (match_to_zone bpm zs) (map fst zs)
  /\ match_to_zone bpm zs
     = map fst (filter (fun z => zone_matches (candidates_of bpm) z = true) zs).
Proof.
  intros Hnd. rewrite match_to_zone_filter.
  assert (Hsub : sublist
            (map fst (filter (fun z => zone_matches (candidates_of bpm) z = true) zs))
            (map fst zs)).
  { apply (fmap_sublist fst), sublist_filter. }
  split; [|done].
  eapply sublist_NoDup; eauto.
Qed.

(** Three candidates in one zone, one name; two zones, two names in the
    order of the set. *)
Lemma match_to_zone_nodup_ordered_witness :
  let zs := [ (codepoints "Easy", (150, 170)); (codepoints "Sprint", (39, 43));
              (codepoints "Wide", (10, 400)) ] in
  NoDup (match_to_zone 82 zs)
  /\ sublist (match_to_zone 82 zs) (map fst zs)
  /\ match_to_zone 82 zs
     = map fst (filter (fun z => zone_matches (candidates_of 82) z = true) zs).
Proof.
  apply (match_to_zone_nodup_ordered 82).
  apply (bool_decide_unpack _). vm_compute. exact I.
Defined.

(** ** Name normalizer *)

Lemma lstrip_head (s : list N) (c : N) :
  head (lstrip s) = Some c -> isspace c = false.
Proof.
  induction s as [|x s IH]; simpl; [done|].
  destruct (isspace x) eqn:E; [done|].
  simpl. by intros [= <-].
Qed.

Lemma lstrip_suffix (s : list N) : exists p, s = p ++ lstrip s.
Proof.
  induction s as [|x s [p IH]]; simpl.
  - by exists [].
  - destruct (isspace x).
    + exists (x :: p). simpl. by f_equal.
    + by exists [].
Qed.

Lemma rstrip_prefix (s : list N) : exists q, s = rstrip s ++ q.
Proof.
  unfold rstrip. destruct (lstrip_suffix (reverse s)) as [p Hp].
  exists (reverse p).
  rewrite <- reverse_app, <- Hp. by rewrite reverse_involutive.
Qed.

Lemma strip_trimmed (s : list N) : trimmed (strip s).
Proof.
  unfold strip. split; intros c Hc.
  - apply (lstrip_head s).
    destruct (rstrip_prefix (lstrip s)) as [q Hq].
    assert (Hh : head (rstrip (lstrip s) ++ q) = Some c)
      by (apply head_app_Some; by left).
    by rewrite <- Hq in Hh.
  - unfold rstrip in Hc. rewrite last_reverse in Hc.
    by apply lstrip_head in Hc.
Qed.

(** ** BPM store *)

(** What [get_cached_bpm] returns, state by state. *)
Lemma get_cached_bpm_state (conn : gmap (list N) row) (track_id : list N) :
  match tempo_state conn track_id with
  | Known v => get_cached_bpm conn track_id = Some v
  | ConfirmedAbsent =>
      get_cached_bpm conn track_id = None /\ is_Some (conn !! track_id)
  | Unknown => get_cached_bpm conn track_id = None /\ conn !! track_id = None
  end.
Proof.
  unfold tempo_state, get_cached_bpm.
  destruct (conn !! track_id) as [r|] eqn:E; [|done].
  destruct (bpm r); eauto.
Qed.

(** C3, as stated, fails: no function of the value of [get_cached_bpm] tells
    the three states apart, since a track without a row and a track with a
    null tempo both give [None]. *)
Lemma get_cached_bpm_not_three_way :
  ~ exists classify : option Q -> TempoState,
      forall (conn : gmap (list N) row) (track_id : list N),
        classify (get_cached_bpm conn track_id) = tempo_state conn track_id.
Proof.
  intros [classify H].
  pose proof (H ∅ (codepoints "t1")) as H1.
  pose proof (H {[ codepoints "t1" := Row (codepoints "Song")
                     (codepoints "Artist") None ]} (codepoints "t1")) as H2.
  vm_compute in H1, H2. congruence.
Qed.

(** C3, amended.  [get_cached_bpm] tells a known tempo from the rest: it
    gives the tempo exactly in the state Known, and [None] both in Unknown
    and in ConfirmedAbsent.  The pair that the scanner reads, that value and
    the presence of a row, determines the state. *)
Theorem get_cached_bpm_two_way (conn : gmap (list N) row)
    (track_id : list N) :
  (forall v, get_cached_bpm conn track_id = Some v
             <-> tempo_state conn track_id = Known v)
  /\ (get_cached_bpm conn track_id = None
      <-> tempo_state conn track_id = Unknown
          \/ tempo_state conn track_id = ConfirmedAbsent)
  /\ tempo_state conn track_id
     = match get_cached_bpm conn track_id, conn !! track_id with
       | Some v, _ => Known v
       | None, Some _ => ConfirmedAbsent
       | None, None => Unknown
       end.
Proof.
  unfold tempo_state, get_cached_bpm.
  destruct (conn !! track_id) as [r|]; [destruct (bpm r)|];
    repeat split; try congruence; intros; eauto;
    try (destruct H; congruence).
Qed.

(** ** Zone calculator *)

Lemma StronglySorted_lookup_le (l : list Z) (i j : nat) (x y : Z) :
  StronglySorted Z.le l -> (i <= j)%nat ->
  l !! i = Some x -> l !! j = Some y -> x <= y.
Proof.
  intros Hs. revert i j.
  induction Hs as [|a l Hs IH Hall]; intros i j Hij Hi Hj; [done|].
  destruct i as [|i], j as [|j]; simpl in *.
  - assert (x = y) by congruence. lia.
  - injection Hi as <-.
    rewrite Forall_forall in Hall. apply Hall.
    by eapply list_elem_of_lookup_2.
  - lia.
  - eapply IH; [|done..]. lia.
Qed.

Lemma rank_to_nat (p n : nat) :
  (0 < n)%nat ->
  0 <= Z.min (Z.of_nat p * Z.of_nat n / 100) (Z.of_nat n - 1)
  /\ Z.to_nat (Z.min (Z.of_nat p * Z.of_nat n / 100) (Z.of_nat n - 1))
     = Nat.min (p * n / 100) (n - 1).
Proof.
  intros Hn. rewrite <- Nat2Z.inj_mul, <- (Nat2Z.inj_div _ 100).
  generalize (p * n / 100)%nat. intros m. lia.
Qed.

(** On a non-empty list, [percentile] returns the element of rank
    [min (p * n / 100) (n - 1)]. *)
Lemma percentile_lookup (l : list Z) (p : nat) :
  l <> [] ->
  exists x, l !! Nat.min (p * length l / 100) (length l - 1) = Some x
            /\ percentile l (Z.of_nat p) = Returned x.
Proof.
  intros Hl.
  assert (Hn : (0 < length l)%nat) by (destruct l; [done|simpl; lia]).
  destruct (rank_to_nat p (length l) Hn) as [Hpos Hnat].
  destruct (lookup_lt_is_Some_2 l (Nat.min (p * length l / 100) (length l - 1)))
    as [x Hx]; [lia|].
  exists x. split; [done|].
  unfold percentile, py_item. cbv zeta.
  rewrite !(proj2 (Z.ltb_ge _ _) Hpos).
  by rewrite Hnat, Hx.
Qed.

(** On a non-empty list, [l[-1]] is the last element. *)
Lemma py_item_last (l : list Z) :
  l <> [] ->
  exists x, l !! (length l - 1)%nat = Some x /\ py_item l (-1) = Returned x.
Proof.
  intros Hl.
  assert (Hn : (0 < length l)%nat) by (destruct l; [done|simpl; lia]).
  destruct (lookup_lt_is_Some_2 l (length l - 1)) as [x Hx]; [lia|].
  exists x. split; [done|].
  unfold py_item. simpl.
  rewrite (proj2 (Z.ltb_ge (Z.of_nat (length l) + -1) 0)) by lia.
  replace (Z.to_nat (Z.of_nat (length l) + -1)) with (length l - 1)%nat by lia.
  by rewrite Hx.
Qed.

(** C4.  On a non-empty sample list, [calculate_zones] takes the samples in
    ascending order, reads the percentile [p] at the rank
    [min (floor (p * n / 100)) (n - 1)] (an element of the list, nothing is
    interpolated), and returns the four zones Easy, Moderate, Tempo and
    Speed with the bounds (p25, p50), (p50, p75), (p75, p90) and
    (p90, max (largest sample) (p90 + 10)). *)
Theorem calculate_zones_percentiles (all_cadence : list Z) :
  all_cadence <> [] ->
  let n := length all_cadence in
  let rank (p : nat) := Nat.min (p * n / 100) (n - 1) in
  exists (sorted_cadence : list Z) (p25 p50 p75 p90 top : Z),
    Sorted Z.le sorted_cadence
    /\ sorted_cadence ≡ₚ all_cadence
    /\ sorted_cadence !! rank 25%nat = Some p25
    /\ sorted_cadence !! rank 50%nat = Some p50
    /\ sorted_cadence !! rank 75%nat = Some p75
    /\ sorted_cadence !! rank 90%nat = Some p90
    /\ top ∈ all_cadence
    /\ (forall x, x ∈ all_cadence -> x <= top)
    /\ snd (calculate_zones all_cadence)
       = Returned
           [ (codepoints "Easy", (p25, p50));
             (codepoints "Moderate", (p50, p75));
             (codepoints "Tempo", (p75, p90));
             (codepoints "Speed", (p90, Z.max top (p90 + 10))) ].
Proof.
  intros Hne n rank.
  pose proof (merge_sort_Permutation Z.le all_cadence) as Hperm.
  pose proof (Sorted_merge_sort Z.le all_cadence) as Hsorted.
  set (sorted_cadence := merge_sort Z.le all_cadence) in *.
  assert (Hlen : length sorted_cadence = n) by by rewrite Hperm.
  assert (Hne' : sorted_cadence <> []).
  { intros E. rewrite E in Hperm. symmetry in Hperm.
    by apply Permutation_nil_r in Hperm. }
  destruct (percentile_lookup sorted_cadence 25 Hne') as (p25 & L25 & E25).
  destruct (percentile_lookup sorted_cadence 50 Hne') as (p50 & L50 & E50).
  destruct (percentile_lookup sorted_cadence 75 Hne') as (p75 & L75 & E75).
  destruct (percentile_lookup sorted_cadence 90 Hne') as (p90 & L90 & E90).
  destruct (py_item_last sorted_cadence Hne') as (top & Ltop & Etop).
  rewrite Hlen in L25, L50, L75, L90, Ltop.
  exists sorted_cadence, p25, p50, p75, p90, top.
  repeat (split; [done|]).
  split; [|split].
  - rewrite <- Hperm. by eapply list_elem_of_lookup_2.
  - intros x Hx. rewrite <- Hperm in Hx.
    apply list_elem_of_lookup_1 in Hx as [i Hi].
    apply (StronglySorted_lookup_le sorted_cadence i (n - 1)); [|  |done..].
    + by apply Sorted_StronglySorted; [apply _|].
    + apply lookup_lt_Some in Hi. lia.
  - unfold calculate_zones. simpl. fold sorted_cadence.
    change (percentile sorted_cadence 25) with
      (percentile sorted_cadence (Z.of_nat 25)).
    change (percentile sorted_cadence 50) with
      (percentile sorted_cadence (Z.of_nat 50)).
    change (percentile sorted_cadence 75) with
      (percentile sorted_cadence (Z.of_nat 75)).
    change (percentile sorted_cadence 90) with
      (percentile sorted_cadence (Z.of_nat 90)).
    rewrite E25. simpl. rewrite E50. simpl. rewrite E75. simpl.
    rewrite E90. simpl. rewrite Etop. reflexivity.
Qed.

(** One hundred samples, 150 to 199 twice over, given in descending
    order. *)
Lemma calculate_zones_percentiles_witness :
  let all_cadence := map (fun i => 199 - Z.of_nat i / 2) (seq 0 100) in
  let n := length all_cadence in
  let rank (p : nat) := Nat.min (p * n / 100) (n - 1) in
  exists (sorted_cadence : list Z) (p25 p50 p75 p90 top : Z),
    Sorted Z.le sorted_cadence
    /\ sorted_cadence ≡ₚ all_cadence
    /\ sorted_cadence !! rank 25%nat = Some p25
    /\ sorted_cadence !! rank 50%nat = Some p50
    /\ sorted_cadence !! rank 75%nat = Some p75
    /\ sorted_cadence !! rank 90%nat = Some p90
    /\ top ∈ all_cadence
    /\ (forall x, x ∈ all_cadence -> x <= top)
    /\ snd (calculate_zones all_cadence)
       = Returned
           [ (codepoints "Easy", (p25, p50));
             (codepoints "Moderate", (p50, p75));
             (codepoints "Tempo", (p75, p90));
             (codepoints "Speed", (p90, Z.max top (p90 + 10))) ].
Proof.
  apply (calculate_zones_percentiles
           (map (fun i => 199 - Z.of_nat i / 2) (seq 0 100))).
  vm_compute. discriminate.
Defined.

(** C6, as stated, fails: ten files of which one alone holds samples give
    one contributing activity, and the zones are computed from its
    samples. *)
Lemma fallback_not_by_contributing_count :
  let fit_cadence := replicate 9 [] ++ [[170; 172; 168]] in
  (contributing fit_cadence < 10)%nat
  /\ analyze_runs fit_cadence
     = Analysed FromPercentiles
         (Returned
            [ (codepoints "Easy", (168, 170));
              (codepoints "Moderate", (170, 172));
              (codepoints "Tempo", (172, 172));
              (codepoints "Speed", (172, 182)) ]).
Proof. split; [vm_compute; lia | vm_compute; reflexivity]. Qed.

Lemma all_cadence_concat (fit_cadence : list (list Z)) :
  flat_map (fun cadence => if bool_decide (cadence = []) then [] else cadence)
    fit_cadence
  = concat fit_cadence.
Proof.
  induction fit_cadence as [|c rest IH]; simpl; [done|].
  rewrite IH. by destruct c.
Qed.

(** C6, amended.  When at least one analysed file holds a sample, the
    fallback table is used exactly when fewer than 10 files were analysed,
    whether or not each of them contributed samples and whatever the number
    of samples, and with 10 files or more the zones are the percentile zones
    of all the samples.  When no file was given, or no file holds a sample,
    [analyze_runs] raises [ClickException] and no table is used. *)
Theorem fallback_by_file_count (fit_cadence : list (list Z)) :
  (analyze_runs fit_cadence = Analysed FromFallback (Returned FIXED_ZONES)
   <-> concat fit_cadence <> [] /\ (length fit_cadence < 10)%nat)
  /\ (analyze_runs fit_cadence
      = Analysed FromPercentiles (snd (calculate_zones (concat fit_cadence)))
      <-> concat fit_cadence <> [] /\ (10 <= length fit_cadence)%nat)
  /\ (forall z, analyze_runs fit_cadence = Analysed FromFallback z ->
        z = Returned FIXED_ZONES)
  /\ (forall z, analyze_runs fit_cadence = Analysed FromPercentiles z ->
        z = snd (calculate_zones (concat fit_cadence)))
  /\ ((exists message, analyze_runs fit_cadence = ClickException message)
      <-> concat fit_cadence = []).
Proof.
  unfold analyze_runs. rewrite all_cadence_concat.
  destruct fit_cadence as [|c rest].
  { simpl. repeat split; try done.
    - by intros [? _].
    - by intros [? _].
    - by eexists. }
  rewrite (bool_decide_false (c :: rest = [])) by done.
  case_bool_decide as Hc.
  { rewrite Hc. repeat split; try done.
    - by intros [? _].
    - by intros [? _].
    - by eexists. }
  destruct (length (c :: rest) <? 10)%nat eqn:Hlen.
  - apply Nat.ltb_lt in Hlen. repeat split; try done; try congruence.
    + intros [_ Hge]. lia.
    + by intros [? ?].
  - apply Nat.ltb_ge in Hlen. repeat split; try done; try congruence.
    + intros [_ Hlt]. lia.
    + by intros [? ?].
Qed.

(** Three files with a hundred samples each still take the fallback table;
    ten files with one sample each do not; three files without a sample
    give no table at all. *)
Lemma fallback_by_file_count_witness :
  analyze_runs (replicate 3 (replicate 100 170))
    = Analysed FromFallback (Returned FIXED_ZONES)
  /\ analyze_runs (replicate 10 [170])
    = Analysed FromPercentiles
        (snd (calculate_zones (concat (replicate 10 [170]))))
  /\ exists message, analyze_runs (replicate 3 []) = ClickException message.
Proof.
  split; [|split].
  - apply (proj1 (fallback_by_file_count (replicate 3 (replicate 100 170)))).
    split; [vm_compute; discriminate | vm_compute; lia].
  - refine (proj2 (proj1 (proj2
      (fallback_by_file_count (replicate 10 [170])))) _).
    split; [vm_compute; discriminate | vm_compute; lia].
  - apply (proj2 (proj2 (proj2 (proj2 (proj2
      (fallback_by_file_count (replicate 3 []))))))).
    reflexivity.
Defined.

(** ** Tempo lookup client *)


(** A decoded body that is not an object is outside what the [except] clause
    catches. *)
Lemma search_bpm_non_object_body :
  fst (search_bpm scripted no_float (codepoints "Song") (codepoints "Artist")
         (codepoints "key") [ ok (JArr []) ])
  = Raised AttributeError.
Proof. vm_compute. reflexivity. Qed.

(** So is the [RecursionError] of the decoder on a body nested too
    deep. *)
Lemma search_bpm_body_too_deep :
  fst (search_bpm scripted no_float (codepoints "Song") (codepoints "Artist")
         (codepoints "key") [ Response 200 TooDeep ])
  = Raised RecursionError
  /\ fst (search_bpm scripted no_float (codepoints "Song")
            (codepoints "Artist") (codepoints "key")
            [ ok (search_hit "s1"); Response 200 TooDeep ])
     = Raised RecursionError.
Proof. split; vm_compute; reflexivity. Qed.

(** So is a whole tempo beyond the range of a double, from
    [2^1024 - 2^970] on; the whole number just below is rounded to the
    largest double. *)
Lemma search_bpm_overflow :
  fst (search_bpm scripted no_float (codepoints "Song") (codepoints "Artist")
         (codepoints "key")
         [ ok (search_hit "s1");
           ok (song_detail (JNum (inject_Z (2 ^ 1024 - 2 ^ 970)))) ])
  = Raised OverflowError
  /\ fst (search_bpm scripted no_float (codepoints "Song")
            (codepoints "Artist") (codepoints "key")
            [ ok (search_hit "s1");
              ok (song_detail (JNum (inject_Z (2 ^ 1024 - 2 ^ 970 - 1)))) ])
     = Returned (Tempo (inject_Z (2 ^ 1024 - 2 ^ 971))).
Proof. split; vm_compute; reflexivity. Qed.

(** Whole numbers that fit 53 bits convert to themselves; beyond, the
    nearest double is taken, a tie going to the even mantissa. *)
Lemma float_of_int_rounding :
  float_of_int 120 = Some 120%Q
  /\ float_of_int (-5) = Some (-5)%Q
  /\ float_of_int (2 ^ 53) = Some (inject_Z (2 ^ 53))
  /\ float_of_int (2 ^ 53 + 1) = Some (inject_Z (2 ^ 53))
  /\ float_of_int (2 ^ 53 + 2) = Some (inject_Z (2 ^ 53 + 2))
  /\ float_of_int (2 ^ 53 + 3) = Some (inject_Z (2 ^ 53 + 4))
  /\ float_of_int (- (2 ^ 53 + 3)) = Some (inject_Z (- (2 ^ 53 + 4)))
  /\ float_of_int (10 ^ 400) = None.
Proof. repeat split; vm_compute; reflexivity. Qed.

Section ServiceProperties.

Context {World : Type}.
Variable http_get : World -> request -> response * World.
Variable float_of_str : list N -> option Q.

(** [search_bpm] in terms of the two GETs. *)
Lemma search_bpm_phases (track_name artist api_key : list N) (w : World) :
  let query := normalize_artist artist ++ [32%N]
                 ++ normalize_track_name track_name in
  let r1 := http_get w (SearchGet api_key query) in
  fst (search_bpm http_get float_of_str track_name artist api_key w)
  = match search_phase (fst r1) with
    | Val song_id =>
        handle (detail_phase float_of_str
                  (fst (http_get (snd r1) (SongGet api_key song_id))))
    | Return r => Returned r
    | Raise e => handle (Raise e)
    end.
Proof.
  intros query r1. unfold search_bpm. fold query. fold r1.
  destruct r1 as [resp w1]. simpl.
  destruct (search_phase resp); [|done..].
  by destruct (http_get w1 _).
Qed.


End ServiceProperties.

(** ** Enrichment scanner *)

Section ScannerProperties.

Context {World : Type}.
Variable http_get : World -> request -> response * World.
Variable float_of_str : list N -> option Q.
Variable api_key : list N.

Local Abbreviation loop := (scan_loop http_get float_of_str api_key).
Local Abbreviation run := (scan_for_bpms http_get float_of_str api_key).
Local Abbreviation lookup_of t w :=
  (search_bpm http_get float_of_str (Track.name t) (Track.artist t)
     api_key w).

(** The loop over a concatenation. *)
Lemma scan_loop_app (progress : bool) (pre rest : list Track.t)
    (s : scan World) :
  loop progress (pre ++ rest) s
  = match loop progress pre s with
    | (Exhausted, s') => loop progress rest s'
    | other => other
    end.
Proof.
  revert s. induction pre as [|t pre IH]; intros s; simpl; [done|].
  destruct (get_cached_bpm (conn s) (Track.id t)); [apply IH|].
  destruct (conn s !! Track.id t); [apply IH|].
  destruct (lookup_of t (world s)) as [[[q| |]|e] w']; simpl;
    try apply IH; done.
Qed.

(** When every track has a row, the loop reads the table and nothing
    else. *)
Lemma scan_loop_cached_only (progress : bool) (tracks : list Track.t)
    (s : scan World) :
  (forall t, t ∈ tracks -> is_Some (conn s !! Track.id t)) ->
  loop progress tracks s
  = (Exhausted,
     Scan (conn s) (world s)
       (Stats (found (st s))
          (not_found (st s) + length (List.filter (absent_in (conn s)) tracks))
          (cached (st s) + length (List.filter (known_in (conn s)) tracks))
          (rate_limited (st s)))
       (missing_songs s
          ++ map missing_line (List.filter (absent_in (conn s)) tracks))
       (api_calls s) (echoed s) (lookups s) (sleeps s)).
Proof.
  revert s. induction tracks as [|t tracks IH]; intros s Hrows.
  - simpl. rewrite !Nat.add_0_r, app_nil_r.
    by destruct s as [? ? []].
  - assert (Ht : is_Some (conn s !! Track.id t)) by (apply Hrows; left).
    destruct Ht as [r Hr].
    destruct (bpm r) as [v|] eqn:Hv.
    + assert (Hg : get_cached_bpm (conn s) (Track.id t) = Some v)
        by (unfold get_cached_bpm; by rewrite Hr).
      assert (Ha : absent_in (conn s) t = false)
        by (unfold absent_in, tempo_state; by rewrite Hr, Hv).
      assert (Hkn : known_in (conn s) t = true)
        by (unfold known_in, tempo_state; by rewrite Hr, Hv).
      cbn [scan_loop List.filter]. rewrite Hg, Ha, Hkn.
      rewrite IH by (intros; apply Hrows; by right). simpl.
      f_equal. f_equal. f_equal; lia.
    + assert (Hg : get_cached_bpm (conn s) (Track.id t) = None)
        by (unfold get_cached_bpm; by rewrite Hr).
      assert (Ha : absent_in (conn s) t = true)
        by (unfold absent_in, tempo_state; by rewrite Hr, Hv).
      assert (Hkn : known_in (conn s) t = false)
        by (unfold known_in, tempo_state; by rewrite Hr, Hv).
      cbn [scan_loop List.filter]. rewrite Hg, Hr, Ha, Hkn.
      rewrite IH by (intros; apply Hrows; by right). simpl.
      f_equal. f_equal.
      * f_equal; lia.
      * by rewrite <- app_assoc.
Qed.

Lemma known_or_absent (c : gmap (list N) row) (tracks : list Track.t) :
  (forall t, t ∈ tracks -> is_Some (c !! Track.id t)) ->
  (length (List.filter (absent_in c) tracks)
   + length (List.filter (known_in c) tracks) = length tracks)%nat.
Proof.
  induction tracks as [|t tracks IH]; intros Hrows; [done|].
  assert (Ht : is_Some (c !! Track.id t)) by (apply Hrows; left).
  destruct Ht as [r Hr].
  specialize (IH (fun t' Hin => Hrows t' (list_elem_of_further _ _ _ Hin))).
  cbn [List.filter]. unfold absent_in at 1, known_in at 1, tempo_state.
  rewrite Hr. destruct (bpm r); simpl; lia.
Qed.

(** What the loop keeps and what it establishes. *)
Lemma scan_loop_inv (progress : bool) (tracks : list Track.t)
    (s s' : scan World) (e : loop_exit) :
  loop progress tracks s = (e, s') ->
  (forall k, is_Some (conn s !! k) -> is_Some (conn s' !! k))
  /\ (exists d, not_found (st s') = not_found (st s) + d
                /\ length (missing_songs s')
                   = length (missing_songs s) + d)%nat
  /\ (exists out, echoed s' = echoed s ++ out)
  /\ (e = Exhausted ->
        (forall t, t ∈ tracks -> is_Some (conn s' !! Track.id t))
        /\ rate_limited (st s') = rate_limited (st s)
        /\ tallied (st s') = (tallied (st s) + length tracks)%nat)
  /\ (e = Break ->
        rate_limited (st s') = true
        /\ (tallied (st s') < tallied (st s) + length tracks)%nat).
Proof.
  revert s. induction tracks as [|t tracks IH]; intros s Hloop.
  - simpl in Hloop. injection Hloop as <- <-.
    split; [done|]. split; [exists 0%nat; lia|].
    split; [exists []; by rewrite app_nil_r|].
    split; [|done]. intros _. split; [by intros t Ht; inv Ht|].
    split; [done|]. simpl. lia.
  - simpl in Hloop.
    destruct (get_cached_bpm (conn s) (Track.id t)) as [v|] eqn:Hget.
    { apply IH in Hloop as (Hk & (d & Hd1 & Hd2) & (out & Hout) & Hex & Hbr).
      simpl in *.
      assert (Hrow : is_Some (conn s !! Track.id t)).
      { unfold get_cached_bpm in Hget.
        destruct (conn s !! Track.id t); [eauto|done]. }
      split; [done|]. split; [exists d; lia|]. split; [eauto|].
      unfold tallied in *. simpl in *.
      split.
      - intros He. destruct (Hex He) as (Hrows & Hrl & Htal).
        split; [|split; [done|lia]].
        intros t' Ht'. inv Ht'; eauto.
      - intros He. destruct (Hbr He) as (Hrl & Htal). split; [done|lia]. }
    destruct (conn s !! Track.id t) as [r|] eqn:Hrow.
    { apply IH in Hloop as (Hk & (d & Hd1 & Hd2) & (out & Hout) & Hex & Hbr).
      simpl in *. rewrite length_app in Hd2. simpl in Hd2.
      split; [done|]. split; [exists (S d); lia|]. split; [eauto|].
      unfold tallied in *. simpl in *.
      split.
      - intros He. destruct (Hex He) as (Hrows & Hrl & Htal).
        split; [|split; [done|lia]].
        intros t' Ht'. inv Ht'; [apply Hk; by rewrite Hrow|eauto].
      - intros He. destruct (Hbr He) as (Hrl & Htal). split; [done|lia]. }
    destruct (lookup_of t (world s)) as [[[q| |]|err] w'] eqn:Hlk;
      simpl in Hloop.
    + apply IH in Hloop as (Hk & (d & Hd1 & Hd2) & (out & Hout) & Hex & Hbr).
      unfold after_lookup, set_cached_bpm in *. simpl in *.
      assert (Hk' : forall k, is_Some (conn s !! k) -> is_Some (conn s' !! k)).
      { intros k Hs. apply Hk.
        destruct (decide (Track.id t = k)) as [->|Hne].
        - rewrite lookup_insert_eq. eauto.
        - by rewrite lookup_insert_ne. }
      split; [done|]. split; [exists d; lia|].
      split.
      { destruct (progress && _); [|eauto].
        rewrite <- app_assoc in Hout. eauto. }
      unfold tallied in *. simpl in *.
      split.
      * intros He. destruct (Hex He) as (Hrows & Hrl & Htal).
        split; [|split; [done|lia]].
        intros t' Ht'. inv Ht'; [|eauto].
        apply Hk. rewrite lookup_insert_eq. eauto.
      * intros He. destruct (Hbr He) as (Hrl & Htal). split; [done|lia].
    + apply IH in Hloop as (Hk & (d & Hd1 & Hd2) & (out & Hout) & Hex & Hbr).
      unfold after_lookup, set_cached_bpm in *. simpl in *.
      rewrite length_app in Hd2. simpl in Hd2.
      assert (Hk' : forall k, is_Some (conn s !! k) -> is_Some (conn s' !! k)).
      { intros k Hs. apply Hk.
        destruct (decide (Track.id t = k)) as [->|Hne].
        - rewrite lookup_insert_eq. eauto.
        - by rewrite lookup_insert_ne. }
      split; [done|]. split; [exists (S d); lia|].
      split.
      { destruct (progress && _); [|eauto].
        rewrite <- app_assoc in Hout. eauto. }
      unfold tallied in *. simpl in *.
      split.
      * intros He. destruct (Hex He) as (Hrows & Hrl & Htal).
        split; [|split; [done|lia]].
        intros t' Ht'. inv Ht'; [|eauto].
        apply Hk. rewrite lookup_insert_eq. eauto.
      * intros He. destruct (Hbr He) as (Hrl & Htal). split; [done|lia].
    + injection Hloop as <- <-. simpl.
      split; [done|]. split; [exists 0%nat; lia|]. split; [eauto|].
      split; [done|]. intros _. split; [done|]. unfold tallied. simpl. lia.
    + injection Hloop as <- <-. simpl.
      split; [done|]. split; [exists 0%nat; lia|].
      split; [exists []; by rewrite app_nil_r|].
      split; done.
Qed.

(** A run that returns with the flag unset went through every track. *)
Lemma run_not_rate_limited (tracks : list Track.t) (progress : bool)
    (conn0 : gmap (list N) row) (w : World) (st1 : stats) :
  fst (run tracks progress conn0 w) = Returned st1 ->
  rate_limited st1 = false ->
  fst (loop progress tracks (scan_init conn0 w)) = Exhausted
  /\ st1 = st (snd (loop progress tracks (scan_init conn0 w)))
  /\ conn (snd (run tracks progress conn0 w))
     = conn (snd (loop progress tracks (scan_init conn0 w)))
  /\ world (snd (run tracks progress conn0 w))
     = world (snd (loop progress tracks (scan_init conn0 w)))
  /\ lookups (snd (run tracks progress conn0 w))
     = lookups (snd (loop progress tracks (scan_init conn0 w)))
  /\ sleeps (snd (run tracks progress conn0 w))
     = sleeps (snd (loop progress tracks (scan_init conn0 w)))
  /\ missing_songs (snd (run tracks progress conn0 w))
     = missing_songs (snd (loop progress tracks (scan_init conn0 w))).
Proof.
  unfold scan_for_bpms.
  destruct (loop progress tracks (scan_init conn0 w)) as [e sa] eqn:Hl.
  destruct e; simpl.
  - by intros [= <-] Hrl.
  - intros [= <-] Hrl.
    apply scan_loop_inv in Hl as (_ & _ & _ & _ & Hbr).
    destruct (Hbr eq_refl) as [Hfl _]. congruence.
  - by intros [=].
Qed.

(** C1.  After a run that was not rate limited, a second run on the same
    tracks, from the table that the first left, calls the lookup client
    for no track: each track is tallied as cached (a known tempo) or as
    not found (a confirmed absence), and the table is unchanged. *)
Theorem scan_twice_no_lookups (tracks : list Track.t)
    (progress progress' : bool) (conn0 : gmap (list N) row)
    (w w' : World) (st1 : stats) :
  let first := run tracks progress conn0 w in
  fst first = Returned st1 ->
  rate_limited st1 = false ->
  let conn1 := conn (snd first) in
  let second := run tracks progress' conn1 w' in
  fst second
  = Returned (Stats 0 (length (List.filter (absent_in conn1) tracks))
                (length (List.filter (known_in conn1) tracks)) false)
  /\ lookups (snd second) = []
  /\ sleeps (snd second) = 0%nat
  /\ world (snd second) = w'
  /\ conn (snd second) = conn1
  /\ (length (List.filter (absent_in conn1) tracks)
      + length (List.filter (known_in conn1) tracks) = length tracks)%nat.
Proof.
  intros first Hret Hrl conn1 second.
  destruct (run_not_rate_limited tracks progress conn0 w st1 Hret Hrl)
    as (Hex & _ & Hconn & _).
  fold first in Hconn. fold conn1 in Hconn.
  destruct (loop progress tracks (scan_init conn0 w)) as [e sa] eqn:Hl.
  simpl in Hex, Hconn. subst e.
  apply scan_loop_inv in Hl as (_ & _ & _ & Hrows & _).
  destruct (Hrows eq_refl) as (Hrows' & _). rewrite <- Hconn in Hrows'.
  subst second. unfold scan_for_bpms.
  rewrite scan_loop_cached_only by done. simpl.
  repeat (split; [done|]).
  by apply known_or_absent.
Qed.

(** C2.  When the scan reaches a track that has no row and the lookup
    client answers that the rate limit is reached, the scan returns at
    once: the table is the one that the run over the tracks before it
    leaves, that lookup is the last one, the tallies are those of the
    tracks before it, and the flag is set. *)
Theorem rate_limit_halts (progress : bool) (pre post : list Track.t)
    (t : Track.t) (conn0 : gmap (list N) row) (w : World) (st1 : stats) :
  let before := run pre progress conn0 w in
  fst before = Returned st1 ->
  rate_limited st1 = false ->
  conn (snd before) !! Track.id t = None ->
  fst (lookup_of t (world (snd before))) = Returned RATE_LIMITED ->
  let halted := run (pre ++ t :: post) progress conn0 w in
  fst halted
  = Returned (Stats (found st1) (not_found st1) (cached st1) true)
  /\ conn (snd halted) = conn (snd before)
  /\ conn (snd halted) !! Track.id t = None
  /\ lookups (snd halted) = lookups (snd before) ++ [t]
  /\ sleeps (snd halted) = sleeps (snd before)
  /\ missing_songs (snd halted) = missing_songs (snd before).
Proof.
  intros before Hret Hrl Hrow Hlk halted.
  destruct (run_not_rate_limited pre progress conn0 w st1 Hret Hrl)
    as (Hex & Hst & Hconn & Hworld & Hlookups & Hsleeps & Hmiss).
  fold before in Hconn, Hworld, Hlookups, Hsleeps, Hmiss.
  subst halted. unfold scan_for_bpms at 1 2 3 4 5 6.
  rewrite scan_loop_app.
  destruct (loop progress pre (scan_init conn0 w)) as [e sa] eqn:Hl.
  simpl in Hex, Hst, Hconn, Hworld, Hlookups, Hsleeps, Hmiss. subst e.
  rewrite Hconn in Hrow. rewrite Hworld in Hlk.
  cbn [scan_loop]. unfold get_cached_bpm. rewrite Hrow.
  destruct (lookup_of t (world sa)) as [r w2]. simpl in Hlk. subst r.
  simpl. rewrite Hconn, Hlookups, Hsleeps, Hmiss, Hst.
  repeat (split; [done|]). done.
Qed.

(** C7, amended.  What a run returns is the dict of the three tallies and
    the flag.  The tracks without a tempo are as many as the tally of not
    found; they are not returned but printed at the end of the run: a
    heading, the first 20 of them, and the number of the others when
    there are more. *)
Theorem scan_outcome_contents (tracks : list Track.t) (progress : bool)
    (conn0 : gmap (list N) row) (w : World) (st1 : stats) :
  let r := run tracks progress conn0 w in
  fst r = Returned st1 ->
  let missing := missing_songs (snd r) in
  st1 = st (snd r)
  /\ not_found st1 = length missing
  /\ (rate_limited st1 = false -> tallied st1 = length tracks)
  /\ (rate_limited st1 = true -> (tallied st1 < length tracks)%nat)
  /\ (exists during, echoed (snd r) = during ++ missing_report missing)
  /\ (length (missing_report missing) <= 22)%nat
  /\ (missing <> [] ->
        missing_report missing
        = missing_header (length missing) :: take 20 missing
          ++ (if (20 <? length missing)%nat
              then [more_line (length missing - 20)] else [])).
Proof.
  intros r Hret missing. subst r missing. revert Hret.
  unfold scan_for_bpms.
  destruct (loop progress tracks (scan_init conn0 w)) as [e sa] eqn:Hl.
  assert (Hrep : forall m : list (list N),
            (length (missing_report m) <= 22)%nat
            /\ (m <> [] ->
                missing_report m
                = missing_header (length m) :: take 20 m
                  ++ (if (20 <? length m)%nat
                      then [more_line (length m - 20)] else []))).
  { intros m. unfold missing_report. split.
    - case_bool_decide; [simpl; lia|]. cbn [length].
      rewrite length_app, length_take.
      destruct (20 <? length m)%nat; cbn [length]; lia.
    - intros Hm. by rewrite bool_decide_false. }
  apply scan_loop_inv in Hl
    as (_ & (d & Hd1 & Hd2) & _ & Hex & Hbr).
  simpl in Hd1, Hd2. unfold tallied in *. simpl in Hex, Hbr.
  destruct e; simpl; intros [= <-].
  - destruct (Hex eq_refl) as (_ & Hrl & Htal).
    split; [done|]. split; [lia|]. split; [done|].
    split; [congruence|]. split; [eauto|]. apply Hrep.
  - destruct (Hbr eq_refl) as (Hrl & Htal).
    split; [done|]. split; [lia|]. split; [congruence|].
    split; [done|]. split; [eauto|]. apply Hrep.
Qed.

End ScannerProperties.

(** ** The scanner on a scripted service *)

(** Two tracks, one found and one without tempo: the second run looks
    nothing up. *)
Lemma scan_twice_no_lookups_witness :
  let tracks := take 2 library in
  let first :=
    scan_for_bpms scripted no_float demo_key tracks true ∅
      limited_after_two in
  let conn1 := conn (snd first) in
  let second := scan_for_bpms scripted no_float demo_key tracks true conn1 [] in
  fst second
  = Returned (Stats 0 (length (List.filter (absent_in conn1) tracks))
                (length (List.filter (known_in conn1) tracks)) false)
  /\ lookups (snd second) = []
  /\ sleeps (snd second) = 0%nat
  /\ world (snd second) = []
  /\ conn (snd second) = conn1
  /\ (length (List.filter (absent_in conn1) tracks)
      + length (List.filter (known_in conn1) tracks) = length tracks)%nat.
Proof.
  apply (scan_twice_no_lookups scripted no_float demo_key (take 2 library)
           true true ∅ limited_after_two [] (Stats 1 1 0 false)).
  - vm_compute. reflexivity.
  - reflexivity.
Defined.

(** The rate limit on the third of five tracks: two rows written, three
    lookups made, the flag set. *)
Lemma rate_limit_halts_witness :
  let before :=
    scan_for_bpms scripted no_float demo_key (take 2 library) true ∅
      limited_after_two in
  let halted :=
    scan_for_bpms scripted no_float demo_key library true ∅
      limited_after_two in
  fst halted = Returned (Stats 1 1 0 true)
  /\ conn (snd halted) = conn (snd before)
  /\ conn (snd halted) !! codepoints "t3" = None
  /\ lookups (snd halted) = lookups (snd before) ++ [song "t3" "Heroes" "David Bowie"]
  /\ sleeps (snd halted) = sleeps (snd before)
  /\ missing_songs (snd halted) = missing_songs (snd before).
Proof.
  apply (rate_limit_halts scripted no_float demo_key true (take 2 library)
           (drop 3 library) (song "t3" "Heroes" "David Bowie") ∅
           limited_after_two (Stats 1 1 0 false)).
  - vm_compute. reflexivity.
  - reflexivity.
  - vm_compute. reflexivity.
  - vm_compute. reflexivity.
Defined.

(** C7, as stated, fails: two runs return the same dict and have different
    lists of tracks without a tempo, so the list is not in what is
    returned. *)
Lemma scan_result_without_missing_list :
  let run_on tracks :=
    scan_for_bpms scripted no_float demo_key tracks true ∅ [] in
  fst (run_on (take 1 library)) = Returned (Stats 0 1 0 false)
  /\ fst (run_on (drop 4 library)) = Returned (Stats 0 1 0 false)
  /\ missing_songs (snd (run_on (take 1 library)))
     <> missing_songs (snd (run_on (drop 4 library))).
Proof.
  split; [vm_compute; reflexivity|].
  split; [vm_compute; reflexivity|].
  vm_compute. discriminate.
Qed.

(** The run on the five tracks: the dict, and a report of one line under
    its heading. *)
Lemma scan_outcome_contents_witness :
  let r :=
    scan_for_bpms scripted no_float demo_key library true ∅
      limited_after_two in
  let st1 := Stats 1 1 0 true in
  let missing := missing_songs (snd r) in
  st1 = st (snd r)
  /\ not_found st1 = length missing
  /\ (rate_limited st1 = false -> tallied st1 = length library)
  /\ (rate_limited st1 = true -> (tallied st1 < length library)%nat)
  /\ (exists during, echoed (snd r) = during ++ missing_report missing)
  /\ (length (missing_report missing) <= 22)%nat
  /\ (missing <> [] ->
        missing_report missing
        = missing_header (length missing) :: take 20 missing
          ++ (if (20 <? length missing)%nat
              then [more_line (length missing - 20)] else [])).
Proof.
  apply (scan_outcome_contents scripted no_float demo_key library true ∅
           limited_after_two (Stats 1 1 0 true)).
  vm_compute. reflexivity.
Defined.



(** ** More on the enrichment scanner *)

Section ScannerRuns.

Context {World : Type}.
Variable http_get : World -> request -> response * World.
Variable float_of_str : list N -> option Q.
Variable api_key : list N.

Local Abbreviation loop := (scan_loop http_get float_of_str api_key).
Local Abbreviation body := (scan_body http_get float_of_str api_key).
Local Abbreviation run := (scan_for_bpms http_get float_of_str api_key).
Local Abbreviation lookup_of t w :=
  (search_bpm http_get float_of_str (Track.name t) (Track.artist t)
     api_key w).

Lemma scan_loop_cons (progress : bool) (t : Track.t) (rest : list Track.t)
    (s : scan World) :
  loop progress (t :: rest) s
  = match body progress t s with
    | (None, s1) => loop progress rest s1
    | (Some e, s1) => (e, s1)
    end.
Proof.
  unfold scan_body. cbn [scan_loop].
  destruct (get_cached_bpm (conn s) (Track.id t)); [done|].
  destruct (conn s !! Track.id t); [done|].
  by destruct (lookup_of t (world s)) as [[[q| |]|e] w'].
Qed.

(** The run in terms of the loop. *)
Lemma run_final (tracks : list Track.t) (progress : bool)
    (conn0 : gmap (list N) row) (w : World) :
  let l := loop progress tracks (scan_init conn0 w) in
  let r := run tracks progress conn0 w in
  conn (snd r) = conn (snd l)
  /\ world (snd r) = world (snd l)
  /\ st (snd r) = st (snd l)
  /\ missing_songs (snd r) = missing_songs (snd l)
  /\ api_calls (snd r) = api_calls (snd l)
  /\ lookups (snd r) = lookups (snd l)
  /\ sleeps (snd r) = sleeps (snd l)
  /\ fst r = match fst l with
             | Propagate e => Raised e
             | _ => Returned (st (snd l))
             end.
Proof.
  intros l r. subst l r. unfold scan_for_bpms.
  by destruct (loop progress tracks (scan_init conn0 w)) as [[| |e] sa].
Qed.

(** What one iteration does to the table: nothing, or one new row, for the
    track, on a key that had none. *)
Lemma scan_body_conn (progress : bool) (t : Track.t) (s : scan World) :
  conn (snd (body progress t s)) = conn s
  \/ (conn s !! Track.id t = None
      /\ fst (body progress t s) = None
      /\ exists b,
           conn (snd (body progress t s))
           = <[Track.id t := Row (Track.name t) (Track.artist t) b]> (conn s)).
Proof.
  unfold scan_body.
  destruct (get_cached_bpm (conn s) (Track.id t)); [by left|].
  destruct (conn s !! Track.id t) eqn:Hrow; [by left|].
  destruct (lookup_of t (world s)) as [[[q| |]|e] w']; simpl;
    [right|right|by left|by left]; (split; [done|]); (split; [done|]); eauto.
Qed.

(** Rows are neither deleted nor rewritten, by one iteration and by the
    loop. *)
Lemma scan_body_keeps (progress : bool) (t : Track.t) (s : scan World)
    (k : list N) (r : row) :
  conn s !! k = Some r -> conn (snd (body progress t s)) !! k = Some r.
Proof.
  intros Hk.
  destruct (scan_body_conn progress t s) as [->|(Hnone & _ & b & ->)];
    [done|].
  rewrite lookup_insert_ne; [done|]. intros <-. congruence.
Qed.

Lemma scan_loop_keeps (progress : bool) (tracks : list Track.t)
    (s : scan World) (k : list N) (r : row) :
  conn s !! k = Some r -> conn (snd (loop progress tracks s)) !! k = Some r.
Proof.
  revert s. induction tracks as [|t tracks IH]; intros s Hk; [done|].
  rewrite scan_loop_cons.
  pose proof (scan_body_keeps progress t s k r Hk) as Hb.
  destruct (body progress t s) as [[e|] s1]; simpl in *; [done|].
  by apply IH.
Qed.

(** X1.  A run neither deletes nor rewrites a row that the table held when
    it started: a known tempo and a confirmed absence both stay as they
    are, whatever the service answers and however the run ends. *)
Theorem scan_keeps_rows (tracks : list Track.t) (progress : bool)
    (conn0 : gmap (list N) row) (w : World) (k : list N) (r : row) :
  conn0 !! k = Some r ->
  conn (snd (run tracks progress conn0 w)) !! k = Some r.
Proof.
  intros Hk.
  destruct (run_final tracks progress conn0 w) as (-> & _).
  by apply scan_loop_keeps.
Qed.

(** What one iteration counts: a lookup that is answered writes one new
    row, adds one to [api_calls] and sleeps once; an iteration that ends
    the loop made a lookup and did none of that. *)
Lemma scan_body_counts (progress : bool) (t : Track.t) (s : scan World) :
  let e := fst (body progress t s) in
  let s1 := snd (body progress t s) in
  e <> Some Exhausted
  /\ exists n f : nat,
    (f <= n /\ n + (if e is Some _ then 1 else 0) <= 1)%nat
    /\ api_calls s1 = (api_calls s + n)%nat
    /\ sleeps s1 = (sleeps s + n)%nat
    /\ size (conn s1) = (size (conn s) + n)%nat
    /\ found (st s1) = (found (st s) + f)%nat
    /\ length (lookups s1)
       = (length (lookups s) + n + if e is Some _ then 1 else 0)%nat.
Proof.
  unfold scan_body.
  destruct (get_cached_bpm (conn s) (Track.id t)).
  { split; [done|]. exists 0%nat, 0%nat. simpl. repeat split; lia. }
  destruct (conn s !! Track.id t) eqn:Hrow.
  { split; [done|]. exists 0%nat, 0%nat. simpl. repeat split; lia. }
  destruct (lookup_of t (world s)) as [[[q| |]|e] w']; simpl;
    (split; [done|]).
  - exists 1%nat, 1%nat. unfold set_cached_bpm.
    rewrite map_size_insert_None by done. rewrite length_app. simpl.
    repeat split; lia.
  - exists 1%nat, 0%nat. unfold set_cached_bpm.
    rewrite map_size_insert_None by done. rewrite length_app. simpl.
    repeat split; lia.
  - exists 0%nat, 0%nat. rewrite length_app. simpl. repeat split; lia.
  - exists 0%nat, 0%nat. rewrite length_app. simpl. repeat split; lia.
Qed.

Lemma scan_loop_counts (progress : bool) (tracks : list Track.t)
    (s : scan World) :
  let e := fst (loop progress tracks s) in
  let s' := snd (loop progress tracks s) in
  exists n f : nat,
    (f <= n)%nat
    /\ (n + (if e is Exhausted then 0 else 1) <= length tracks)%nat
    /\ api_calls s' = (api_calls s + n)%nat
    /\ sleeps s' = (sleeps s + n)%nat
    /\ size (conn s') = (size (conn s) + n)%nat
    /\ found (st s') = (found (st s) + f)%nat
    /\ length (lookups s')
       = (length (lookups s) + n + if e is Exhausted then 0 else 1)%nat.
Proof.
  revert s. induction tracks as [|t tracks IH]; intros s.
  { exists 0%nat, 0%nat. simpl. repeat split; lia. }
  rewrite scan_loop_cons.
  destruct (scan_body_counts progress t s)
    as (Hne & n1 & f1 & [Hf1 Hn1] & Ha & Hs & Hc & Hf & Hl).
  destruct (body progress t s) as [[e|] s1]; simpl in *.
  - exists n1, f1. destruct e; [done|repeat split; lia..].
  - destruct (IH s1) as (n & f & Hfn & Hlen & Ha' & Hs' & Hc' & Hf' & Hl').
    exists (n1 + n)%nat, (f1 + f)%nat.
    destruct (fst (loop progress tracks s1)); repeat split; lia.
Qed.

(** X2.  Pacing and quota of a run, however it ends: it sleeps once for
    each answered lookup and never after a cache hit, the table gains
    exactly one row per answered lookup, and besides the answered lookups
    the only call of the lookup client is the one that ended the run, by
    the rate limit or by an exception.  The lookups are no more than the
    tracks, and the tally of found tempos no more than the answers. *)
Theorem scan_pacing (tracks : list Track.t) (progress : bool)
    (conn0 : gmap (list N) row) (w : World) :
  let r := run tracks progress conn0 w in
  let s := snd r in
  sleeps s = api_calls s
  /\ size (conn s) = (size conn0 + api_calls s)%nat
  /\ length (lookups s)
     = (api_calls s
        + match fst r with
          | Returned st1 => if rate_limited st1 then 1 else 0
          | Raised _ => 1
          end)%nat
  /\ (length (lookups s) <= length tracks)%nat
  /\ (found (st s) <= api_calls s)%nat.
Proof.
  intros r s. subst r s.
  destruct (run_final tracks progress conn0 w)
    as (-> & _ & -> & _ & -> & -> & -> & ->).
  destruct (scan_loop_counts progress tracks (scan_init conn0 w))
    as (n & f & Hfn & Hlen & Ha & Hs & Hc & Hf & Hl).
  simpl in Ha, Hs, Hc, Hf, Hl.
  destruct (loop progress tracks (scan_init conn0 w)) as [e s'] eqn:Hloop.
  simpl in *.
  pose proof (scan_loop_inv http_get float_of_str api_key progress tracks
                (scan_init conn0 w) s' e Hloop) as (_ & _ & _ & Hex & Hbr).
  destruct e.
  - destruct (Hex eq_refl) as (_ & -> & _). simpl. repeat split; lia.
  - destruct (Hbr eq_refl) as (-> & _). repeat split; lia.
  - repeat split; lia.
Qed.

(** The lookups of one iteration, and the rows they meet. *)
Lemma scan_body_lookups (progress : bool) (t : Track.t) (s : scan World) :
  let e := fst (body progress t s) in
  let s1 := snd (body progress t s) in
  (lookups s1 = lookups s
   /\ (e = None -> is_Some (conn s1 !! Track.id t)))
  \/ (lookups s1 = lookups s ++ [t]
      /\ conn s !! Track.id t = None
      /\ (e = None -> is_Some (conn s1 !! Track.id t))).
Proof.
  unfold scan_body.
  destruct (get_cached_bpm (conn s) (Track.id t)) eqn:Hget.
  { left. simpl. split; [done|]. intros _. unfold get_cached_bpm in Hget.
    destruct (conn s !! Track.id t); [eauto|done]. }
  destruct (conn s !! Track.id t) eqn:Hrow.
  { left. simpl. split; [done|]. intros _. rewrite Hrow. eauto. }
  right.
  destruct (lookup_of t (world s)) as [[[q| |]|e] w']; simpl;
    (split; [done|]); (split; [done|]); try done;
    intros _; unfold set_cached_bpm; rewrite lookup_insert_eq; eauto.
Qed.

Lemma scan_loop_lookups (progress : bool) (tracks : list Track.t)
    (s : scan World) :
  exists new : list Track.t,
    lookups (snd (loop progress tracks s)) = lookups s ++ new
    /\ sublist new tracks
    /\ (forall t, t ∈ new -> conn s !! Track.id t = None)
    /\ NoDup (map Track.id new).
Proof.
  revert s. induction tracks as [|t tracks IH]; intros s.
  { exists []. simpl. rewrite app_nil_r.
    repeat split; [done| |constructor]. intros t Ht. inv Ht. }
  rewrite scan_loop_cons.
  pose proof (scan_body_lookups progress t s) as Hb.
  pose proof (scan_body_keeps progress t s) as Hkeep.
  destruct (body progress t s) as [[e|] s1]; simpl in *.
  - destruct Hb as [[-> _]|(-> & Hnone & _)].
    + exists []. rewrite app_nil_r.
      repeat split; [apply sublist_nil_l| |constructor].
      intros t' Ht'. inv Ht'.
    + exists [t]. repeat split.
      * apply sublist_skip, sublist_nil_l.
      * intros t' Ht'. apply list_elem_of_singleton in Ht'. by subst.
      * apply NoDup_singleton.
  - destruct (IH s1) as (new & Hl & Hsub & Hnew & Hnd).
    assert (Hback : forall k, conn s1 !! k = None -> conn s !! k = None).
    { intros k Hk. destruct (conn s !! k) as [r|] eqn:E; [|done].
      apply Hkeep in E. congruence. }
    destruct Hb as [[Hlk _]|(Hlk & Hnone & Hrow)].
    + exists new. rewrite Hl, Hlk.
      repeat split; [by apply sublist_cons|eauto|done].
    + exists (t :: new). rewrite Hl, Hlk, <- app_assoc.
      repeat split; [by apply sublist_skip| |].
      * intros t' Ht'. inv Ht'; eauto.
      * simpl. constructor; [|done].
        intros Hin. apply list_elem_of_fmap in Hin as (t' & Hid & Hin).
        apply Hnew in Hin. rewrite <- Hid in Hin.
        destruct (Hrow eq_refl) as [r Hr]. congruence.
Qed.

(** X3.  The lookups of a run are tracks of the list, in its order, that
    had no row when the run started, and no track identifier is looked up
    twice, also when the list names it several times. *)
Theorem scan_lookups_fresh (tracks : list Track.t) (progress : bool)
    (conn0 : gmap (list N) row) (w : World) :
  let s := snd (run tracks progress conn0 w) in
  sublist (lookups s) tracks
  /\ (forall t, t ∈ lookups s -> conn0 !! Track.id t = None)
  /\ NoDup (map Track.id (lookups s)).
Proof.
  intros s. subst s.
  destruct (run_final tracks progress conn0 w)
    as (_ & _ & _ & _ & _ & -> & _).
  destruct (scan_loop_lookups progress tracks (scan_init conn0 w))
    as (new & -> & Hsub & Hnew & Hnd).
  done.
Qed.

(** A row of the table after one iteration was there before, or is the row
    of the track, which was looked up. *)
Lemma scan_body_rows (progress : bool) (t : Track.t) (s : scan World)
    (k : list N) (r : row) :
  conn (snd (body progress t s)) !! k = Some r ->
  conn s !! k = Some r
  \/ (conn s !! k = None /\ k = Track.id t
      /\ track_name r = Track.name t /\ artist r = Track.artist t
      /\ t ∈ lookups (snd (body progress t s))).
Proof.
  unfold scan_body.
  destruct (get_cached_bpm (conn s) (Track.id t)); [by left|].
  destruct (conn s !! Track.id t) eqn:Hrow; [by left|].
  destruct (lookup_of t (world s)) as [[[q| |]|e] w']; simpl;
    try (by left); unfold set_cached_bpm; intros Hk;
    (destruct (decide (Track.id t = k)) as [<-|Hne];
      [rewrite lookup_insert_eq in Hk; injection Hk as <-;
       right; repeat split; [done..|apply elem_of_app; right; by left]
      |rewrite lookup_insert_ne in Hk by done; by left]).
Qed.

Lemma scan_loop_rows (progress : bool) (tracks : list Track.t)
    (s : scan World) (k : list N) (r : row) :
  conn (snd (loop progress tracks s)) !! k = Some r ->
  conn s !! k = Some r
  \/ (conn s !! k = None
      /\ exists t, t ∈ lookups (snd (loop progress tracks s))
                   /\ Track.id t = k
                   /\ track_name r = Track.name t
                   /\ artist r = Track.artist t).
Proof.
  revert s. induction tracks as [|t tracks IH]; intros s; [by left|].
  rewrite scan_loop_cons.
  pose proof (scan_body_rows progress t s k r) as Hb.
  pose proof (scan_body_keeps progress t s) as Hkeep.
  destruct (body progress t s) as [[e|] s1]; simpl in *.
  - intros Hk. destruct (Hb Hk) as [?|(? & ? & ? & ? & ?)]; [by left|].
    right. split; [done|]. by exists t.
  - intros Hk.
    destruct (scan_loop_lookups progress tracks s1) as (new & Hl & _).
    destruct (IH s1 Hk) as [Hold|(Hnone & t' & Hin & Hid & Hn & Ha)].
    + destruct (Hb Hold) as [?|(? & ? & ? & ? & Hin)]; [by left|].
      right. split; [done|]. exists t. rewrite Hl.
      repeat split; [|done..]. apply elem_of_app. by left.
    + right. split.
      * destruct (conn s !! k) as [r0|] eqn:E; [|done].
        apply Hkeep in E. congruence.
      * by exists t'.
Qed.

(** The lookups of a run are among its tracks. *)
Lemma scan_lookups_sub (tracks : list Track.t) (progress : bool)
    (conn0 : gmap (list N) row) (w : World) :
  sublist (lookups (snd (run tracks progress conn0 w))) tracks.
Proof.
  destruct (run_final tracks progress conn0 w)
    as (_ & _ & _ & _ & _ & -> & _).
  by destruct (scan_loop_lookups progress tracks (scan_init conn0 w))
    as (new & -> & Hsub & _).
Qed.

(** X4.  Every row of the table after a run is a row that the table held
    before, unchanged, or a new row for a track that this run looked up,
    under the identifier of the track and with its name and artist. *)
Theorem scan_new_rows (tracks : list Track.t) (progress : bool)
    (conn0 : gmap (list N) row) (w : World) (k : list N) (r : row) :
  let s := snd (run tracks progress conn0 w) in
  conn s !! k = Some r ->
  conn0 !! k = Some r
  \/ (conn0 !! k = None
      /\ exists t, t ∈ lookups s /\ t ∈ tracks /\ Track.id t = k
                   /\ track_name r = Track.name t
                   /\ artist r = Track.artist t).
Proof.
  intros s. subst s.
  pose proof (scan_lookups_sub tracks progress conn0 w) as Hsub.
  destruct (run_final tracks progress conn0 w)
    as (-> & _ & _ & _ & _ & Hl & _).
  rewrite Hl in *. intros Hk.
  apply scan_loop_rows in Hk as [?|(? & t & Hin & ? & ? & ?)]; [by left|].
  right. split; [done|]. exists t. repeat split; try done.
  by eapply sublist_subseteq.
Qed.

(** X5.  An exception that leaves the lookup of a track leaves the run: the
    rows written for the tracks before it stay in the table, nothing is
    written for it or for the tracks after it, and the report of the songs
    without a tempo is not printed. *)
Theorem lookup_exception_propagates (progress : bool)
    (pre post : list Track.t) (t : Track.t) (conn0 : gmap (list N) row)
    (w : World) (st1 : stats) (e : pyexn) :
  let before := run pre progress conn0 w in
  fst before = Returned st1 ->
  rate_limited st1 = false ->
  conn (snd before) !! Track.id t = None ->
  fst (lookup_of t (world (snd before))) = Raised e ->
  let aborted := run (pre ++ t :: post) progress conn0 w in
  fst aborted = Raised e
  /\ conn (snd aborted) = conn (snd before)
  /\ lookups (snd aborted) = lookups (snd before) ++ [t]
  /\ sleeps (snd aborted) = sleeps (snd before)
  /\ echoed (snd before)
     = echoed (snd aborted) ++ missing_report (missing_songs (snd before)).
Proof.
  intros before Hret Hrl Hrow Hlk aborted.
  destruct (run_not_rate_limited http_get float_of_str api_key pre progress
              conn0 w st1 Hret Hrl)
    as (Hex & Hst & Hconn & Hworld & Hlookups & Hsleeps & Hmiss).
  fold before in Hconn, Hworld, Hlookups, Hsleeps, Hmiss.
  assert (Hecho : echoed before.2
            = echoed (loop progress pre (scan_init conn0 w)).2
              ++ missing_report (missing_songs before.2)).
  { rewrite Hmiss. subst before. unfold scan_for_bpms.
    destruct (loop progress pre (scan_init conn0 w)) as [x sa].
    simpl in Hex. by subst x. }
  rewrite Hecho, Hconn, Hlookups, Hsleeps. rewrite Hconn in Hrow.
  rewrite Hworld in Hlk. clear Hecho Hconn Hlookups Hsleeps Hmiss Hworld.
  subst aborted. unfold scan_for_bpms.
  rewrite scan_loop_app.
  destruct (loop progress pre (scan_init conn0 w)) as [x sa] eqn:Hl.
  simpl in Hex, Hrow, Hlk |- *. subst x.
  cbn [scan_loop]. unfold get_cached_bpm. rewrite Hrow.
  destruct (lookup_of t (world sa)) as [r w2]. simpl in Hlk. subst r.
  done.
Qed.

(** X6.  When the tracks at the head of the list all have a row and the
    next one has none, the run makes its first lookup for that one: a run
    resumed after a halt starts again at the track where it halted, and
    looks up after it only tracks that follow it. *)
Theorem scan_resumes_at_first_miss (progress : bool)
    (pre post : list Track.t) (t : Track.t) (conn1 : gmap (list N) row)
    (w : World) :
  (forall p, p ∈ pre -> is_Some (conn1 !! Track.id p)) ->
  conn1 !! Track.id t = None ->
  exists later : list Track.t,
    lookups (snd (run (pre ++ t :: post) progress conn1 w)) = t :: later
    /\ sublist later post.
Proof.
  intros Hrows Hnone.
  destruct (run_final (pre ++ t :: post) progress conn1 w)
    as (_ & _ & _ & _ & _ & -> & _).
  rewrite scan_loop_app.
  rewrite (scan_loop_cached_only http_get float_of_str api_key) by done.
  rewrite scan_loop_cons.
  set (s := Scan _ _ _ _ _ _ _ _).
  pose proof (scan_body_lookups progress t s) as Hb.
  assert (Hs : conn s !! Track.id t = None /\ lookups s = []) by done.
  destruct Hs as [Hsrow Hslk].
  assert (Hget : get_cached_bpm (conn s) (Track.id t) = None)
    by (unfold get_cached_bpm; by rewrite Hsrow).
  assert (Hlook : lookups (snd (body progress t s)) = [t]).
  { unfold scan_body. rewrite Hget, Hsrow.
    by destruct (lookup_of t (world s)) as [[[q| |]|e] w']. }
  destruct (body progress t s) as [[e|] s1]; simpl in *.
  - exists []. split; [done|]. apply sublist_nil_l.
  - destruct (scan_loop_lookups progress post s1) as (new & -> & Hsub & _).
    exists new. by rewrite Hlook.
Qed.

End ScannerRuns.


(** ** More on the BPM store *)

Lemma NoDup_omap_inj {A B} (f : A -> option B) (l : list A) :
  (forall x y z, f x = Some z -> f y = Some z -> x = y) ->
  NoDup l -> NoDup (omap f l).
Proof.
  intros Hinj. induction 1 as [|x l Hx Hnd IH]; csimpl; [constructor|].
  destruct (f x) as [z|] eqn:Hz; [|done].
  constructor; [|done].
  rewrite list_elem_of_omap. intros (y & Hy & Hfy).
  by rewrite (Hinj x y z Hz Hfy) in Hx.
Qed.

Lemma length_omap_le {A B} (f : A -> option B) (l : list A) :
  (length (omap f l) <= length l)%nat.
Proof.
  induction l as [|x l IH]; csimpl; [done|].
  destruct (f x); csimpl; lia.
Qed.

(** X8.  [get_all_cached] lists exactly the rows with a tempo, each once:
    a row with a null tempo is left out, and so is every track that has no
    row. *)
Theorem get_all_cached_known (c : gmap (list N) row)
    (k n a : list N) (q : Q) :
  ((k, n, a, q) ∈ get_all_cached c <-> c !! k = Some (Row n a (Some q)))
  /\ NoDup (get_all_cached c)
  /\ (length (get_all_cached c) <= size c)%nat.
Proof.
  unfold get_all_cached. split; [|split].
  - rewrite list_elem_of_omap. split.
    + intros ([k0 [n0 a0 b0]] & Hin & Heq).
      apply elem_of_map_to_list in Hin. simpl in Heq.
      destruct b0; [|done]. by injection Heq as -> -> -> ->.
    + intros Hk. exists (k, Row n a (Some q)). split; [|done].
      by apply elem_of_map_to_list.
  - apply NoDup_omap_inj; [|apply NoDup_map_to_list].
    intros [k1 [n1 a1 b1]] [k2 [n2 a2 b2]] y H1 H2. simpl in *.
    destruct b1, b2; try done. congruence.
  - rewrite <- length_map_to_list. apply length_omap_le.
Qed.

(** ** More on the tempo lookup client *)

(** The search gives an identifier exactly on a decoded object whose result
    list starts with an object that holds a true-valued identifier. *)
Lemma search_phase_val (resp : response) (song_id : json) :
  search_phase resp = Val song_id
  <-> exists data first rest,
        resp = ok (JObj data)
        /\ obj_get (codepoints "search") data
           = Some (JArr (JObj first :: rest))
        /\ obj_get (codepoints "id") first = Some song_id
        /\ truthy song_id = true.
Proof.
  split.
  - unfold search_phase, ok. intros H.
    destruct resp as [|status body]; [done|].
    destruct (status =? 429) eqn:E1; [done|].
    destruct (status =? 200) eqn:E2; [|done].
    apply Z.eqb_eq in E2 as ->. simpl in H.
    destruct body as [[| | | | |data]| |]; try done. simpl in H.
    destruct (obj_get (codepoints "search") data) as [results|] eqn:Hs;
      [|done].
    destruct (truthy results) eqn:Ht; [|done]. simpl in H.
    destruct results as [| | | [|c s] | [|first rest] | ms]; try done.
    destruct first as [| | | | |first]; try done. simpl in H.
    destruct (obj_get (codepoints "id") first) as [i|] eqn:Hi; [|done].
    destruct (truthy i) eqn:Hti; [|done]. simpl in H.
    injection H as ->. eauto 10.
  - intros (data & first & rest & -> & Hs & Hi & Ht).
    unfold search_phase, ok. simpl. rewrite Hs. simpl. rewrite Hi.
    simpl. by rewrite Ht.
Qed.



(** The search phase returns early with ["RATE_LIMITED"], on a 429, or
    with [None]. *)
Lemma search_phase_return (resp : response) (r : bpm_result) :
  search_phase resp = Return r ->
  (r = RATE_LIMITED /\ exists body, resp = Response 429 body)
  \/ r = NoneResult.
Proof.
  unfold search_phase. intros H.
  destruct resp as [|status body]; [done|].
  destruct (status =? 429) eqn:E1.
  { apply Z.eqb_eq in E1 as ->. injection H as <-. left. eauto. }
  destruct (status =? 200); [|injection H as <-; by right]. simpl in H.
  destruct body as [[| | | | |data]| |]; try done. simpl in H.
  destruct (obj_get (codepoints "search") data) as [results|];
    [|injection H as <-; by right].
  destruct (truthy results) eqn:Ht; [|injection H as <-; by right].
  simpl in H.
  destruct results as [| | | [|c s] | [|first rest] | ms]; try done.
  destruct first as [| | | | |first]; try done. simpl in H.
  destruct (obj_get (codepoints "id") first) as [i|];
    [|injection H as <-; by right].
  destruct (truthy i); [done|injection H as <-; by right].
Qed.

(** The detail phase always ends the function. *)
Lemma detail_phase_not_val (float_of_str : list N -> option Q)
    (resp : response) (r : bpm_result) :
  detail_phase float_of_str resp <> Val r.
Proof.
  unfold detail_phase.
  destruct resp as [|status body]; [done|].
  destruct (status =? 429); [done|].
  destruct (status =? 200); [|done]. simpl.
  destruct body as [[| | | | |detail]| |]; try done. simpl.
  destruct (obj_get (codepoints "song") detail) as [song|]; [|done].
  destruct song as [| | | | |song]; try done. simpl.
  destruct (obj_get (codepoints "tempo") song) as [tempo|]; [|done].
  destruct (truthy tempo); [|done]. simpl.
  destruct tempo as [|b|q'|s|l|m]; simpl; try done.
  - by destruct (float_of_num q').
  - by destruct (float_of_str s).
Qed.

Section ServiceMore.

Context {World : Type}.
Variable http_get : World -> request -> response * World.
Variable float_of_str : list N -> option Q.


Lemma detail_phase_rate_limited (resp : response) :
  detail_phase float_of_str resp = Return RATE_LIMITED
  <-> exists body, resp = Response 429 body.
Proof.
  split.
  - unfold detail_phase. intros H.
    destruct resp as [|status body]; [done|].
    destruct (status =? 429) eqn:E1; [apply Z.eqb_eq in E1 as ->; eauto|].
    destruct (status =? 200); [|done]. simpl in H.
    destruct body as [[| | | | |detail]| |]; try done. simpl in H.
    destruct (obj_get (codepoints "song") detail) as [song|]; [|done].
    destruct song as [| | | | |song]; try done. simpl in H.
    destruct (obj_get (codepoints "tempo") song) as [tempo|]; [|done].
    destruct (truthy tempo); [|done]. simpl in H.
    destruct tempo as [|b|q|s|l|m]; simpl in H; try done.
    + by destruct (float_of_num q).
    + by destruct (float_of_str s).
  - by intros [body ->].
Qed.

Lemma detail_phase_tempo (resp : response) (q : Q) :
  detail_phase float_of_str resp = Return (Tempo q) ->
  exists detail song tempo,
    resp = ok (JObj detail)
    /\ obj_get (codepoints "song") detail = Some (JObj song)
    /\ obj_get (codepoints "tempo") song = Some tempo
    /\ truthy tempo = true
    /\ ((exists n, tempo = JNum n /\ float_of_num n = Some q)
        \/ (tempo = JBool true /\ q = 1%Q)
        \/ exists s, tempo = JStr s /\ float_of_str s = Some q).
Proof.
  unfold detail_phase, ok. intros H.
  destruct resp as [|status body]; [done|].
  destruct (status =? 429) eqn:E1; [done|].
  destruct (status =? 200) eqn:E2; [|done].
  apply Z.eqb_eq in E2 as ->. simpl in H.
  destruct body as [[| | | | |detail]| |]; try done. simpl in H.
  destruct (obj_get (codepoints "song") detail) as [song|] eqn:Hs; [|done].
  destruct song as [| | | | |song]; try done. simpl in H.
  destruct (obj_get (codepoints "tempo") song) as [tempo|] eqn:Ht; [|done].
  destruct (truthy tempo) eqn:Htr; [|done]. simpl in H.
  exists detail, song, tempo. repeat (split; [done|]).
  destruct tempo as [|b|q'|s|l|m]; simpl in H; try done.
  - injection H as <-. simpl in Htr. subst b. right. by left.
  - destruct (float_of_num q') as [f|] eqn:Hf; [|done].
    injection H as <-. left. eauto.
  - destruct (float_of_str s) as [q'|] eqn:Hf; [|done].
    injection H as <-. right. right. eauto.
Qed.

(** X10.  [search_bpm] answers ["RATE_LIMITED"] exactly when the service
    answered 429, to the search or, after a search that gave an
    identifier, to the detail request.  It answers a tempo only after two
    responses with status 200, and the tempo is then the number (converted
    to a double), the converted string or the boolean of the tempo field of
    the song. *)
Theorem search_bpm_rate_limited_iff (track_name artist api_key : list N)
    (w : World) :
  let query := normalize_artist artist ++ [32%N]
                 ++ normalize_track_name track_name in
  let resp := fst (http_get w (SearchGet api_key query)) in
  let detail_resp song_id :=
    fst (http_get (snd (http_get w (SearchGet api_key query)))
           (SongGet api_key song_id)) in
  let result :=
    fst (search_bpm http_get float_of_str track_name artist api_key w) in
  (result = Returned RATE_LIMITED
   <-> (exists body, resp = Response 429 body)
       \/ (exists song_id body,
             search_phase resp = Val song_id
             /\ detail_resp song_id = Response 429 body))
  /\ (forall q, result = Returned (Tempo q) ->
        exists song_id detail song tempo,
          search_phase resp = Val song_id
          /\ detail_resp song_id = ok (JObj detail)
          /\ obj_get (codepoints "song") detail = Some (JObj song)
          /\ obj_get (codepoints "tempo") song = Some tempo
          /\ truthy tempo = true
          /\ ((exists n, tempo = JNum n /\ float_of_num n = Some q)
              \/ (tempo = JBool true /\ q = 1%Q)
              \/ exists s, tempo = JStr s /\ float_of_str s = Some q)).
Proof.
  intros query resp detail_resp result.
  assert (Hres : result = match search_phase resp with
    | Val song_id => handle (detail_phase float_of_str (detail_resp song_id))
    | Return r => Returned r
    | Raise e => handle (Raise e)
    end) by apply search_bpm_phases.
  clearbody result. subst result. split; [split|].
  - destruct (search_phase resp) as [song_id|r|e] eqn:Hs.
    + intros H. right. exists song_id.
      destruct (detail_phase float_of_str (detail_resp song_id))
        as [r|r|e] eqn:Hd; simpl in H.
      * by apply detail_phase_not_val in Hd.
      * injection H as ->. apply detail_phase_rate_limited in Hd as [b Hb].
        eauto.
      * destruct e; done.
    + intros [= ->]. left.
      destruct (search_phase_return resp _ Hs) as [[_ [body Hb]]|?];
        [eauto|done].
    + destruct e; done.
  - intros [[body Hb]|(song_id & body & Hs & Hd)].
    + by rewrite Hb.
    + rewrite Hs. by rewrite Hd.
  - intros q. destruct (search_phase resp) as [song_id|r|e] eqn:Hs.
    + destruct (detail_phase float_of_str (detail_resp song_id))
        as [r|r|e] eqn:Hd; simpl.
      * by apply detail_phase_not_val in Hd.
      * intros [= ->].
        apply detail_phase_tempo in Hd
          as (detail & song & tempo & ? & ? & ? & ? & ?).
        exists song_id, detail, song, tempo. done.
      * destruct e; done.
    + intros [= ->].
      by destruct (search_phase_return resp _ Hs) as [[? _]|?].
    + destruct e; done.
Qed.

(** X11.  One call of [search_bpm] makes one request or two: first the
    search for the normalized artist, a space and the normalized name, and
    then, only when the search gave an identifier, the detail request for
    that identifier.  Logging the requests changes neither the result nor
    the state of the service. *)
Theorem search_bpm_requests (track_name artist api_key : list N)
    (w : World) (log : list request) :
  let query := normalize_artist artist ++ [32%N]
                 ++ normalize_track_name track_name in
  let resp := fst (http_get w (SearchGet api_key query)) in
  let r :=
    search_bpm (logged http_get) float_of_str track_name artist api_key
      (w, log) in
  snd (snd r)
  = log ++ match search_phase resp with
           | Val song_id =>
               [SearchGet api_key query; SongGet api_key song_id]
           | _ => [SearchGet api_key query]
           end
  /\ fst r = fst (search_bpm http_get float_of_str track_name artist
                    api_key w)
  /\ fst (snd r) = snd (search_bpm http_get float_of_str track_name artist
                          api_key w).
Proof.
  intros query resp r. subst r resp. unfold search_bpm, logged.
  fold query. simpl.
  destruct (http_get w (SearchGet api_key query)) as [resp w1]. simpl.
  destruct (search_phase resp) as [song_id|x|e]; simpl; [|done..].
  destruct (http_get w1 (SongGet api_key song_id)) as [resp2 w2]. simpl.
  by rewrite <- app_assoc.
Qed.

End ServiceMore.

(** ** More on the name normalizer *)

(** Whatever a pattern matches, the continuation is given a suffix of the
    text. *)
Lemma rmatch_suffix (r : regex) (s : list N)
    (k : list N -> option (list N)) (e : list N) :
  rmatch r s k = Some e ->
  exists s', s' `suffix_of` s /\ k s' = Some e.
Proof.
  revert s k e.
  induction r as [p|r1 IH1 r2 IH2|r1 IH1 r2 IH2|r IH|r IH| |];
    intros s k e H; simpl in H.
  - destruct s as [|c s]; [done|]. destruct (p c); [|done].
    exists s. split; [|done]. by apply suffix_cons_r.
  - apply IH1 in H as (s1 & Hs1 & H).
    apply IH2 in H as (s2 & Hs2 & H).
    exists s2. split; [|done]. by etrans.
  - destruct (rmatch r1 s k) as [e1|] eqn:E1.
    + injection H as <-. by apply IH1 in E1.
    + by apply IH2 in H.
  - revert H. generalize (length s) at 1. intros fuel. revert s.
    induction fuel as [|fuel IHf]; intros s H.
    + by exists s.
    + destruct (rmatch r s _) as [e1|] eqn:E1.
      * injection H as <-. apply IH in E1 as (s1 & Hs1 & E1).
        destruct (length s1 <? length s)%nat; [|done].
        apply IHf in E1 as (s2 & Hs2 & E1).
        exists s2. split; [|done]. by etrans.
      * by exists s.
  - destruct (rmatch r s k) as [e1|] eqn:E1.
    + injection H as <-. by apply IH in E1.
    + by exists s.
  - by exists s.
  - exists s. split; [done|]. revert H. by repeat case_match.
Qed.

Lemma suffix_is_sublist (s' s : list N) : s' `suffix_of` s -> sublist s' s.
Proof. intros [k ->]. by apply sublist_inserts_l. Qed.

(** A substitution by the empty string only deletes. *)
Lemma sub_empty_fuel_sublist (fuel : nat) (r : regex) (s : list N) :
  sublist (sub_empty_fuel fuel r s) s.
Proof.
  revert s. induction fuel as [|fuel IH]; intros s; simpl; [done|].
  destruct s as [|c s]; [done|].
  destruct (rmatch r (c :: s) Some) as [rest|] eqn:E.
  - destruct (length rest <? length (c :: s))%nat.
    + apply rmatch_suffix in E as (s' & Hs' & [= ->]).
      etrans; [apply IH|]. by apply suffix_is_sublist.
    + by apply sublist_skip.
  - by apply sublist_skip.
Qed.

Lemma sub_empty_sublist (r : regex) (s : list N) : sublist (sub_empty r s) s.
Proof. apply sub_empty_fuel_sublist. Qed.

Lemma lstrip_sublist (s : list N) : sublist (lstrip s) s.
Proof.
  destruct (lstrip_suffix s) as [p Hp]. rewrite Hp at 2.
  by apply sublist_inserts_l.
Qed.

Lemma strip_sublist (s : list N) : sublist (strip s) s.
Proof.
  unfold strip. etrans; [|apply lstrip_sublist].
  destruct (rstrip_prefix (lstrip s)) as [q Hq]. rewrite Hq at 2.
  by apply sublist_inserts_r.
Qed.

Lemma split_first_sublist (sep : N) (s : list N) :
  sublist (split_first sep s) s.
Proof.
  induction s as [|c s IH]; simpl; [done|].
  destruct (c =? sep)%N; [apply sublist_nil_l|by apply sublist_skip].
Qed.

(** X12.  The normalizers only delete: the cleaned track name and the
    cleaned artist are the characters of the input, in their order, with
    some left out; nothing is inserted, replaced or moved. *)
Theorem normalize_only_deletes (name artist : list N) :
  sublist (normalize_track_name name) name
  /\ sublist (normalize_artist artist) artist
  /\ (length (normalize_track_name name) <= length name)%nat
  /\ (length (normalize_artist artist) <= length artist)%nat.
Proof.
  assert (H1 : sublist (normalize_track_name name) name).
  { unfold normalize_track_name.
    etrans; [apply strip_sublist|].
    etrans; [apply sub_empty_sublist|].
    etrans; [apply sub_empty_sublist|].
    etrans; [apply sub_empty_sublist|]. apply sub_empty_sublist. }
  assert (H2 : sublist (normalize_artist artist) artist).
  { unfold normalize_artist.
    etrans; [apply strip_sublist|]. apply split_first_sublist. }
  repeat split; [done..| |]; by apply sublist_length.
Qed.

Lemma rmatch_ws_class (p : N -> bool) (r : regex) (s : list N)
    (k : list N -> option (list N)) (e : list N) :
  rmatch (RSeq ws (RSeq (RClass p) r)) s k = Some e ->
  exists c, c ∈ s /\ p c = true.
Proof.
  intros H. change (rmatch ws s (fun s' => rmatch (RSeq (RClass p) r) s' k)
                    = Some e) in H.
  apply rmatch_suffix in H as (s' & [pre ->] & H). simpl in H.
  destruct s' as [|c s']; [done|]. destruct (p c) eqn:Hp; [|done].
  exists c. split; [|done]. apply elem_of_app. right. by left.
Qed.

Lemma rmatch_ws_dash (r : regex) (s : list N)
    (k : list N -> option (list N)) (e : list N) :
  rmatch (RSeq ws (RSeq dash r)) s k = Some e ->
  45%N ∈ s \/ 8211%N ∈ s.
Proof.
  intros H. change (rmatch ws s (fun s' => rmatch (RSeq dash r) s' k)
                    = Some e) in H.
  apply rmatch_suffix in H as (s' & [pre ->] & H).
  unfold dash, lit in H.
  destruct s' as [|c s']; cbn [rmatch] in H; [done|].
  destruct (45 =? c)%N eqn:E1.
  - apply N.eqb_eq in E1 as <-. left. apply elem_of_app. right. by left.
  - destruct (8211 =? c)%N eqn:E2; [|done].
    apply N.eqb_eq in E2 as <-. right. apply elem_of_app. right. by left.
Qed.

(** Where the pattern matches at no position, the substitution changes
    nothing. *)
Lemma sub_empty_fuel_id (fuel : nat) (r : regex) (s : list N) :
  (forall s', s' `suffix_of` s -> rmatch r s' Some = None) ->
  sub_empty_fuel fuel r s = s.
Proof.
  revert s. induction fuel as [|fuel IH]; intros s Hno; simpl; [done|].
  destruct s as [|c s]; [done|].
  rewrite (Hno (c :: s)) by done. f_equal. apply IH.
  intros s' Hs'. apply Hno. by apply suffix_cons_r.
Qed.

Lemma lstrip_id (s : list N) :
  (forall c, head s = Some c -> isspace c = false) -> lstrip s = s.
Proof.
  destruct s as [|c s]; simpl; [done|]. intros H. by rewrite (H c).
Qed.

Lemma strip_id (s : list N) : trimmed s -> strip s = s.
Proof.
  intros [Hh Hl]. unfold strip, rstrip. rewrite (lstrip_id s Hh).
  rewrite lstrip_id; [apply reverse_involutive|].
  intros c. rewrite head_reverse. apply Hl.
Qed.

(** X13.  A track name that is already clean comes back as it is: one
    without parenthesis, square bracket, hyphen or en dash, and without
    white space at its ends, is not changed by [normalize_track_name]. *)
Theorem clean_name_unchanged (name : list N) :
  (forall c, c ∈ name ->
             c <> 40%N /\ c <> 91%N /\ c <> 45%N /\ c <> 8211%N) ->
  trimmed name ->
  normalize_track_name name = name.
Proof.
  intros Hclean Htrim. unfold normalize_track_name, sub_empty.
  assert (Hno : forall (s' : list N) c, s' `suffix_of` name -> c ∈ s' ->
                  c <> 40%N /\ c <> 91%N /\ c <> 45%N /\ c <> 8211%N).
  { intros s' c [pre ->] Hc. apply Hclean, elem_of_app. by right. }
  rewrite (sub_empty_fuel_id _ re_paren name).
  2:{ intros s' Hs'. destruct (rmatch re_paren s' Some) as [e|] eqn:E; [|done].
      apply rmatch_ws_class in E as (c & Hc & Hp).
      apply N.eqb_eq in Hp as <-. by destruct (Hno s' 40%N Hs' Hc). }
  rewrite (sub_empty_fuel_id _ re_bracket name).
  2:{ intros s' Hs'. destruct (rmatch re_bracket s' Some) as [e|] eqn:E;
        [|done].
      apply rmatch_ws_class in E as (c & Hc & Hp).
      apply N.eqb_eq in Hp as <-.
      by destruct (Hno s' 91%N Hs' Hc) as (_ & ? & _). }
  rewrite (sub_empty_fuel_id _ re_feat name).
  2:{ intros s' Hs'. destruct (rmatch re_feat s' Some) as [e|] eqn:E; [|done].
      apply rmatch_ws_dash in E as [Hc|Hc];
        by destruct (Hno s' _ Hs' Hc) as (_ & _ & ? & ?). }
  rewrite (sub_empty_fuel_id _ re_suffix name).
  2:{ intros s' Hs'. destruct (rmatch re_suffix s' Some) as [e|] eqn:E;
        [|done].
      apply rmatch_ws_dash in E as [Hc|Hc];
        by destruct (Hno s' _ Hs' Hc) as (_ & _ & ? & ?). }
  by apply strip_id.
Qed.

Lemma clean_name_unchanged_witness :
  normalize_track_name (codepoints "Song 2") = codepoints "Song 2".
Proof.
  apply (clean_name_unchanged (codepoints "Song 2")).
  - intros c Hc. vm_compute in Hc.
    repeat (apply elem_of_cons in Hc as [->|Hc]; [done|]).
    by apply elem_of_nil in Hc.
  - split; intros c [= <-]; reflexivity.
Defined.

(** [\s*] and [[^c]*]: the star of a class takes a character of the class
    and goes on, and comes back to the continuation when that fails. *)
Lemma rmatch_star_class_cons (p : N -> bool) (x : N) (s : list N)
    (k : list N -> option (list N)) :
  rmatch (RStar (RClass p)) (x :: s) k
  = if p x then
      match rmatch (RStar (RClass p)) s k with
      | Some e => Some e
      | None => k (x :: s)
      end
    else k (x :: s).
Proof.
  cbn [rmatch length]. destruct (p x); [|done].
  by rewrite (proj2 (Nat.ltb_lt (length s) (S (length s)))) by lia.
Qed.

Lemma rmatch_star_class_greedy (p : N -> bool) (a b : list N) (c : N)
    (k : list N -> option (list N)) (e : list N) :
  (forall x, x ∈ a -> p x = true) -> p c = false ->
  k (c :: b) = Some e ->
  rmatch (RStar (RClass p)) (a ++ c :: b) k = Some e.
Proof.
  intros Ha Hc Hk. induction a as [|x a IH]; simpl app.
  - by rewrite rmatch_star_class_cons, Hc.
  - rewrite rmatch_star_class_cons, (Ha x) by (by left).
    rewrite IH; [done|]. intros y Hy. apply Ha. by right.
Qed.

(** At an opening character that has a closing one after it, the pattern
    of a group matches, up to the first closing character. *)
Lemma group_matches (opening closing : N) (s : list N) :
  isspace opening = false -> closing ∈ s ->
  exists rest,
    rmatch (RSeq ws (RSeq (lit opening)
              (RSeq (RStar (not_lit closing)) (lit closing))))
      (opening :: s) Some = Some rest
    /\ (length rest < length (opening :: s))%nat.
Proof.
  intros Hsp Hin.
  apply list_elem_of_split_l in Hin as (a & b & -> & Ha).
  exists b. split; [|simpl; rewrite length_app; simpl; lia].
  change (rmatch (RStar (RClass isspace)) (opening :: a ++ closing :: b)
            (fun s' => rmatch (RSeq (lit opening)
               (RSeq (RStar (not_lit closing)) (lit closing))) s' Some)
          = Some b).
  rewrite rmatch_star_class_cons, Hsp.
  cbn [rmatch lit]. rewrite N.eqb_refl.
  apply rmatch_star_class_greedy.
  - intros x Hx. apply negb_true_iff, N.eqb_neq. by intros <-.
  - by rewrite N.eqb_refl.
  - cbn [rmatch]. by rewrite N.eqb_refl.
Qed.

Lemma no_group_sublist (opening closing : N) (s s' : list N) :
  sublist s' s -> no_group opening closing s -> no_group opening closing s'.
Proof.
  intros Hsub Hs a b ->.
  apply sublist_app_l in Hsub as (a1 & a2 & -> & _ & Hsub).
  apply sublist_cons_l in Hsub as (k1 & k2 & -> & Hsub).
  intros Hc. apply (Hs (a1 ++ k1) k2); [by rewrite <- app_assoc|].
  by eapply sublist_subseteq.
Qed.

(** After the groups are deleted, none is left. *)
Lemma sub_empty_fuel_no_group (opening closing : N) (fuel : nat)
    (s : list N) :
  isspace opening = false -> (length s <= fuel)%nat ->
  no_group opening closing
    (sub_empty_fuel fuel
       (RSeq ws (RSeq (lit opening)
          (RSeq (RStar (not_lit closing)) (lit closing)))) s).
Proof.
  intros Hsp. revert s. induction fuel as [|fuel IH]; intros s Hlen.
  { destruct s; [|simpl in Hlen; lia]. intros [|? ?] b; done. }
  destruct s as [|c s]; [intros [|? ?] b; done|].
  cbn [sub_empty_fuel].
  set (r := RSeq ws _).
  assert (Hemit : (closing ∈ s -> opening <> c) ->
            no_group opening closing (c :: sub_empty_fuel fuel r s)).
  { assert (Hl : (length s <= fuel)%nat) by (simpl in Hlen; lia).
    intros Hne [|x a] b [= Hx Hb].
    - intros Hin. apply Hne; [|done]. rewrite <- Hb in Hin.
      eapply sublist_subseteq; [apply sub_empty_fuel_sublist|done].
    - exact (IH s Hl a b Hb). }
  destruct (rmatch r (c :: s) Some) as [rest|] eqn:E.
  - destruct (length rest <? length (c :: s))%nat eqn:Hlt.
    + apply IH. apply Nat.ltb_lt in Hlt. lia.
    + apply Hemit. intros Hin <-.
      destruct (group_matches opening closing s Hsp Hin) as (b & Hb & Hl).
      fold r in Hb. rewrite E in Hb. injection Hb as ->.
      apply Nat.ltb_ge in Hlt. lia.
  - apply Hemit. intros Hin <-.
    destruct (group_matches opening closing s Hsp Hin) as (b & Hb & Hl).
    fold r in Hb. congruence.
Qed.

(** X14.  No parenthetical and no bracketed group is left in a normalized
    track name: in the result no opening parenthesis has a closing one
    anywhere after it, and no opening square bracket a closing one. *)
Theorem normalized_name_has_no_group (name : list N) :
  no_group 40 41 (normalize_track_name name)
  /\ no_group 91 93 (normalize_track_name name).
Proof.
  unfold normalize_track_name. split.
  - eapply no_group_sublist;
      [|apply (sub_empty_fuel_no_group 40 41 (length name) name);
        [done|lia]].
    etrans; [apply strip_sublist|].
    etrans; [apply sub_empty_sublist|].
    etrans; [apply sub_empty_sublist|]. apply sub_empty_sublist.
  - eapply no_group_sublist;
      [|apply (sub_empty_fuel_no_group 91 93
                 (length (sub_empty re_paren name)) (sub_empty re_paren name));
        [done|lia]].
    etrans; [apply strip_sublist|].
    etrans; [apply sub_empty_sublist|]. apply sub_empty_sublist.
Qed.

Lemma split_first_no_sep (sep : N) (s : list N) : sep ∉ split_first sep s.
Proof.
  induction s as [|c s IH]; simpl; [apply not_elem_of_nil|].
  destruct (N.eqb_spec c sep); [apply not_elem_of_nil|].
  apply not_elem_of_cons. split; [done|apply IH].
Qed.

Lemma split_first_app (sep : N) (a b : list N) :
  sep ∉ a -> split_first sep (a ++ sep :: b) = a.
Proof.
  induction a as [|c a IH]; simpl; intros Ha.
  - by rewrite N.eqb_refl.
  - apply not_elem_of_cons in Ha as [Hne Ha].
    rewrite (proj2 (N.eqb_neq c sep)) by done. f_equal. by apply IH.
Qed.

Lemma split_first_whole (sep : N) (a : list N) :
  sep ∉ a -> split_first sep a = a.
Proof.
  induction a as [|c a IH]; simpl; intros Ha; [done|].
  apply not_elem_of_cons in Ha as [Hne Ha].
  rewrite (proj2 (N.eqb_neq c sep)) by done. f_equal. by apply IH.
Qed.

(** X15.  A normalized artist holds no comma.  On the artist of a library
    track, which is the names of its artists joined by a comma and a
    space, it is the first name, trimmed, as long as that name holds no
    comma itself; a first name with a comma is cut at its comma. *)
Theorem primary_artist (artist first : list N) (others : list (list N)) :
  (44%N ∉ normalize_artist artist)
  /\ (44%N ∉ first ->
      normalize_artist (join_artists (first :: others)) = strip first)
  /\ normalize_artist (first ++ 44%N :: artist) = normalize_artist first.
Proof.
  unfold normalize_artist. split; [|split].
  - intros Hin. apply (split_first_no_sep 44 artist).
    eapply sublist_subseteq; [apply strip_sublist|done].
  - intros Hf. unfold join_artists. destruct others as [|o others].
    + simpl. by rewrite split_first_whole.
    + change (join (codepoints ", ") (first :: o :: others))
        with (first ++ 44%N :: 32%N :: join (codepoints ", ") (o :: others)).
      by rewrite split_first_app.
  - f_equal. induction first as [|c f IH]; simpl.
    + done.
    + destruct (c =? 44)%N; [done|]. by f_equal.
Qed.

Lemma primary_artist_witness :
  normalize_artist
    (join_artists [codepoints "Queen "; codepoints "David Bowie"])
  = strip (codepoints "Queen ").
Proof.
  refine (proj1 (proj2 (primary_artist [] (codepoints "Queen ")
                          [codepoints "David Bowie"])) _).
  apply (bool_decide_unpack _). vm_compute. exact I.
Defined.

(** ** Removal rules of the name normalizer *)

Lemma suffix_app_cases {A} (s' a b : list A) :
  s' `suffix_of` a ++ b ->
  (exists a2, a2 <> [] /\ a2 `suffix_of` a /\ s' = a2 ++ b)
  \/ s' `suffix_of` b.
Proof.
  induction a as [|x a IH]; simpl; intros H; [by right|].
  destruct H as [[|y pre] Hpre].
  - left. exists (x :: a). split; [done|]. split; [done|]. symmetry. exact Hpre.
  - injection Hpre as <- Hpre.
    assert (H : s' `suffix_of` a ++ b) by (by exists pre).
    destruct (IH H) as [(a2 & Hne & Hsuf & ->)|Hb]; [|by right].
    left. exists a2. split; [done|]. split; [|done]. by apply suffix_cons_r.
Qed.

Lemma sub_empty_fuel_nil (fuel : nat) (r : regex) :
  sub_empty_fuel fuel r [] = [].
Proof. by destruct fuel. Qed.

(** The scan passes the positions where the pattern does not match. *)
Lemma sub_empty_fuel_skip (fuel : nat) (r : regex) (base s : list N) :
  (length base <= fuel)%nat ->
  (forall b2, b2 <> [] -> b2 `suffix_of` base ->
     rmatch r (b2 ++ s) Some = None) ->
  sub_empty_fuel fuel r (base ++ s)
  = base ++ sub_empty_fuel (fuel - length base) r s.
Proof.
  revert fuel. induction base as [|c base IH]; intros fuel Hlen Hno.
  - simpl. by rewrite Nat.sub_0_r.
  - destruct fuel as [|fuel]; [simpl in Hlen; lia|].
    cbn [app sub_empty_fuel length Nat.sub].
    pose proof (Hno (c :: base)) as Hc. cbn [app] in Hc.
    rewrite Hc by done. f_equal.
    apply IH; [simpl in Hlen; lia|].
    intros b2 Hne Hsuf. apply Hno; [done|]. by apply suffix_cons_r.
Qed.

(** At a match, the scan goes on after it. *)
Lemma sub_empty_fuel_hit (fuel : nat) (r : regex) (s rest : list N) :
  rmatch r s Some = Some rest ->
  (length rest < length s)%nat -> (length s <= fuel)%nat ->
  sub_empty_fuel fuel r s = sub_empty_fuel (fuel - 1) r rest.
Proof.
  intros Hm Hlt Hlen.
  destruct fuel as [|fuel]; [lia|].
  destruct s as [|c s]; [simpl in Hlt; lia|].
  cbn [sub_empty_fuel]. rewrite Hm.
  rewrite (proj2 (Nat.ltb_lt _ _) Hlt). by rewrite Nat.sub_1_r.
Qed.

(** White space followed by something that no character of [base] starts:
    no match begins inside [base], when [base] does not end in white
    space. *)
Lemma ws_then_fails (base s : list N) (k : list N -> option (list N)) :
  (forall c t, c ∈ base -> k (c :: t) = None) ->
  (forall c, last base = Some c -> isspace c = false) ->
  forall b2, b2 <> [] -> b2 `suffix_of` base -> rmatch ws (b2 ++ s) k = None.
Proof.
  intros Hk Hlast b2. induction b2 as [|x b2 IH]; intros Hne Hsuf; [done|].
  assert (Hx : x ∈ base).
  { destruct Hsuf as [pre ->]. apply elem_of_app. right. by left. }
  unfold ws. cbn [app]. rewrite rmatch_star_class_cons.
  rewrite (Hk x _ Hx). destruct (isspace x) eqn:Esp; [|done].
  destruct b2 as [|y b2].
  - destruct Hsuf as [pre ->]. rewrite last_snoc in Hlast.
    by rewrite (Hlast x eq_refl) in Esp.
  - fold ws. rewrite IH; [done..|].
    destruct Hsuf as [pre ->]. exists (pre ++ [x]). by rewrite <- app_assoc.
Qed.

(** White space before a character that is none: the continuation is
    given the character, after some of the white space. *)
Lemma ws_then_first (w : list N) (c : N) (t : list N)
    (k : list N -> option (list N)) (e : list N) :
  blank w -> isspace c = false ->
  rmatch ws (w ++ c :: t) k = Some e ->
  exists w', w' `suffix_of` w /\ k (w' ++ c :: t) = Some e.
Proof.
  intros Hw Hc. unfold ws. induction w as [|x w IH]; cbn [app].
  - rewrite rmatch_star_class_cons, Hc. intros H. by exists [].
  - rewrite rmatch_star_class_cons, (Hw x) by (by left).
    destruct (rmatch _ (w ++ c :: t) k) as [e'|] eqn:E.
    + intros [= ->]. destruct IH as (w' & Hsuf & Hk); [|done|].
      { intros y Hy. apply Hw. by right. }
      exists w'. split; [by apply suffix_cons_r|done].
    + intros H. by exists (x :: w).
Qed.

(** A star takes characters of its class as long as the rest succeeds. *)
Lemma star_class_some (p : N -> bool) (a s : list N)
    (k : list N -> option (list N)) :
  (forall x, x ∈ a -> p x = true) -> is_Some (k s) ->
  is_Some (rmatch (RStar (RClass p)) (a ++ s) k).
Proof.
  intros Ha Hk. induction a as [|x a IH]; cbn [app].
  - destruct s as [|y s]; [done|].
    rewrite rmatch_star_class_cons. destruct (p y); [|done].
    by destruct (rmatch _ s k).
  - rewrite rmatch_star_class_cons, (Ha x) by (by left).
    destruct IH as [e He]; [intros y Hy; apply Ha; by right|].
    by rewrite He.
Qed.

Lemma alt_some_l (a b : regex) (s : list N) (k : list N -> option (list N)) :
  is_Some (rmatch a s k) -> is_Some (rmatch (RAlt a b) s k).
Proof. intros [e He]. simpl. by rewrite He. Qed.

Lemma alt_some_r (a b : regex) (s : list N) (k : list N -> option (list N)) :
  is_Some (rmatch b s k) -> is_Some (rmatch (RAlt a b) s k).
Proof. intros Hb. simpl. by destruct (rmatch a s k). Qed.

Lemma opt_some (r : regex) (s : list N) (k : list N -> option (list N)) :
  is_Some (k s) -> is_Some (rmatch (ROpt r) s k).
Proof. intros Hk. simpl. by destruct (rmatch r s k). Qed.

Lemma dash_some (r : regex) (d : N) (t : list N)
    (k : list N -> option (list N)) :
  d = 45%N \/ d = 8211%N -> is_Some (rmatch r t k) ->
  is_Some (rmatch (RSeq dash r) (d :: t) k).
Proof.
  intros [-> | ->] [e He]; unfold dash, lit; cbn [rmatch].
  - rewrite N.eqb_refl. by rewrite He.
  - change (45 =? 8211)%N with false. cbn iota. by rewrite N.eqb_refl, He.
Qed.

Lemma dash_fails (r : regex) (c : N) (t : list N)
    (k : list N -> option (list N)) :
  c <> 45%N -> c <> 8211%N -> rmatch (RSeq dash r) (c :: t) k = None.
Proof.
  intros H1 H2. unfold dash, lit. cbn [rmatch].
  rewrite (proj2 (N.eqb_neq 45 c)) by done.
  by rewrite (proj2 (N.eqb_neq 8211 c)) by done.
Qed.

Lemma dash_pass (r : regex) (d : N) (t : list N)
    (k : list N -> option (list N)) (e : list N) :
  rmatch (RSeq dash r) (d :: t) k = Some e -> rmatch r t k = Some e.
Proof.
  unfold dash, lit. cbn [rmatch].
  destruct (45 =? d)%N.
  - destruct (rmatch r t k) as [e'|]; [done|].
    by destruct (8211 =? d)%N.
  - by destruct (8211 =? d)%N.
Qed.

(** A word under IGNORECASE matches each of its spellings. *)
Lemma iword_of_match (word written s : list N)
    (k : list N -> option (list N)) :
  spelled word written ->
  rmatch (iword_of word) (written ++ s) k = k s.
Proof.
  induction 1 as [|c x word written Hcx _ IH]; [done|].
  cbn [iword_of app].
  change (rmatch (RSeq ?a ?b) ?l k)
    with (rmatch a l (fun s' => rmatch b s' k)).
  destruct Hcx as [->|[Hlow ->]].
  - destruct (is_lower c); unfold ilit, lit; cbn [rmatch];
      by rewrite N.eqb_refl.
  - rewrite Hlow. unfold ilit. cbn [rmatch].
    by rewrite N.eqb_refl, orb_true_r.
Qed.

(** The characters of a spelling of letters and spaces. *)
Lemma spelled_chars (word written : list N) (x : N) :
  spelled word written ->
  (forall c, c ∈ word -> is_lower c = true \/ c = 32%N) ->
  x ∈ written ->
  (65 <= x <= 90 \/ 97 <= x <= 122 \/ x = 32)%N.
Proof.
  induction 1 as [|c y word written Hcy _ IH]; intros Hw Hx.
  - by apply elem_of_nil in Hx.
  - apply elem_of_cons in Hx as [->|Hx].
    + destruct (Hw c) as [Hlow| ->]; [by left| |].
      * unfold is_lower in Hlow. apply andb_true_iff in Hlow as [H1 H2].
        apply N.leb_le in H1, H2.
        destruct Hcy as [->|[_ ->]]; lia.
      * destruct Hcy as [->|[Hlow _]]; [lia|done].
    + apply IH; [|done]. intros c' Hc'. apply Hw. by right.
Qed.

(** [.*$] at the end of a pattern: what a match leaves is nothing, or the
    line feed that ends the text. *)
Lemma to_the_end (r : regex) (s e : list N) :
  rmatch r s (fun s' => rmatch (RSeq (RStar dot) REnd) s' Some) = Some e ->
  e = [] \/ last s = Some 10%N.
Proof.
  intros H. apply rmatch_suffix in H as (s1 & Hs1 & H).
  change (rmatch (RStar dot) s1 (fun s' => rmatch REnd s' Some) = Some e)
    in H.
  apply rmatch_suffix in H as (s2 & Hs2 & H).
  assert (Hs : s2 `suffix_of` s) by (by etrans).
  simpl in H. destruct s2 as [|c s2]; [left; congruence|].
  destruct (N.eqb_spec c 10) as [->|Hne].
  - destruct s2 as [|c' s2]; [|done].
    right. destruct Hs as [pre ->]. by rewrite last_snoc.
  - revert H. by repeat case_match.
Qed.

Lemma to_the_end_some (s : list N) :
  10%N ∉ s -> is_Some (rmatch (RSeq (RStar dot) REnd) s Some).
Proof.
  intros Hs.
  change (is_Some (rmatch (RStar dot) s (fun s' => rmatch REnd s' Some))).
  rewrite <- (app_nil_r s). apply star_class_some; [|done].
  intros x Hx. apply negb_true_iff, N.eqb_neq. by intros <-.
Qed.

Local Abbreviation group_re opening closing :=
  (RSeq ws (RSeq (lit opening)
     (RSeq (RStar (not_lit closing)) (lit closing)))).

Lemma blank_not (w : list N) (c : N) :
  blank w -> isspace c = false -> c ∉ w.
Proof. intros Hw Hc Hin. by rewrite (Hw c Hin) in Hc. Qed.

Lemma blank_app (a b : list N) : blank a -> blank b -> blank (a ++ b).
Proof. intros Ha Hb x [?|?]%elem_of_app; auto. Qed.

Lemma group_no_match (opening closing : N) (s : list N) :
  opening ∉ s -> rmatch (group_re opening closing) s Some = None.
Proof.
  intros Hs. destruct (rmatch _ s Some) as [e|] eqn:E; [|done].
  apply rmatch_ws_class in E as (c & Hc & Hp).
  by apply N.eqb_eq in Hp as <-.
Qed.

Lemma dash_no_match (r : regex) (s : list N) :
  45%N ∉ s -> 8211%N ∉ s -> rmatch (RSeq ws (RSeq dash r)) s Some = None.
Proof.
  intros H1 H2. destruct (rmatch _ s Some) as [e|] eqn:E; [|done].
  by apply rmatch_ws_dash in E as [?|?].
Qed.

Lemma sub_empty_group_id (opening closing : N) (s : list N) :
  opening ∉ s -> sub_empty (group_re opening closing) s = s.
Proof.
  intros Hs. apply sub_empty_fuel_id. intros s' [pre ->].
  apply group_no_match. intros Hin. apply Hs, elem_of_app. by right.
Qed.

Lemma sub_empty_dash_id (r : regex) (s : list N) :
  45%N ∉ s -> 8211%N ∉ s -> sub_empty (RSeq ws (RSeq dash r)) s = s.
Proof.
  intros H1 H2. apply sub_empty_fuel_id. intros s' [pre ->].
  apply dash_no_match; intros Hin; [apply H1|apply H2];
    apply elem_of_app; by right.
Qed.

(** The pattern of a group matches white space, the opening character and
    the text up to the first closing character. *)
Lemma group_matches_exact (opening closing : N) (w g rest : list N) :
  isspace opening = false -> blank w -> closing ∉ g ->
  rmatch (group_re opening closing)
    (w ++ opening :: g ++ closing :: rest) Some = Some rest.
Proof.
  intros Hsp Hw Hg.
  change (rmatch (RStar (RClass isspace))
            (w ++ opening :: g ++ closing :: rest)
            (fun s' => rmatch (RSeq (lit opening)
               (RSeq (RStar (not_lit closing)) (lit closing))) s' Some)
          = Some rest).
  apply rmatch_star_class_greedy; [exact Hw|done|].
  cbn [rmatch lit]. rewrite N.eqb_refl.
  apply rmatch_star_class_greedy.
  - intros x Hx. apply negb_true_iff, N.eqb_neq. by intros <-.
  - by rewrite N.eqb_refl.
  - cbn [rmatch]. by rewrite N.eqb_refl.
Qed.

(** One group after a text that holds no opening character and does not
    end in white space, before a text that holds none either: the group
    goes, with the white space before it. *)
Lemma group_rule (opening closing : N) (base w g rest : list N) :
  isspace opening = false -> opening ∉ base -> opening ∉ rest ->
  (forall c, last base = Some c -> isspace c = false) ->
  blank w -> closing ∉ g ->
  sub_empty (group_re opening closing)
    (base ++ w ++ opening :: g ++ closing :: rest)
  = base ++ rest.
Proof.
  intros Hsp Hbase Hrest Hlast Hw Hg. unfold sub_empty.
  rewrite sub_empty_fuel_skip.
  - f_equal. rewrite (sub_empty_fuel_hit _ _ _ rest).
    + apply sub_empty_fuel_id. intros s' [pre ->].
      apply group_no_match. intros Hin. apply Hrest, elem_of_app. by right.
    + by apply group_matches_exact.
    + rewrite !length_app. cbn [length]. rewrite length_app. cbn [length].
      lia.
    + rewrite !length_app. lia.
  - rewrite length_app. lia.
  - intros b2 Hne Hsuf.
    apply (ws_then_fails base _
             (fun s' => rmatch (RSeq (lit opening)
                (RSeq (RStar (not_lit closing)) (lit closing))) s' Some));
      [|done..].
    intros c t Hc. cbn [rmatch lit].
    rewrite (proj2 (N.eqb_neq opening c)); [done|]. by intros <-.
Qed.

(** On a plain text the four patterns match nowhere. *)
Lemma plain_passes (s : list N) :
  plain s ->
  sub_empty re_paren s = s /\ sub_empty re_bracket s = s
  /\ sub_empty re_feat s = s /\ sub_empty re_suffix s = s.
Proof.
  intros Hs.
  assert (H40 : 40%N ∉ s) by (intros Hin; by destruct (Hs _ Hin)).
  assert (H91 : 91%N ∉ s) by (intros Hin; by destruct (Hs _ Hin) as (_&?&_)).
  assert (H45 : 45%N ∉ s)
    by (intros Hin; by destruct (Hs _ Hin) as (_&_&?&_)).
  assert (H8211 : 8211%N ∉ s)
    by (intros Hin; by destruct (Hs _ Hin) as (_&_&_&?)).
  split; [by apply (sub_empty_group_id 40 41)|].
  split; [by apply (sub_empty_group_id 91 93)|].
  split; by apply sub_empty_dash_id.
Qed.

Lemma plain_app (a b : list N) : plain a -> plain b -> plain (a ++ b).
Proof. intros Ha Hb x [?|?]%elem_of_app; auto. Qed.

Lemma letters_dec (word : list N) :
  forallb (fun c => is_lower c || (c =? 32)%N) word = true ->
  forall c, c ∈ word -> is_lower c = true \/ c = 32%N.
Proof.
  intros H c Hc. apply list_elem_of_In in Hc.
  rewrite forallb_forall in H. specialize (H c Hc).
  apply orb_true_iff in H as [?|?%N.eqb_eq]; auto.
Qed.

(** The characters of a spelling of one of the words: letters and
    spaces. *)
Lemma written_chars (word written : list N) (x : N) :
  word ∈ suffix_words ++ feat_words -> spelled word written ->
  x ∈ written ->
  (65 <= x <= 90 \/ 97 <= x <= 122 \/ x = 32)%N.
Proof.
  intros Hword Hsp. apply (spelled_chars word written x Hsp).
  apply letters_dec.
  unfold suffix_words, feat_words in Hword. cbn [map app] in Hword.
  repeat (apply elem_of_cons in Hword as [->|Hword];
          [vm_compute; reflexivity|]).
  by apply elem_of_nil in Hword.
Qed.

Lemma spelled_first (word written : list N) (c : N) :
  head word = Some c -> spelled word written ->
  exists x0 written', written = x0 :: written' /\ same_letter c x0.
Proof.
  intros Hh Hsp. destruct Hsp as [|c' x0 word' written' Hc _]; [done|].
  injection Hh as ->. eauto.
Qed.

(** The first character of a spelling of a suffix word is a letter other
    than f. *)
Lemma suffix_word_first (word written : list N) :
  word ∈ suffix_words -> spelled word written ->
  exists x0 written',
    written = x0 :: written' /\ isspace x0 = false
    /\ x0 <> 102%N /\ x0 <> 70%N.
Proof.
  intros Hword Hsp.
  assert (Hh : exists c, head word = Some c
                /\ (c = 114 \/ c = 115 \/ c = 98 \/ c = 108)%N).
  { unfold suffix_words in Hword. cbn [map] in Hword.
    repeat (apply elem_of_cons in Hword as [->|Hword];
            [eexists; split; [vm_compute; reflexivity|tauto]|]).
    by apply elem_of_nil in Hword. }
  destruct Hh as (c & Hh & Hc).
  destruct (spelled_first word written c Hh Hsp)
    as (x0 & written' & -> & Hx).
  exists x0, written'. split; [done|].
  destruct Hc as [->|[->|[->| ->]]]; destruct Hx as [->|[_ ->]];
    by vm_compute.
Qed.

Lemma ws_fails_seq (base s : list N) (r : regex)
    (k : list N -> option (list N)) :
  (forall c t, c ∈ base -> rmatch r (c :: t) k = None) ->
  (forall c, last base = Some c -> isspace c = false) ->
  forall b2, b2 <> [] -> b2 `suffix_of` base ->
  rmatch (RSeq ws r) (b2 ++ s) k = None.
Proof.
  intros Hk. exact (ws_then_fails base s (fun s' => rmatch r s' k) Hk).
Qed.

Lemma ws_first_seq (w : list N) (c : N) (t : list N) (r : regex)
    (k : list N -> option (list N)) (e : list N) :
  blank w -> isspace c = false ->
  rmatch (RSeq ws r) (w ++ c :: t) k = Some e ->
  exists w', w' `suffix_of` w /\ rmatch r (w' ++ c :: t) k = Some e.
Proof. exact (ws_then_first w c t (fun s' => rmatch r s' k) e). Qed.

Lemma ws_some_seq (w s : list N) (r : regex)
    (k : list N -> option (list N)) :
  blank w -> is_Some (rmatch r s k) -> is_Some (rmatch (RSeq ws r) (w ++ s) k).
Proof. exact (star_class_some isspace w s (fun s' => rmatch r s' k)). Qed.

Lemma alt_seq_l (a b r : regex) (s : list N)
    (k : list N -> option (list N)) :
  is_Some (rmatch (RSeq a r) s k) -> is_Some (rmatch (RSeq (RAlt a b) r) s k).
Proof. exact (alt_some_l a b s (fun s' => rmatch r s' k)). Qed.

Lemma alt_seq_r (a b r : regex) (s : list N)
    (k : list N -> option (list N)) :
  is_Some (rmatch (RSeq b r) s k) -> is_Some (rmatch (RSeq (RAlt a b) r) s k).
Proof. exact (alt_some_r a b s (fun s' => rmatch r s' k)). Qed.

Lemma opt_seq_skip (o r : regex) (s : list N)
    (k : list N -> option (list N)) :
  is_Some (rmatch r s k) -> is_Some (rmatch (RSeq (ROpt o) r) s k).
Proof. exact (opt_some o s (fun s' => rmatch r s' k)). Qed.

Lemma opt_seq_take (c : N) (r : regex) (s : list N)
    (k : list N -> option (list N)) :
  is_Some (rmatch r s k) ->
  is_Some (rmatch (RSeq (ROpt (lit c)) r) (c :: s) k).
Proof. intros [e He]. unfold lit. cbn [rmatch]. by rewrite N.eqb_refl, He. Qed.

Lemma iword_match_seq (word written s : list N) (r : regex)
    (k : list N -> option (list N)) :
  spelled word written ->
  rmatch (RSeq (iword_of word) r) (written ++ s) k = rmatch r s k.
Proof. exact (iword_of_match word written s (fun s' => rmatch r s' k)). Qed.

(** [feat] and [ft] begin with an f. *)
Lemma feat_first (r : regex) (y : N) (t : list N)
    (k : list N -> option (list N)) (e : list N) :
  rmatch (RSeq (RAlt (iword "feat") (iword "ft")) r) (y :: t) k = Some e ->
  y = 102%N \/ y = 70%N.
Proof.
  intros H.
  destruct (N.eqb_spec y 102) as [|H1]; [by left|].
  destruct (N.eqb_spec y 70) as [|H2]; [by right|].
  exfalso. revert H. unfold iword.
  change (codepoints "feat") with [102; 101; 97; 116]%N.
  change (codepoints "ft") with [102; 116]%N.
  cbn [iword_of]. change (is_lower 102) with true. cbn iota.
  unfold ilit at 1 5. cbn [rmatch].
  change (102 - 32)%N with 70%N. change (102 =? 115)%N with false.
  change (102 =? 107)%N with false. change (102 =? 105)%N with false.
  rewrite (proj2 (N.eqb_neq y 102)), (proj2 (N.eqb_neq y 70)) by done.
  done.
Qed.

Lemma class_seq_take (p : N -> bool) (y : N) (r : regex) (s : list N)
    (k : list N -> option (list N)) :
  p y = true -> is_Some (rmatch r s k) ->
  is_Some (rmatch (RSeq (RClass p) r) (y :: s) k).
Proof. intros Hp H. cbn [rmatch]. by rewrite Hp. Qed.

(** Before a suffix word, the pattern of [feat] matches nowhere. *)
Lemma feat_no_match (base w1 w2 rest : list N) (d x0 : N) :
  plain base -> (forall c, last base = Some c -> isspace c = false) ->
  blank w1 -> blank w2 -> isspace d = false ->
  isspace x0 = false -> x0 <> 102%N -> x0 <> 70%N ->
  45%N ∉ w2 ++ x0 :: rest -> 8211%N ∉ w2 ++ x0 :: rest ->
  forall s', s' `suffix_of` base ++ w1 ++ d :: w2 ++ x0 :: rest ->
  rmatch re_feat s' Some = None.
Proof.
  intros Hbase Hlast Hw1 Hw2 Hd Hx0 Hf1 Hf2 H45 H8211 s' Hs'.
  assert (Hblank_dash : forall w y, blank w -> y ∈ w ->
                          y <> 45%N /\ y <> 8211%N).
  { intros w y Hw Hy. apply Hw in Hy. split; intros ->; by vm_compute in Hy. }
  apply suffix_app_cases in Hs' as [(b2 & Hne & Hsuf & ->)|Hs'].
  { unfold re_feat. apply (ws_fails_seq base); [|done..].
    intros c t Hc. apply dash_fails; by destruct (Hbase c Hc) as (_&_&?&?). }
  assert (Hcase : (exists w1', blank w1'
                     /\ s' = w1' ++ d :: w2 ++ x0 :: rest)
                  \/ s' `suffix_of` w2 ++ x0 :: rest).
  { apply suffix_app_cases in Hs' as [(a2 & _ & Hsuf & ->)|Hs'].
    - left. exists a2. split; [|done]. intros x Hx. apply Hw1.
      destruct Hsuf as [pre ->]. apply elem_of_app. by right.
    - destruct Hs' as [[|y pre] Hpre].
      + left. exists []. split; [by intros x Hx%elem_of_nil|].
        symmetry. exact Hpre.
      + right. injection Hpre as _ Hpre. by exists pre. }
  destruct Hcase as [(w1' & Hw1' & ->)|Hs''].
  - destruct (rmatch re_feat _ Some) as [e|] eqn:E; [exfalso|done].
    unfold re_feat in E.
    apply ws_first_seq in E as (w'' & Hsuf & E); [|done..].
    destruct w'' as [|y w'']; cbn [app] in E.
    + apply dash_pass in E.
      apply ws_first_seq in E as (w2'' & Hsuf2 & E); [|done..].
      destruct w2'' as [|y w2'']; cbn [app] in E;
        apply feat_first in E as [E| E]; try done.
      * assert (Hy : y ∈ w2).
        { destruct Hsuf2 as [pre ->]. apply elem_of_app. right. by left. }
        apply Hw2 in Hy. by rewrite E in Hy.
      * assert (Hy : y ∈ w2).
        { destruct Hsuf2 as [pre ->]. apply elem_of_app. right. by left. }
        apply Hw2 in Hy. by rewrite E in Hy.
    + assert (Hy : y ∈ w1').
      { destruct Hsuf as [pre ->]. apply elem_of_app. right. by left. }
      destruct (Hblank_dash w1' y Hw1' Hy).
      by rewrite dash_fails in E.
  - unfold re_feat. destruct Hs'' as [pre Hpre].
    apply dash_no_match; intros Hin; [apply H45|apply H8211];
      rewrite Hpre; apply elem_of_app; by right.
Qed.

Lemma last_app_ne {A} (a b : list A) : b <> [] -> last (a ++ b) = last b.
Proof.
  intros Hb. rewrite last_app. destruct (last b) eqn:E; [done|].
  by apply last_None in E.
Qed.

(** At the dash that introduces [feat] or [ft], the pattern matches to the
    end of the text. *)
Lemma feat_hit (w1 w2 word written stop sp tail : list N) (d : N) :
  blank w1 -> d = 45%N \/ d = 8211%N -> blank w2 ->
  word ∈ feat_words -> spelled word written ->
  stop = [] \/ stop = [46%N] ->
  blank sp -> sp <> [] -> 10%N ∉ tail -> last (sp ++ tail) <> Some 10%N ->
  rmatch re_feat (w1 ++ d :: w2 ++ written ++ stop ++ sp ++ tail) Some
  = Some [].
Proof.
  intros Hw1 Hd Hw2 Hword Hsp Hstop Hblank Hne Htail Hlast.
  set (text := w1 ++ d :: w2 ++ written ++ stop ++ sp ++ tail).
  assert (Hsome : is_Some (rmatch re_feat text Some)).
  { unfold re_feat, text.
    apply ws_some_seq; [done|]. apply dash_some; [done|].
    apply ws_some_seq; [done|].
    assert (Hrest : is_Some
      (rmatch (RSeq (ROpt (lit 46))
                 (RSeq (RSeq (RClass isspace) ws) (RSeq (RStar dot) REnd)))
         (stop ++ sp ++ tail) Some)).
    { assert (Hspace : is_Some
        (rmatch (RSeq (RSeq (RClass isspace) ws) (RSeq (RStar dot) REnd))
           (sp ++ tail) Some)).
      { destruct sp as [|y sp]; [done|].
        change (is_Some (rmatch
                  (RSeq (RClass isspace) (RSeq ws (RSeq (RStar dot) REnd)))
                  (y :: sp ++ tail) Some)).
        apply class_seq_take; [apply Hblank; by left|].
        apply ws_some_seq; [|by apply to_the_end_some].
        intros x Hx. apply Hblank. by right. }
      destruct Hstop as [-> | ->]; cbn [app].
      - by apply opt_seq_skip.
      - by apply opt_seq_take. }
    unfold feat_words in Hword. cbn [map] in Hword.
    apply elem_of_cons in Hword as [->|Hword].
    - apply alt_seq_l. unfold iword. by rewrite iword_match_seq.
    - apply list_elem_of_singleton in Hword as ->.
      apply alt_seq_r. unfold iword. by rewrite iword_match_seq. }
  destruct Hsome as [e He]. rewrite He. f_equal.
  unfold re_feat in He.
  change (rmatch
            (RSeq ws (RSeq dash (RSeq ws
               (RSeq (RAlt (iword "feat") (iword "ft"))
                  (RSeq (ROpt (lit 46)) (RSeq (RClass isspace) ws))))))
            text (fun s' => rmatch (RSeq (RStar dot) REnd) s' Some)
          = Some e) in He.
  apply to_the_end in He as [->|Hl]; [done|]. exfalso. apply Hlast.
  rewrite <- Hl. unfold text.
  change (w1 ++ d :: w2 ++ written ++ stop ++ sp ++ tail)
    with (w1 ++ [d] ++ w2 ++ written ++ stop ++ sp ++ tail).
  rewrite !(assoc_L (++) _ _ (sp ++ tail)).
  symmetry. apply last_app_ne. by destruct sp.
Qed.

(** At the dash that introduces a suffix word, the pattern matches to the
    end of the text. *)
Lemma suffix_hit (w1 w2 word written tail : list N) (d : N) :
  blank w1 -> d = 45%N \/ d = 8211%N -> blank w2 ->
  word ∈ suffix_words -> spelled word written -> 10%N ∉ tail ->
  rmatch re_suffix (w1 ++ d :: w2 ++ written ++ tail) Some = Some [].
Proof.
  intros Hw1 Hd Hw2 Hword Hsp Htail.
  set (text := w1 ++ d :: w2 ++ written ++ tail).
  assert (Hend : is_Some (rmatch (RSeq (RStar dot) REnd) tail Some))
    by (by apply to_the_end_some).
  assert (Hsome : is_Some (rmatch re_suffix text Some)).
  { unfold re_suffix, text.
    apply ws_some_seq; [done|]. apply dash_some; [done|].
    apply ws_some_seq; [done|].
    unfold suffix_words in Hword. cbn [map] in Hword.
    apply elem_of_cons in Hword as [->|Hword].
    { apply alt_seq_l. unfold iword.
      change (is_Some (rmatch
                (RSeq (iword_of (codepoints "remaster"))
                   (RSeq (ROpt (iword_of (codepoints "ed")))
                      (RSeq (RStar dot) REnd)))
                (written ++ tail) Some)).
      rewrite iword_match_seq by done. by apply opt_seq_skip. }
    apply alt_seq_r.
    apply elem_of_cons in Hword as [->|Hword].
    { apply alt_seq_l. unfold iword. by rewrite iword_match_seq. }
    apply alt_seq_r.
    apply elem_of_cons in Hword as [->|Hword].
    { apply alt_seq_l. unfold iword. by rewrite iword_match_seq. }
    apply alt_seq_r.
    apply elem_of_cons in Hword as [->|Hword].
    { apply alt_seq_l. unfold iword. by rewrite iword_match_seq. }
    apply list_elem_of_singleton in Hword as ->.
    apply alt_seq_r. unfold iword. by rewrite iword_match_seq. }
  destruct Hsome as [e He]. rewrite He. f_equal.
  unfold re_suffix in He.
  change (rmatch
            (RSeq ws (RSeq dash (RSeq ws
               (RAlt (RSeq (iword "remaster") (ROpt (iword "ed")))
                  (RAlt (iword "radio edit")
                     (RAlt (iword "single version")
                        (RAlt (iword "bonus track") (iword "live"))))))))
            text (fun s' => rmatch (RSeq (RStar dot) REnd) s' Some)
          = Some e) in He.
  apply to_the_end in He as [->|Hl]; [done|]. exfalso.
  destruct (suffix_word_first word written Hword Hsp)
    as (x0 & written' & -> & _).
  assert (Hin : 10%N ∈ (x0 :: written') ++ tail).
  { apply last_Some_elem_of. rewrite <- Hl. unfold text.
    change (w1 ++ d :: w2 ++ (x0 :: written') ++ tail)
      with (w1 ++ [d] ++ w2 ++ (x0 :: written') ++ tail).
    rewrite !(assoc_L (++) _ _ ((x0 :: written') ++ tail)).
    symmetry. by apply last_app_ne. }
  apply elem_of_app in Hin as [Hin|Hin]; [|done].
  assert (Hw : word ∈ suffix_words ++ feat_words)
    by (apply elem_of_app; by left).
  pose proof (written_chars word _ 10%N Hw Hsp Hin). lia.
Qed.

(** No parenthesis and no square bracket stands in a plain text followed
    by a dash and a spelling of one of the words. *)
Lemma no_opening_before_word (o : N) (base w1 w2 word written rest : list N)
    (d : N) :
  o = 40%N \/ o = 91%N -> plain base -> blank w1 ->
  d = 45%N \/ d = 8211%N -> blank w2 ->
  word ∈ suffix_words ++ feat_words -> spelled word written -> o ∉ rest ->
  o ∉ base ++ w1 ++ d :: w2 ++ written ++ rest.
Proof.
  intros Ho Hbase Hw1 Hd Hw2 Hword Hsp Hrest Hin.
  assert (Hsp_o : isspace o = false) by (by destruct Ho as [-> | ->]).
  apply elem_of_app in Hin as [Hin|Hin].
  { destruct (Hbase o Hin) as (? & ? & _). by destruct Ho. }
  apply elem_of_app in Hin as [Hin|Hin]; [by apply (blank_not w1 o)|].
  apply elem_of_cons in Hin as [->|Hin].
  { destruct Ho as [?|?], Hd as [?|?]; congruence. }
  apply elem_of_app in Hin as [Hin|Hin]; [by apply (blank_not w2 o)|].
  apply elem_of_app in Hin as [Hin|Hin]; [|done].
  pose proof (written_chars word written o Hword Hsp Hin).
  destruct Ho as [-> | ->]; lia.
Qed.

(** A parenthetical group goes, with the white space before it. *)
Lemma paren_rule (base w g rest : list N) :
  plain base -> plain rest ->
  (forall c, last base = Some c -> isspace c = false) ->
  blank w -> 41%N ∉ g ->
  normalize_track_name (base ++ w ++ 40%N :: g ++ 41%N :: rest)
  = strip (base ++ rest).
Proof.
  intros Hbase Hrest Hlast Hw Hg. unfold normalize_track_name.
  unfold re_paren. rewrite (group_rule 40 41); [|done| | |done..].
  - by destruct (plain_passes (base ++ rest) (plain_app _ _ Hbase Hrest))
      as (_ & -> & -> & ->).
  - intros Hin. by destruct (Hbase _ Hin).
  - intros Hin. by destruct (Hrest _ Hin).
Qed.

(** So does a bracketed group. *)
Lemma bracket_rule (base w g rest : list N) :
  plain base -> plain rest ->
  (forall c, last base = Some c -> isspace c = false) ->
  blank w -> 93%N ∉ g -> 40%N ∉ g ->
  normalize_track_name (base ++ w ++ 91%N :: g ++ 93%N :: rest)
  = strip (base ++ rest).
Proof.
  intros Hbase Hrest Hlast Hw Hg Hg40. unfold normalize_track_name.
  unfold re_paren. rewrite (sub_empty_group_id 40 41).
  2:{ intros Hin.
      apply elem_of_app in Hin as [Hin|Hin]; [by destruct (Hbase _ Hin)|].
      apply elem_of_app in Hin as [Hin|Hin]; [by apply (blank_not w 40%N)|].
      apply elem_of_cons in Hin as [?|Hin]; [done|].
      apply elem_of_app in Hin as [Hin|Hin]; [done|].
      apply elem_of_cons in Hin as [?|Hin]; [done|].
      by destruct (Hrest _ Hin). }
  unfold re_bracket. rewrite (group_rule 91 93); [|done| | |done..].
  - by destruct (plain_passes (base ++ rest) (plain_app _ _ Hbase Hrest))
      as (_ & _ & -> & ->).
  - intros Hin. by destruct (Hbase _ Hin) as (_ & ? & _).
  - intros Hin. by destruct (Hrest _ Hin) as (_ & ? & _).
Qed.

(** A dash, [feat] or [ft], a full stop or none, white space: all goes,
    from the white space before the dash to the end of the name. *)
Lemma feat_rule (base w1 w2 word written stop sp tail : list N) (d : N) :
  plain base -> trimmed base -> blank w1 -> d = 45%N \/ d = 8211%N ->
  blank w2 -> word ∈ feat_words -> spelled word written ->
  stop = [] \/ stop = [46%N] -> blank sp -> sp <> [] ->
  10%N ∉ tail -> last (sp ++ tail) <> Some 10%N ->
  40%N ∉ tail -> 91%N ∉ tail ->
  normalize_track_name
    (base ++ w1 ++ d :: w2 ++ written ++ stop ++ sp ++ tail)
  = base.
Proof.
  intros Hbase Htrim Hw1 Hd Hw2 Hword Hsp Hstop Hblank Hne Htail Hlast
    Ht40 Ht91.
  set (text := w1 ++ d :: w2 ++ written ++ stop ++ sp ++ tail).
  assert (Hopen : forall o, o = 40%N \/ o = 91%N -> o ∉ tail ->
                    o ∉ base ++ text).
  { intros o Ho Hot. unfold text.
    apply (no_opening_before_word o base w1 w2 word written); try done.
    - apply elem_of_app. by right.
    - intros Hin.
      apply elem_of_app in Hin as [Hin|Hin].
      { destruct Hstop as [-> | ->]; [by apply elem_of_nil in Hin|].
        apply list_elem_of_singleton in Hin. destruct Ho; congruence. }
      apply elem_of_app in Hin as [Hin|Hin]; [|done].
      apply Hblank in Hin. by destruct Ho as [-> | ->]. }
  unfold normalize_track_name. fold text.
  unfold re_paren. rewrite (sub_empty_group_id 40 41) by auto.
  unfold re_bracket. rewrite (sub_empty_group_id 91 93) by auto.
  assert (Hpass : sub_empty re_feat (base ++ text) = base).
  { unfold sub_empty. rewrite sub_empty_fuel_skip.
    - rewrite (sub_empty_fuel_hit _ _ _ []).
      + by rewrite sub_empty_fuel_nil, app_nil_r.
      + by apply (feat_hit w1 w2 word written stop sp tail d).
      + unfold text. rewrite length_app. cbn [length]. lia.
      + rewrite length_app. lia.
    - rewrite length_app. lia.
    - intros b2 Hb2 Hsuf. unfold re_feat.
      apply (ws_fails_seq base); [|apply Htrim|done..].
      intros c t Hc. apply dash_fails; by destruct (Hbase c Hc) as (_&_&?&?). }
  rewrite Hpass.
  destruct (plain_passes base Hbase) as (_ & _ & _ & ->).
  by apply strip_id.
Qed.

(** A dash and one of the suffix words: all goes, from the white space
    before the dash to the end of the name. *)
Lemma suffix_rule (base w1 w2 word written tail : list N) (d : N) :
  plain base -> trimmed base -> blank w1 -> d = 45%N \/ d = 8211%N ->
  blank w2 -> word ∈ suffix_words -> spelled word written ->
  plain tail -> 10%N ∉ tail ->
  normalize_track_name (base ++ w1 ++ d :: w2 ++ written ++ tail) = base.
Proof.
  intros Hbase Htrim Hw1 Hd Hw2 Hword Hsp Hplain Htail.
  set (text := w1 ++ d :: w2 ++ written ++ tail).
  assert (Hword' : word ∈ suffix_words ++ feat_words)
    by (apply elem_of_app; by left).
  assert (Hopen : forall o, o = 40%N \/ o = 91%N -> o ∉ base ++ text).
  { intros o Ho. unfold text.
    apply (no_opening_before_word o base w1 w2 word written); try done.
    intros Hin. destruct (Hplain o Hin) as (? & ? & _). by destruct Ho. }
  assert (Hd' : isspace d = false) by (by destruct Hd as [-> | ->]).
  unfold normalize_track_name. fold text.
  unfold re_paren. rewrite (sub_empty_group_id 40 41) by auto.
  unfold re_bracket. rewrite (sub_empty_group_id 91 93) by auto.
  assert (Hfeat : sub_empty re_feat (base ++ text) = base ++ text).
  { apply sub_empty_fuel_id. unfold text.
    destruct (suffix_word_first word written Hword Hsp)
      as (x0 & written' & Hwr & Hx0 & Hf1 & Hf2).
    rewrite Hwr. cbn [app].
    assert (Hnodash : forall c, c = 45%N \/ c = 8211%N ->
                        c ∉ w2 ++ x0 :: written' ++ tail).
    { intros c Hc Hin.
      apply elem_of_app in Hin as [Hin|Hin].
      { apply Hw2 in Hin. by destruct Hc as [-> | ->]. }
      change (c ∈ (x0 :: written') ++ tail) in Hin. rewrite <- Hwr in Hin.
      apply elem_of_app in Hin as [Hin|Hin].
      - pose proof (written_chars word written c Hword' Hsp Hin).
        destruct Hc as [-> | ->]; lia.
      - destruct (Hplain c Hin) as (_ & _ & ? & ?). by destruct Hc. }
    apply feat_no_match; try done; [apply Htrim|auto..]. }
  rewrite Hfeat.
  assert (Hpass : sub_empty re_suffix (base ++ text) = base).
  { unfold sub_empty. rewrite sub_empty_fuel_skip.
    - rewrite (sub_empty_fuel_hit _ _ _ []).
      + by rewrite sub_empty_fuel_nil, app_nil_r.
      + by apply (suffix_hit w1 w2 word written tail d).
      + unfold text. rewrite length_app. cbn [length]. lia.
      + rewrite length_app. lia.
    - rewrite length_app. lia.
    - intros b2 Hb2 Hsuf. unfold re_suffix.
      apply (ws_fails_seq base); [|apply Htrim|done..].
      intros c t Hc. apply dash_fails; by destruct (Hbase c Hc) as (_&_&?&?). }
  rewrite Hpass. by apply strip_id.
Qed.

(** C9.  The rules of the two normalizers.  The three examples of the
    design document reduce as it says.  [normalize_track_name] deletes the
    groups before the suffixes: a suffix word inside a parenthetical group
    goes with the group, where the other order would cut the group open.
    It leaves no parenthetical and no bracketed group; a group goes with the
    white space before it; a dash (hyphen or en dash) followed by [feat] or
    [ft], in any case, with or without a full stop, and white space, goes
    with all that follows; so does a dash followed by [remaster],
    [radio edit], [single version], [bonus track] or [live] in any case;
    a name without parenthesis, bracket and dash is only trimmed, and
    nothing is ever inserted.  [normalize_artist] keeps the text before the
    first comma, trimmed.  Both are total and their results carry no white
    space at either end. *)
Theorem normalizer_rules :
  normalize_track_name (codepoints "Song (Live) - Remastered")
    = codepoints "Song"
  /\ normalize_track_name (codepoints "Bohemian Rhapsody (Remastered 2011)")
    = codepoints "Bohemian Rhapsody"
  /\ normalize_artist (codepoints "Queen, David Bowie") = codepoints "Queen"
  /\ (let name := codepoints "Song (Acoustic - Live)" in
      normalize_track_name name = codepoints "Song"
      /\ strip (sub_empty re_bracket (sub_empty re_paren
           (sub_empty re_suffix (sub_empty re_feat name))))
         = codepoints "Song (Acoustic")
  /\ (forall name,
        no_group 40 41 (normalize_track_name name)
        /\ no_group 91 93 (normalize_track_name name))
  /\ (forall base w g rest,
        plain base -> plain rest ->
        (forall c, last base = Some c -> isspace c = false) ->
        blank w -> 41%N ∉ g ->
        normalize_track_name (base ++ w ++ 40%N :: g ++ 41%N :: rest)
        = strip (base ++ rest))
  /\ (forall base w g rest,
        plain base -> plain rest ->
        (forall c, last base = Some c -> isspace c = false) ->
        blank w -> 93%N ∉ g -> 40%N ∉ g ->
        normalize_track_name (base ++ w ++ 91%N :: g ++ 93%N :: rest)
        = strip (base ++ rest))
  /\ (forall base w1 d w2 word written stop sp tail,
        plain base -> trimmed base -> blank w1 ->
        d = 45%N \/ d = 8211%N -> blank w2 ->
        word ∈ feat_words -> spelled word written ->
        stop = [] \/ stop = [46%N] -> blank sp -> sp <> [] ->
        10%N ∉ tail -> last (sp ++ tail) <> Some 10%N ->
        40%N ∉ tail -> 91%N ∉ tail ->
        normalize_track_name
          (base ++ w1 ++ d :: w2 ++ written ++ stop ++ sp ++ tail)
        = base)
  /\ (forall base w1 d w2 word written tail,
        plain base -> trimmed base -> blank w1 ->
        d = 45%N \/ d = 8211%N -> blank w2 ->
        word ∈ suffix_words -> spelled word written ->
        plain tail -> 10%N ∉ tail ->
        normalize_track_name (base ++ w1 ++ d :: w2 ++ written ++ tail)
        = base)
  /\ (forall name, plain name -> normalize_track_name name = strip name)
  /\ (forall name, sublist (normalize_track_name name) name)
  /\ normalize_track_name (codepoints "Song - Featuring X")
     = codepoints "Song - Featuring X"
  /\ normalize_track_name (codepoints "Song - Alive")
     = codepoints "Song - Alive"
  /\ normalize_track_name (codepoints "Song Live") = codepoints "Song Live"
  /\ (forall first rest,
        44%N ∉ first ->
        normalize_artist (first ++ 44%N :: rest) = strip first)
  /\ (forall artist, 44%N ∉ artist -> normalize_artist artist = strip artist)
  /\ (forall artist, sublist (normalize_artist artist) artist)
  /\ (forall name, trimmed (normalize_track_name name))
  /\ (forall artist, trimmed (normalize_artist artist)).
Proof.
  split; [vm_compute; reflexivity|].
  split; [vm_compute; reflexivity|].
  split; [vm_compute; reflexivity|].
  split; [split; vm_compute; reflexivity|].
  split.
  { intros name. unfold normalize_track_name. split.
    - eapply no_group_sublist;
        [|apply (sub_empty_fuel_no_group 40 41 (length name) name);
          [done|lia]].
      etrans; [apply strip_sublist|].
      etrans; [apply sub_empty_sublist|].
      etrans; [apply sub_empty_sublist|]. apply sub_empty_sublist.
    - eapply no_group_sublist;
        [|apply (sub_empty_fuel_no_group 91 93
                   (length (sub_empty re_paren name))
                   (sub_empty re_paren name)); [done|lia]].
      etrans; [apply strip_sublist|].
      etrans; [apply sub_empty_sublist|]. apply sub_empty_sublist. }
  split; [exact paren_rule|].
  split; [exact bracket_rule|].
  split.
  { intros base w1 d w2 word written stop sp tail. apply feat_rule. }
  split.
  { intros base w1 d w2 word written tail. apply suffix_rule. }
  split.
  { intros name Hplain. unfold normalize_track_name.
    by destruct (plain_passes name Hplain) as (-> & -> & -> & ->). }
  split.
  { intros name. unfold normalize_track_name.
    etrans; [apply strip_sublist|].
    etrans; [apply sub_empty_sublist|].
    etrans; [apply sub_empty_sublist|].
    etrans; [apply sub_empty_sublist|]. apply sub_empty_sublist. }
  split; [vm_compute; reflexivity|].
  split; [vm_compute; reflexivity|].
  split; [vm_compute; reflexivity|].
  split.
  { intros first rest Hf. unfold normalize_artist.
    by rewrite split_first_app. }
  split.
  { intros artist Ha. unfold normalize_artist.
    by rewrite split_first_whole. }
  split.
  { intros artist. unfold normalize_artist.
    etrans; [apply strip_sublist|]. apply split_first_sublist. }
  split; intros; apply strip_trimmed.
Qed.

(** The rules at work: a bracketed edition, [FT.] after an en dash, and
    [LIVE] after a hyphen without white space. *)
Lemma normalizer_rules_witness :
  normalize_track_name (codepoints "Song [Deluxe Edition]")
    = strip (codepoints "Song")
  /\ normalize_track_name
       (codepoints "Track" ++ [32; 8211; 32; 70; 84; 46; 32]%N
          ++ codepoints "Someone")
     = codepoints "Track"
  /\ normalize_track_name (codepoints "Song-LIVE at Wembley")
     = codepoints "Song".
Proof.
  pose proof normalizer_rules
    as (_ & _ & _ & _ & _ & _ & Hbracket & Hfeat & Hsuffix & _).
  assert (Hplain : forall s : list N,
            forallb (fun c => negb ((c =? 40) || (c =? 91) || (c =? 45)
                                    || (c =? 8211))%N) s = true ->
            plain s).
  { intros s H c Hc. apply list_elem_of_In in Hc.
    rewrite forallb_forall in H. specialize (H c Hc).
    apply negb_true_iff in H.
    repeat (apply orb_false_iff in H as [H ?]).
    repeat split; by apply N.eqb_neq. }
  assert (Hblank : forall s : list N, forallb isspace s = true -> blank s).
  { intros s H c Hc. apply list_elem_of_In in Hc.
    rewrite forallb_forall in H. by apply H. }
  assert (Hnotin : forall (c : N) (s : list N),
            forallb (fun x => negb (x =? c)%N) s = true -> c ∉ s).
  { intros c s H Hc. apply list_elem_of_In in Hc.
    rewrite forallb_forall in H. specialize (H c Hc).
    by rewrite N.eqb_refl in H. }
  split; [|split].
  - apply (Hbracket (codepoints "Song") [32%N]
             (codepoints "Deluxe Edition") []).
    + by apply Hplain.
    + by apply Hplain.
    + intros c [= <-]. reflexivity.
    + by apply Hblank.
    + by apply Hnotin.
    + by apply Hnotin.
  - apply (Hfeat (codepoints "Track") [32%N] 8211%N [32%N]
             (codepoints "ft") [70; 84]%N [46%N] [32%N]
             (codepoints "Someone")).
    + by apply Hplain.
    + split; intros c [= <-]; reflexivity.
    + by apply Hblank.
    + by right.
    + by apply Hblank.
    + unfold feat_words. cbn [map]. apply list_elem_of_further, list_elem_of_here.
    + repeat constructor; right; split; reflexivity.
    + by right.
    + by apply Hblank.
    + done.
    + by apply Hnotin.
    + vm_compute. discriminate.
    + by apply Hnotin.
    + by apply Hnotin.
  - apply (Hsuffix (codepoints "Song") [] 45%N []
             (codepoints "live") (codepoints "LIVE")
             (codepoints " at Wembley")).
    + by apply Hplain.
    + split; intros c [= <-]; reflexivity.
    + by apply Hblank.
    + by left.
    + by apply Hblank.
    + unfold suffix_words. cbn [map].
      do 4 apply list_elem_of_further. apply list_elem_of_here.
    + repeat constructor; right; split; reflexivity.
    + by apply Hplain.
    + by apply Hnotin.
Defined.

(** ** More on the zone calculator *)

Lemma rank_of_mono (n p q : nat) : (p <= q)%nat -> (rank_of n p <= rank_of n q)%nat.
Proof.
  intros Hpq. unfold rank_of.
  pose proof (Nat.Div0.div_le_mono (p * n) (q * n) 100) as H.
  assert (p * n <= q * n)%nat by nia. lia.
Qed.

Lemma rank_of_last (n p : nat) : (rank_of n p <= n - 1)%nat.
Proof. unfold rank_of. lia. Qed.

(** The zones of a non-empty list, read in its sorted copy. *)
Lemma calculate_zones_sorted (all_cadence : list Z) :
  all_cadence <> [] ->
  let sorted_cadence := merge_sort Z.le all_cadence in
  let n := length all_cadence in
  exists p25 p50 p75 p90 top : Z,
    sorted_cadence !! rank_of n 25 = Some p25
    /\ sorted_cadence !! rank_of n 50 = Some p50
    /\ sorted_cadence !! rank_of n 75 = Some p75
    /\ sorted_cadence !! rank_of n 90 = Some p90
    /\ sorted_cadence !! (n - 1)%nat = Some top
    /\ snd (calculate_zones all_cadence)
       = Returned
           [ (codepoints "Easy", (p25, p50));
             (codepoints "Moderate", (p50, p75));
             (codepoints "Tempo", (p75, p90));
             (codepoints "Speed", (p90, Z.max top (p90 + 10))) ].
Proof.
  intros Hne sorted_cadence n.
  pose proof (merge_sort_Permutation Z.le all_cadence) as Hperm.
  fold sorted_cadence in Hperm.
  assert (Hlen : length sorted_cadence = n) by by rewrite Hperm.
  assert (Hne' : sorted_cadence <> []).
  { intros E. rewrite E in Hperm. symmetry in Hperm.
    by apply Permutation_nil_r in Hperm. }
  destruct (percentile_lookup sorted_cadence 25 Hne') as (p25 & L25 & E25).
  destruct (percentile_lookup sorted_cadence 50 Hne') as (p50 & L50 & E50).
  destruct (percentile_lookup sorted_cadence 75 Hne') as (p75 & L75 & E75).
  destruct (percentile_lookup sorted_cadence 90 Hne') as (p90 & L90 & E90).
  destruct (py_item_last sorted_cadence Hne') as (top & Ltop & Etop).
  rewrite Hlen in L25, L50, L75, L90, Ltop.
  exists p25, p50, p75, p90, top. unfold rank_of.
  repeat (split; [done|]).
  unfold calculate_zones. cbn [snd]. fold sorted_cadence.
  change 25 with (Z.of_nat 25). change 50 with (Z.of_nat 50).
  change 75 with (Z.of_nat 75). change 90 with (Z.of_nat 90).
  rewrite E25. cbn [mbind outcome_mbind outcome_bind].
  rewrite E50. cbn [mbind outcome_mbind outcome_bind].
  rewrite E75. cbn [mbind outcome_mbind outcome_bind].
  rewrite E90. cbn [mbind outcome_mbind outcome_bind].
  rewrite Etop. reflexivity.
Qed.

Lemma sorted_lookup_le (l : list Z) (i j : nat) (x y : Z) :
  (i <= j)%nat ->
  merge_sort Z.le l !! i = Some x -> merge_sort Z.le l !! j = Some y ->
  x <= y.
Proof.
  intros Hij. apply StronglySorted_lookup_le; [|done].
  apply Sorted_StronglySorted; [apply _|]. apply Sorted_merge_sort. apply _.
Qed.

(** X16.  The zones that [calculate_zones] computes are in order and
    adjoining: each zone starts where the one before it ends, no bound is
    below the one before it, the last zone is at least 10 wide and reaches
    the largest sample, and the four percentile bounds are samples. *)
Theorem calculate_zones_ordered (all_cadence : list Z) :
  all_cadence <> [] ->
  exists p25 p50 p75 p90 high : Z,
    snd (calculate_zones all_cadence)
    = Returned
        [ (codepoints "Easy", (p25, p50));
          (codepoints "Moderate", (p50, p75));
          (codepoints "Tempo", (p75, p90));
          (codepoints "Speed", (p90, high)) ]
    /\ p25 <= p50 /\ p50 <= p75 /\ p75 <= p90 /\ p90 + 10 <= high
    /\ (forall x, x ∈ all_cadence -> x <= high)
    /\ p25 ∈ all_cadence /\ p50 ∈ all_cadence
    /\ p75 ∈ all_cadence /\ p90 ∈ all_cadence.
Proof.
  intros Hne.
  destruct (calculate_zones_sorted all_cadence Hne)
    as (p25 & p50 & p75 & p90 & top & L25 & L50 & L75 & L90 & Ltop & E).
  pose proof (merge_sort_Permutation Z.le all_cadence) as Hperm.
  set (n := length all_cadence) in *.
  exists p25, p50, p75, p90, (Z.max top (p90 + 10)).
  split; [done|].
  split; [by eapply (sorted_lookup_le _ (rank_of n 25) (rank_of n 50));
            [apply rank_of_mono; lia|..]|].
  split; [by eapply (sorted_lookup_le _ (rank_of n 50) (rank_of n 75));
            [apply rank_of_mono; lia|..]|].
  split; [by eapply (sorted_lookup_le _ (rank_of n 75) (rank_of n 90));
            [apply rank_of_mono; lia|..]|].
  split; [lia|].
  split.
  { intros x Hx. rewrite <- Hperm in Hx.
    apply list_elem_of_lookup_1 in Hx as [i Hi].
    assert (x <= top); [|lia].
    eapply (sorted_lookup_le _ i (n - 1)); [|done..].
    apply lookup_lt_Some in Hi. rewrite Hperm in Hi. fold n in Hi. lia. }
  repeat split; rewrite <- Hperm; by eapply list_elem_of_lookup_2.
Qed.

Lemma calculate_zones_ordered_witness :
  exists p25 p50 p75 p90 high : Z,
    snd (calculate_zones [180; 160; 170; 150; 190])
    = Returned
        [ (codepoints "Easy", (p25, p50));
          (codepoints "Moderate", (p50, p75));
          (codepoints "Tempo", (p75, p90));
          (codepoints "Speed", (p90, high)) ]
    /\ p25 <= p50 /\ p50 <= p75 /\ p75 <= p90 /\ p90 + 10 <= high
    /\ (forall x, x ∈ [180; 160; 170; 150; 190] -> x <= high)
    /\ p25 ∈ [180; 160; 170; 150; 190] /\ p50 ∈ [180; 160; 170; 150; 190]
    /\ p75 ∈ [180; 160; 170; 150; 190] /\ p90 ∈ [180; 160; 170; 150; 190].
Proof.
  apply (calculate_zones_ordered [180; 160; 170; 150; 190]). discriminate.
Defined.

(** X17.  The zones depend on the samples and not on their order, and so
    not on the order of the files they came from: two lists with the same
    samples give the same result and the same warning. *)
Theorem calculate_zones_permutation (l1 l2 : list Z) :
  l1 ≡ₚ l2 -> calculate_zones l1 = calculate_zones l2.
Proof.
  intros Hperm. unfold calculate_zones.
  assert (Hs : merge_sort Z.le l1 = merge_sort Z.le l2).
  { apply (Sorted_unique Z.le); try apply Sorted_merge_sort; try apply _.
    by rewrite !merge_sort_Permutation. }
  by rewrite Hs, (Permutation_length Hperm).
Qed.

Lemma calculate_zones_permutation_witness :
  calculate_zones [180; 160; 170] = calculate_zones [160; 170; 180].
Proof.
  apply (calculate_zones_permutation [180; 160; 170] [160; 170; 180]).
  apply (bool_decide_unpack _). vm_compute. exact I.
Defined.

(** X18.  On no sample at all [calculate_zones] prints its warning and
    raises [IndexError]; on any sample it returns.  The warning is printed
    exactly below 100 samples, and does not change the result. *)
Theorem calculate_zones_edges (all_cadence : list Z) :
  calculate_zones [] = ([low_data_warning], Raised IndexError)
  /\ (all_cadence <> [] ->
      exists z, snd (calculate_zones all_cadence) = Returned z)
  /\ fst (calculate_zones all_cadence)
     = if bool_decide (length all_cadence < 100)%nat
       then [low_data_warning] else [].
Proof.
  split; [reflexivity|]. split.
  - intros Hne.
    destruct (calculate_zones_sorted all_cadence Hne)
      as (p25 & p50 & p75 & p90 & top & _ & _ & _ & _ & _ & E).
    eauto.
  - unfold calculate_zones. cbn [fst].
    destruct (Nat.ltb_spec (length all_cadence) 100).
    + by rewrite bool_decide_true.
    + rewrite bool_decide_false; [done|lia].
Qed.

Lemma calculate_zones_edges_witness :
  exists z, snd (calculate_zones [170]) = Returned z.
Proof.
  refine (proj1 (proj2 (calculate_zones_edges [170])) _). discriminate.
Defined.

(** ** The analysis of the runs *)

(** X19.  [analyze_runs] stops with an error message exactly when there is
    no file or no file holds a sample, and says which; in every other case
    it produces four zones, named Easy, Moderate, Tempo and Speed in that
    order, and the percentile computation never fails in it. *)
Theorem analyze_runs_outcomes (fit_cadence : list (list Z)) :
  (fit_cadence = [] ->
     analyze_runs fit_cadence
     = ClickException (codepoints "No FIT files to analyze."))
  /\ (fit_cadence <> [] -> concat fit_cadence = [] ->
     analyze_runs fit_cadence
     = ClickException (codepoints "No cadence data found in any FIT file."))
  /\ (concat fit_cadence <> [] ->
     exists src z,
       analyze_runs fit_cadence = Analysed src (Returned z)
       /\ map fst z = [ codepoints "Easy"; codepoints "Moderate";
                        codepoints "Tempo"; codepoints "Speed" ]).
Proof.
  unfold analyze_runs. rewrite all_cadence_concat.
  split; [by intros ->|]. split.
  - intros Hne Hc. rewrite bool_decide_false by done.
    by rewrite bool_decide_true.
  - intros Hc. rewrite bool_decide_false by (by intros ->).
    rewrite bool_decide_false by done.
    destruct (length fit_cadence <? 10)%nat.
    + by exists FromFallback, FIXED_ZONES.
    + destruct (calculate_zones_sorted (concat fit_cadence) Hc)
        as (p25 & p50 & p75 & p90 & top & _ & _ & _ & _ & _ & E).
      exists FromPercentiles. rewrite E. eauto.
Qed.

Lemma analyze_runs_outcomes_witness :
  analyze_runs [[]; []]
  = ClickException (codepoints "No cadence data found in any FIT file.")
  /\ exists src z,
       analyze_runs (replicate 12 [170; 150])
       = Analysed src (Returned z)
       /\ map fst z = [ codepoints "Easy"; codepoints "Moderate";
                        codepoints "Tempo"; codepoints "Speed" ].
Proof.
  split.
  - refine (proj1 (proj2 (analyze_runs_outcomes [[]; []])) _ _);
      [discriminate|reflexivity].
  - refine (proj2 (proj2 (analyze_runs_outcomes (replicate 12 [170; 150]))) _).
    vm_compute. discriminate.
Defined.

(** The readings of the fields and records, appended to those found so
    far. *)
Lemma parse_fields_app (fields : list (list N * option Z)) (acc : list Z) :
  parse_fields fields acc = acc ++ parse_fields fields [].
Proof.
  revert acc. induction fields as [|[name value] rest IH]; intros acc; simpl.
  - by rewrite app_nil_r.
  - rewrite IH. rewrite (IH (if pystr_eqb name _ then _ else _)).
    destruct (pystr_eqb name (codepoints "cadence")); [|done].
    destruct value as [v|]; [|done].
    destruct (0 <? v); [|done]. by rewrite <- app_assoc.
Qed.

Lemma parse_records_app (records : list (list (list N * option Z)))
    (acc : list Z) :
  parse_records records acc = acc ++ parse_records records [].
Proof.
  revert acc. induction records as [|record rest IH]; intros acc; simpl.
  - by rewrite app_nil_r.
  - rewrite IH, (IH (parse_fields record [])), (parse_fields_app record acc).
    by rewrite app_assoc.
Qed.

(** X20.  A value that [parse_cadence_from_fit] returns is twice a positive
    reading of a field named cadence of the file, so it is even and at
    least 2: empty readings, zero and negative readings and the fields of
    other names give nothing.  The readings of the records come in their
    order. *)
Theorem parse_cadence_values (records rest : list (list (list N * option Z)))
    (x : Z) :
  (x ∈ parse_cadence_from_fit records
   <-> exists record v,
         record ∈ records /\ (codepoints "cadence", Some v) ∈ record
         /\ 0 < v /\ x = v * 2)
  /\ (x ∈ parse_cadence_from_fit records -> 2 <= x /\ x mod 2 = 0)
  /\ parse_cadence_from_fit (records ++ rest)
     = parse_cadence_from_fit records ++ parse_cadence_from_fit rest.
Proof.
  assert (Hf : forall fields : list (list N * option Z),
            x ∈ parse_fields fields []
            <-> exists v, (codepoints "cadence", Some v) ∈ fields
                          /\ 0 < v /\ x = v * 2).
  { induction fields as [|[name value] fields IH]; simpl.
    - split; [by intros ?%elem_of_nil|]. by intros (v & ?%elem_of_nil & _).
    - rewrite parse_fields_app, elem_of_app, IH. unfold pystr_eqb.
      split.
      + intros [Hx|(v & Hin & Hv)].
        * case_bool_decide as Hn; [|by apply elem_of_nil in Hx].
          destruct value as [v|]; [|by apply elem_of_nil in Hx].
          destruct (Z.ltb_spec 0 v); [|by apply elem_of_nil in Hx].
          apply list_elem_of_singleton in Hx. subst name.
          exists v. split; [by left|done].
        * exists v. split; [by right|done].
      + intros (v & Hin & Hv & Hx).
        apply elem_of_cons in Hin as [[= <- <-]|Hin].
        * left. rewrite bool_decide_true by done.
          rewrite (proj2 (Z.ltb_lt 0 v)) by done.
          by apply list_elem_of_singleton.
        * right. eauto. }
  assert (Hr : forall rs : list (list (list N * option Z)),
            x ∈ parse_records rs []
            <-> exists record v,
                  record ∈ rs /\ (codepoints "cadence", Some v) ∈ record
                  /\ 0 < v /\ x = v * 2).
  { induction rs as [|record rs IH]; simpl.
    - split; [by intros ?%elem_of_nil|].
      by intros (r & v & ?%elem_of_nil & _).
    - rewrite parse_records_app, elem_of_app, IH, Hf. split.
      + intros [(v & Hin & Hv)|(r & v & Hin & Hv)].
        * exists record, v. split; [by left|done].
        * exists r, v. split; [by right|done].
      + intros (r & v & Hin & Hv).
        apply elem_of_cons in Hin as [->|Hin]; [left|right]; eauto. }
  unfold parse_cadence_from_fit. split; [apply Hr|]. split.
  - intros (r & v & _ & _ & Hv & ->)%Hr. split; [lia|].
    by rewrite Z.mod_mul.
  - induction records as [|record records IH]; simpl; [done|].
    rewrite parse_records_app, (parse_records_app records), IH.
    by rewrite app_assoc.
Qed.

(** ** More on the zone matcher *)

Lemma match_to_zone_nonempty (bpm : Q) (zs : zones) :
  match_to_zone bpm zs <> []
  <-> exists z, z ∈ zs /\ zone_matches (candidates_of bpm) z = true.
Proof.
  rewrite match_to_zone_filter. split.
  - intros Hne.
    destruct (filter _ zs) as [|z l] eqn:E; [done|].
    assert (Hz : z ∈ filter (fun z => zone_matches (candidates_of bpm) z = true)
                   zs) by (rewrite E; by left).
    apply list_elem_of_filter in Hz as [Hm Hin]. by exists z.
  - intros (z & Hin & Hm) E. apply fmap_nil_inv in E.
    assert (Hz : z ∈ filter (fun z => zone_matches (candidates_of bpm) z = true)
                   zs) by (by apply list_elem_of_filter).
    rewrite E in Hz. by apply elem_of_nil in Hz.
Qed.

Lemma zone_matches_direct (bpm : Q) (name : list N) (low high : Z) :
  (inject_Z low <= bpm)%Q -> (bpm <= inject_Z high)%Q ->
  zone_matches (candidates_of bpm) (name, (low, high)) = true.
Proof.
  intros H1 H2. apply zone_matches_spec. exists bpm. simpl. auto.
Qed.

Lemma zone_matches_double (bpm : Q) (name : list N) (low high : Z) :
  (inject_Z low <= bpm * 2)%Q -> (bpm * 2 <= inject_Z high)%Q ->
  zone_matches (candidates_of bpm) (name, (low, high)) = true.
Proof.
  intros H1 H2. apply zone_matches_spec. exists (bpm * 2)%Q. simpl. auto.
Qed.

Lemma zone_matches_half (bpm : Q) (name : list N) (low high : Z) :
  (inject_Z low <= bpm / 2)%Q -> (bpm / 2 <= inject_Z high)%Q ->
  zone_matches (candidates_of bpm) (name, (low, high)) = true.
Proof.
  intros H1 H2. apply zone_matches_spec. exists (bpm / 2)%Q. simpl. auto.
Qed.

Ltac q_arith :=
  unfold inject_Z in *;
  repeat match goal with
         | H : context [(?b / 2)%Q] |- _ =>
             change (b / 2)%Q with (b * (1 # 2))%Q in H
         | |- context [(?b / 2)%Q] =>
             change (b / 2)%Q with (b * (1 # 2))%Q
         end;
  lra.

Ltac in_fixed :=
  unfold FIXED_ZONES;
  repeat first [apply list_elem_of_here | apply list_elem_of_further].

(** X21.  With the fallback table a tempo lands in a playlist exactly when
    it lies between 150 and 200, or between 75 and 100 (counted double),
    or between 300 and 400 (counted half); every other tempo, such as 120,
    matches no zone. *)
Theorem fixed_zones_matching (bpm : Q) :
  match_to_zone bpm FIXED_ZONES <> []
  <-> ((75 <= bpm /\ bpm <= 100) \/ (150 <= bpm /\ bpm <= 200)
       \/ (300 <= bpm /\ bpm <= 400))%Q.
Proof.
  rewrite match_to_zone_nonempty. split.
  - intros ([name [low high]] & Hin & Hm).
    apply zone_matches_spec in Hm as (c & Hc & Hlo & Hhi). simpl in Hlo, Hhi.
    unfold FIXED_ZONES in Hin.
    repeat (apply elem_of_cons in Hin as [[= -> -> ->]|Hin]);
      [..|by apply elem_of_nil in Hin];
      destruct Hc as [->|[->| ->]]; q_arith.
  - intros [[H1 H2]|[[H1 H2]|[H1 H2]]].
    + destruct (Qlt_le_dec 165 (bpm * 2)) as [Ha|Ha];
        [destruct (Qlt_le_dec 175 (bpm * 2)) as [Hb|Hb];
          [destruct (Qlt_le_dec 185 (bpm * 2)) as [Hc|Hc]|]|].
      * exists (codepoints "Speed", (185, 200)%Z).
        split; [in_fixed|]. apply zone_matches_double; q_arith.
      * exists (codepoints "Tempo", (175, 185)%Z).
        split; [in_fixed|]. apply zone_matches_double; q_arith.
      * exists (codepoints "Moderate", (165, 175)%Z).
        split; [in_fixed|]. apply zone_matches_double; q_arith.
      * exists (codepoints "Easy", (150, 165)%Z).
        split; [in_fixed|]. apply zone_matches_double; q_arith.
    + destruct (Qlt_le_dec 165 bpm) as [Ha|Ha];
        [destruct (Qlt_le_dec 175 bpm) as [Hb|Hb];
          [destruct (Qlt_le_dec 185 bpm) as [Hc|Hc]|]|].
      * exists (codepoints "Speed", (185, 200)%Z).
        split; [in_fixed|]. apply zone_matches_direct; q_arith.
      * exists (codepoints "Tempo", (175, 185)%Z).
        split; [in_fixed|]. apply zone_matches_direct; q_arith.
      * exists (codepoints "Moderate", (165, 175)%Z).
        split; [in_fixed|]. apply zone_matches_direct; q_arith.
      * exists (codepoints "Easy", (150, 165)%Z).
        split; [in_fixed|]. apply zone_matches_direct; q_arith.
    + destruct (Qlt_le_dec 165 (bpm / 2)) as [Ha|Ha];
        [destruct (Qlt_le_dec 175 (bpm / 2)) as [Hb|Hb];
          [destruct (Qlt_le_dec 185 (bpm / 2)) as [Hc|Hc]|]|].
      * exists (codepoints "Speed", (185, 200)%Z).
        split; [in_fixed|]. apply zone_matches_half; q_arith.
      * exists (codepoints "Tempo", (175, 185)%Z).
        split; [in_fixed|]. apply zone_matches_half; q_arith.
      * exists (codepoints "Moderate", (165, 175)%Z).
        split; [in_fixed|]. apply zone_matches_half; q_arith.
      * exists (codepoints "Easy", (150, 165)%Z).
        split; [in_fixed|]. apply zone_matches_half; q_arith.
Qed.

Lemma inject_Z_le (x y : Z) : x <= y -> (inject_Z x <= inject_Z y)%Q.
Proof. intros H. by rewrite <- Zle_Qle. Qed.

(** X22.  The zones that [calculate_zones] computes leave no gap: every
    tempo between the lower bound of Easy and the upper bound of Speed
    matches at least one of them, and so does every sample that is not
    below the lower bound of Easy. *)
Theorem computed_zones_cover (all_cadence : list Z) :
  all_cadence <> [] ->
  exists (z : zones) (p25 p50 p90 high : Z),
    snd (calculate_zones all_cadence) = Returned z
    /\ z !! 0%nat = Some (codepoints "Easy", (p25, p50))
    /\ z !! 3%nat = Some (codepoints "Speed", (p90, high))
    /\ (forall t : Q, (inject_Z p25 <= t)%Q -> (t <= inject_Z high)%Q ->
          match_to_zone t z <> [])
    /\ (forall x : Z, x ∈ all_cadence -> p25 <= x ->
          match_to_zone (inject_Z x) z <> []).
Proof.
  intros Hne.
  destruct (calculate_zones_sorted all_cadence Hne)
    as (p25 & p50 & p75 & p90 & top & L25 & L50 & L75 & L90 & Ltop & E).
  pose proof (merge_sort_Permutation Z.le all_cadence) as Hperm.
  set (n := length all_cadence) in *.
  set (high := Z.max top (p90 + 10)) in *.
  assert (Hcover : forall t : Q, (inject_Z p25 <= t)%Q ->
            (t <= inject_Z high)%Q ->
            match_to_zone t
              [ (codepoints "Easy", (p25, p50));
                (codepoints "Moderate", (p50, p75));
                (codepoints "Tempo", (p75, p90));
                (codepoints "Speed", (p90, high)) ] <> []).
  { intros t Hlo Hhi. apply match_to_zone_nonempty.
    destruct (Qlt_le_dec (inject_Z p50) t) as [Ha|Ha];
      [destruct (Qlt_le_dec (inject_Z p75) t) as [Hb|Hb];
        [destruct (Qlt_le_dec (inject_Z p90) t) as [Hc|Hc]|]|].
    - exists (codepoints "Speed", (p90, high)).
      split; [repeat first [apply list_elem_of_here
                           |apply list_elem_of_further]|].
      apply zone_matches_direct; [by apply Qlt_le_weak|done].
    - exists (codepoints "Tempo", (p75, p90)).
      split; [repeat first [apply list_elem_of_here
                           |apply list_elem_of_further]|].
      apply zone_matches_direct; [by apply Qlt_le_weak|done].
    - exists (codepoints "Moderate", (p50, p75)).
      split; [repeat first [apply list_elem_of_here
                           |apply list_elem_of_further]|].
      apply zone_matches_direct; [by apply Qlt_le_weak|done].
    - exists (codepoints "Easy", (p25, p50)).
      split; [repeat first [apply list_elem_of_here
                           |apply list_elem_of_further]|].
      by apply zone_matches_direct. }
  eexists _, p25, p50, p90, high.
  split; [exact E|]. split; [done|]. split; [done|]. split; [done|].
  intros x Hx Hle. apply Hcover; apply inject_Z_le; [done|].
  rewrite <- Hperm in Hx. apply list_elem_of_lookup_1 in Hx as [i Hi].
  assert (x <= top); [|unfold high; lia].
  eapply (sorted_lookup_le _ i (n - 1)); [|done..].
  apply lookup_lt_Some in Hi. rewrite Hperm in Hi. fold n in Hi. lia.
Qed.

Lemma computed_zones_cover_witness :
  exists (z : zones) (p25 p50 p90 high : Z),
    snd (calculate_zones [180; 160; 170; 150; 190]) = Returned z
    /\ z !! 0%nat = Some (codepoints "Easy", (p25, p50))
    /\ z !! 3%nat = Some (codepoints "Speed", (p90, high))
    /\ (forall t : Q, (inject_Z p25 <= t)%Q -> (t <= inject_Z high)%Q ->
          match_to_zone t z <> [])
    /\ (forall x : Z, x ∈ [180; 160; 170; 150; 190] -> p25 <= x ->
          match_to_zone (inject_Z x) z <> []).
Proof.
  apply (computed_zones_cover [180; 160; 170; 150; 190]). discriminate.
Defined.

(** ** Playlists *)

Lemma ceil_100 (n : nat) :
  let k := ((n + 100 - 1) / 100)%nat in
  (n <= k * 100 /\ (k = 0 \/ (k - 1) * 100 < n))%nat.
Proof.
  intros k. subst k.
  pose proof (Nat.div_mod_eq (n + 100 - 1) 100) as Hd.
  pose proof (Nat.mod_upper_bound (n + 100 - 1) 100) as Hm.
  revert Hd Hm. generalize ((n + 100 - 1) / 100)%nat.
  generalize ((n + 100 - 1) mod 100)%nat. intros r q Hd Hm. lia.
Qed.

Lemma batches_concat (l : list (list N)) (k : nat) :
  concat (map (fun i => take 100 (drop i l))
            (map (fun j => j * 100)%nat (seq 0 k)))
  = take (k * 100) l.
Proof.
  induction k as [|k IH]; [done|].
  rewrite seq_S, !map_app, concat_app, IH. simpl.
  rewrite app_nil_r, take_take_drop. f_equal. lia.
Qed.

Lemma add_batches_lookup (l : list (list N)) (i : nat) (b : list (list N)) :
  add_batches l !! i = Some b ->
  b = take 100 (drop (i * 100) l)
  /\ (i < (length l + 100 - 1) / 100)%nat.
Proof.
  unfold add_batches, py_range_step. rewrite !list_lookup_fmap.
  destruct (seq 0 _ !! i) as [j|] eqn:E; [|done].
  apply lookup_seq in E as [-> Hi]. simpl. by intros [= <-].
Qed.

(** X23.  [create_or_update_playlist] adds the track URIs it is given, all
    of them, once and in their order, in calls of at most 100 items and
    never an empty one, every call but the last of exactly 100.  A playlist
    that exists is emptied first and not created again; one that does not
    exist is created private; the identifier returned is the one every
    addition goes to. *)
Theorem playlist_batches (existing : option (list N))
    (created_id user_id name description : list N)
    (track_uris : list (list N)) :
  let r := create_or_update_playlist existing created_id user_id name
             description track_uris in
  added_items (fst r) = track_uris
  /\ (forall c, c ∈ fst r -> is_add c = true ->
        exists items, c = PlaylistAddItems (snd r) items
                      /\ (0 < length items <= 100)%nat)
  /\ (forall i b, add_batches track_uris !! i = Some b ->
        (S i < length (add_batches track_uris))%nat -> length b = 100%nat)
  /\ (exists header,
        fst r = header
                ++ map (PlaylistAddItems (snd r)) (add_batches track_uris)
        /\ match existing with
           | Some (c :: playlist_id) =>
               snd r = c :: playlist_id
               /\ header = [ PlaylistChangeDetails (snd r) description;
                             PlaylistReplaceItems (snd r) [] ]
           | _ =>
               snd r = created_id
               /\ header = [ UserPlaylistCreate user_id name false
                               description ]
           end).
Proof.
  intros r.
  assert (Hadd : forall pid, added_items
            (map (PlaylistAddItems pid) (add_batches track_uris))
            = track_uris).
  { intros pid. unfold added_items.
    transitivity (concat (add_batches track_uris)).
    - induction (add_batches track_uris) as [|b bs IH]; simpl; [done|].
      by rewrite IH.
    - unfold add_batches, py_range_step. rewrite batches_concat.
      apply take_ge. pose proof (ceil_100 (length track_uris)) as Hc.
      cbv zeta in Hc. tauto. }
  assert (Hsize : forall i b, add_batches track_uris !! i = Some b ->
            (0 < length b <= 100)%nat
            /\ ((S i < length (add_batches track_uris))%nat ->
                length b = 100%nat)).
  { intros i b Hb.
    assert (Hlen : length (add_batches track_uris)
                   = ((length track_uris + 100 - 1) / 100)%nat).
    { unfold add_batches, py_range_step.
      by rewrite !length_map, length_seq. }
    apply add_batches_lookup in Hb as [-> Hi].
    rewrite Hlen, length_take, length_drop.
    pose proof (ceil_100 (length track_uris)) as Hc. cbv zeta in Hc.
    revert Hi Hc. generalize ((length track_uris + 100 - 1) / 100)%nat.
    intros k Hi Hc. lia. }
  assert (Hhead : exists header,
            fst r = header
                    ++ map (PlaylistAddItems (snd r)) (add_batches track_uris)
            /\ Forall (fun c => is_add c = false) header
            /\ match existing with
               | Some (c :: playlist_id) =>
                   snd r = c :: playlist_id
                   /\ header = [ PlaylistChangeDetails (snd r) description;
                                 PlaylistReplaceItems (snd r) [] ]
               | _ =>
                   snd r = created_id
                   /\ header = [ UserPlaylistCreate user_id name false
                                   description ]
               end).
  { subst r. unfold create_or_update_playlist.
    destruct existing as [[|c pid]|]; simpl;
      [exists [UserPlaylistCreate user_id name false description]
      |exists [PlaylistChangeDetails (c :: pid) description;
               PlaylistReplaceItems (c :: pid) []]
      |exists [UserPlaylistCreate user_id name false description]];
      (split; [reflexivity|]); (split; [|done]); repeat constructor. }
  destruct Hhead as (header & Hr & Hnoadd & Hcase).
  split; [|split; [|split]].
  - rewrite Hr. unfold added_items. rewrite flat_map_app.
    fold (added_items (map (PlaylistAddItems (snd r))
                         (add_batches track_uris))).
    rewrite Hadd.
    replace (flat_map _ header) with (@nil (list N)); [done|].
    clear Hr Hcase. induction Hnoadd as [|c h Hc _ IH]; simpl; [done|].
    rewrite <- IH. by destruct c.
  - intros c Hc Hisadd. rewrite Hr in Hc.
    apply elem_of_app in Hc as [Hc|Hc].
    + rewrite Forall_forall in Hnoadd. apply Hnoadd in Hc. congruence.
    + apply list_elem_of_fmap in Hc as (b & -> & Hb).
      apply list_elem_of_lookup_1 in Hb as [i Hi].
      exists b. split; [done|]. by apply Hsize in Hi as [? _].
  - intros i b Hb. by apply Hsize in Hb as [_ ?].
  - exists header. split; [done|]. done.
Qed.

Lemma playlist_batches_witness :
  length (take 100 (replicate 250 (codepoints "spotify:track:x"))) = 100%nat.
Proof.
  refine (proj1 (proj2 (proj2 (playlist_batches None [] [] [] []
            (replicate 250 (codepoints "spotify:track:x"))))) 0%nat _ _ _);
    [vm_compute; reflexivity | vm_compute; lia].
Defined.

(** ** Grouping the songs *)

Lemma zone_names_inj (zs : zones) (z z' : list N * (Z * Z)) :
  NoDup (map fst zs) -> z ∈ zs -> z' ∈ zs -> fst z = fst z' -> z = z'.
Proof.
  induction zs as [|z0 zs IH]; intros Hnd Hz Hz' Heq.
  { by apply elem_of_nil in Hz. }
  simpl in Hnd. apply NoDup_cons in Hnd as [Hnotin Hnd].
  apply elem_of_cons in Hz as [->|Hz], Hz' as [->|Hz']; [done| | |by apply IH].
  - exfalso. apply Hnotin. rewrite Heq.
    apply list_elem_of_fmap. by exists z'.
  - exfalso. apply Hnotin. rewrite <- Heq.
    apply list_elem_of_fmap. by exists z.
Qed.

Lemma append_to_spec (n : list N) (t : song_row)
    (zt : list (list N * list song_row)) :
  NoDup (map fst zt) ->
  append_to n t zt
  = map (fun e => if bool_decide (fst e = n) then (fst e, snd e ++ [t])
                  else e) zt.
Proof.
  induction zt as [|[n0 tracks] rest IH]; simpl; intros Hnd; [done|].
  apply NoDup_cons in Hnd as [Hnotin Hnd]. unfold pystr_eqb.
  case_bool_decide as Hn.
  - f_equal. subst n0.
    clear IH Hnd. induction rest as [|[n1 l1] rest IH]; [done|].
    cbn [map fst snd] in *.
    apply not_elem_of_cons in Hnotin as [Hne Hnotin].
    rewrite (bool_decide_false (n1 = n)) by congruence.
    f_equal. by apply IH.
  - f_equal. by apply IH.
Qed.

Lemma append_to_names (n : list N) (t : song_row)
    (zt : list (list N * list song_row)) :
  map fst (append_to n t zt) = map fst zt.
Proof.
  induction zt as [|[n0 tracks] rest IH]; simpl; [done|].
  destruct (pystr_eqb n0 n); simpl; [done|]. by rewrite IH.
Qed.

Lemma foldl_append_to (t : song_row) (ns : list (list N))
    (zt : list (list N * list song_row)) :
  NoDup (map fst zt) -> NoDup ns ->
  foldl (fun zt n => append_to n t zt) zt ns
  = map (fun e => if bool_decide (fst e ∈ ns) then (fst e, snd e ++ [t])
                  else e) zt.
Proof.
  revert zt. induction ns as [|n ns IH]; intros zt Hzt Hns; cbn [foldl].
  - rewrite <- (map_id zt) at 1. apply map_ext. intros e.
    rewrite bool_decide_false; [done|apply not_elem_of_nil].
  - apply NoDup_cons in Hns as [Hn Hns].
    rewrite IH by (by rewrite ?append_to_names).
    rewrite append_to_spec by done. rewrite map_map.
    apply map_ext. intros [n0 l]. cbn [fst snd].
    destruct (decide (n0 = n)) as [->|Hne].
    + rewrite (bool_decide_true (n = n)) by done. cbn [fst snd].
      rewrite (bool_decide_false (n ∈ ns)) by done.
      rewrite bool_decide_true; [done|by left].
    + rewrite (bool_decide_false (n0 = n)) by done. cbn [fst snd].
      destruct (decide (n0 ∈ ns)) as [Hin|Hnin].
      * rewrite (bool_decide_true (n0 ∈ ns)) by done.
        rewrite bool_decide_true; [done|by right].
      * rewrite (bool_decide_false (n0 ∈ ns)) by done.
        rewrite bool_decide_false; [done|].
        intros [?|?]%elem_of_cons; done.
Qed.

Lemma matched_name_iff (zs : zones) (bpm : Q) (z : list N * (Z * Z)) :
  NoDup (map fst zs) -> z ∈ zs ->
  fst z ∈ match_to_zone bpm zs
  <-> zone_matches (candidates_of bpm) z = true.
Proof.
  intros Hnd Hz. rewrite match_to_zone_filter, list_elem_of_fmap. split.
  - intros (z' & Heq & Hin). apply list_elem_of_filter in Hin as [Hm Hin].
    by rewrite (zone_names_inj zs z z' Hnd Hz Hin Heq).
  - intros Hm. exists z. split; [done|]. by apply list_elem_of_filter.
Qed.

Lemma group_songs_spec (zs : zones) (cached_songs : list song_row)
    (g : list N * (Z * Z) -> list song_row) (unmatched : list song_row) :
  NoDup (map fst zs) ->
  group_songs zs cached_songs (map (fun z => (fst z, g z)) zs) unmatched
  = (map (fun z => (fst z, g z ++ zone_group cached_songs z)) zs,
     unmatched
     ++ filter (fun t => match_to_zone (song_bpm t) zs = []) cached_songs).
Proof.
  intros Hnd. revert g unmatched.
  induction cached_songs as [|t rest IH]; intros g unmatched; simpl.
  { rewrite app_nil_r. f_equal. apply map_ext. intros z.
    unfold zone_group. by rewrite filter_nil, app_nil_r. }
  case_bool_decide as Hm.
  - rewrite IH, filter_cons, decide_True by done.
    rewrite <- app_assoc. f_equal.
    apply map_ext_in. intros z Hz%list_elem_of_In.
    unfold zone_group. rewrite filter_cons.
    rewrite decide_False; [done|].
    intros Hz'. apply (matched_name_iff zs _ z Hnd Hz) in Hz'.
    rewrite Hm in Hz'. by apply elem_of_nil in Hz'.
  - rewrite foldl_append_to.
    2:{ rewrite map_map. simpl. done. }
    2:{ rewrite match_to_zone_filter.
        eapply sublist_NoDup; [exact Hnd|].
        apply (fmap_sublist fst), sublist_filter. }
    rewrite map_map. simpl.
    rewrite (map_ext_in _
      (fun z => (fst z,
                 (fun z => if bool_decide
                                (zone_matches (candidates_of (song_bpm t)) z
                                 = true)
                           then g z ++ [t] else g z) z))).
    2:{ intros z Hz%list_elem_of_In.
        pose proof (matched_name_iff zs (song_bpm t) z Hnd Hz) as Hiff.
        repeat case_bool_decide; try done; tauto. }
    rewrite IH, filter_cons, decide_False by done. f_equal.
    apply map_ext. intros z. unfold zone_group. rewrite filter_cons.
    case_bool_decide as Hz.
    + rewrite decide_True by done. by rewrite <- app_assoc.
    + by rewrite decide_False.
Qed.

Lemma zone_bounds_in (zs : zones) (z : list N * (Z * Z)) :
  NoDup (map fst zs) -> z ∈ zs -> zone_bounds zs (fst z) = Some (snd z).
Proof.
  intros Hnd Hz. unfold zone_bounds.
  destruct (find _ zs) as [z'|] eqn:E.
  - apply find_some in E as [Hin Heq%bool_decide_eq_true].
    apply list_elem_of_In in Hin.
    by rewrite (zone_names_inj zs z z' Hnd Hz Hin).
  - apply list_elem_of_In in Hz. apply (find_none _ _ E z) in Hz.
    unfold pystr_eqb in Hz. by rewrite bool_decide_true in Hz.
Qed.

Section GeneratorProperties.

Variable lower : list N -> list N.

Lemma playlist_plans_spec (zs zs' : zones) (cached_songs : list song_row) :
  NoDup (map fst zs) -> (forall z, z ∈ zs' -> z ∈ zs) ->
  playlist_plans lower zs
    (map (fun z => (fst z, zone_group cached_songs z)) zs')
  = Returned (omap (plan_of lower cached_songs) zs').
Proof.
  intros Hnd. induction zs' as [|z zs' IH]; intros Hsub; [done|].
  cbn [map playlist_plans]. csimpl. unfold plan_of at 1.
  rewrite IH by (intros; apply Hsub; by right).
  case_bool_decide; [done|].
  rewrite (zone_bounds_in zs z Hnd) by (apply Hsub; by left).
  by destruct z as [n [lo hi]].
Qed.

(** X24.  With zone names all distinct and at least one song with a tempo,
    [generate_playlists] puts each song in the group of every zone that
    its tempo, its double or its half falls in, in the order of the cache,
    and among the unmatched songs when there is no such zone; it plans one
    playlist for each zone that has a song, in the order of the zones,
    none for an empty zone, and never fails on a zone name. *)
Theorem generate_playlists_groups (zs : zones)
    (cached_songs : list song_row) :
  NoDup (map fst zs) -> cached_songs <> [] ->
  generate_playlists lower (Some zs) cached_songs
  = Generated
      (map (fun z => (fst z, zone_group cached_songs z)) zs)
      (filter (fun t => match_to_zone (song_bpm t) zs = []) cached_songs)
      (Returned (omap (plan_of lower cached_songs) zs))
  /\ (forall t, t ∈ cached_songs ->
        t ∈ filter (fun t => match_to_zone (song_bpm t) zs = []) cached_songs
        <-> forall z, z ∈ zs -> t ∉ zone_group cached_songs z).
Proof.
  intros Hnd Hne. split.
  - unfold generate_playlists.
    rewrite bool_decide_false by done.
    rewrite (group_songs_spec zs cached_songs (fun _ => []) [] Hnd).
    simpl. by rewrite playlist_plans_spec.
  - intros t Ht. rewrite list_elem_of_filter. split.
    + intros [Hm _] z Hz Hin.
      apply list_elem_of_filter in Hin as [Hzm _].
      assert (match_to_zone (song_bpm t) zs <> []); [|done].
      apply match_to_zone_nonempty. eauto.
    + intros Hno. split; [|done].
      destruct (match_to_zone (song_bpm t) zs) as [|n l] eqn:E; [done|].
      assert (Hne' : match_to_zone (song_bpm t) zs <> []) by by rewrite E.
      apply match_to_zone_nonempty in Hne' as (z & Hz & Hzm).
      exfalso. apply (Hno z Hz). by apply list_elem_of_filter.
Qed.

End GeneratorProperties.

(** ** Instances *)

(** A song at 82 lands in Easy (doubled) and in Sprint (halved), one at 120
    in no zone; the empty zone Wide gets no playlist. *)
Lemma generate_playlists_groups_witness :
  let zs := [ (codepoints "Easy", (150, 170)); (codepoints "Sprint", (39, 43));
              (codepoints "Wide", (500, 600)) ] in
  let a := (codepoints "a", codepoints "A", codepoints "X", 82%Q) in
  let b := (codepoints "b", codepoints "B", codepoints "Y", 120%Q) in
  generate_playlists (fun s => s) (Some zs) [a; b]
  = Generated
      (map (fun z => (fst z, zone_group [a; b] z)) zs)
      (filter (fun t => match_to_zone (song_bpm t) zs = []) [a; b])
      (Returned (omap (plan_of (fun s => s) [a; b]) zs))
  /\ (forall t, t ∈ [a; b] ->
        t ∈ filter (fun t => match_to_zone (song_bpm t) zs = []) [a; b]
        <-> forall z, z ∈ zs -> t ∉ zone_group [a; b] z).
Proof.
  apply (generate_playlists_groups (fun s => s)).
  - apply (bool_decide_unpack _). vm_compute. exact I.
  - discriminate.
Defined.

(** A confirmed absence stays through a run that looks other tracks up. *)
Lemma scan_keeps_rows_witness :
  let old := Row (codepoints "Silence (Live)") (codepoints "Nobody") None in
  conn (snd (scan_for_bpms scripted no_float demo_key library true
               {[ codepoints "t2" := old ]} limited_after_two))
    !! codepoints "t2" = Some old.
Proof.
  apply (scan_keeps_rows scripted no_float demo_key library true
           {[ codepoints "t2" := Row (codepoints "Silence (Live)")
                                    (codepoints "Nobody") None ]}
           limited_after_two).
  vm_compute. reflexivity.
Defined.

(** The row of the first track after the run on the library. *)
Lemma scan_new_rows_witness :
  let s := snd (scan_for_bpms scripted no_float demo_key library true ∅
                  limited_after_two) in
  let r := Row (codepoints "Under Pressure")
             (codepoints "Queen, David Bowie") (Some 114%Q) in
  (∅ : gmap (list N) row) !! codepoints "t1" = Some r
  \/ ((∅ : gmap (list N) row) !! codepoints "t1" = None
      /\ exists t, t ∈ lookups s /\ t ∈ library
                   /\ Track.id t = codepoints "t1"
                   /\ track_name r = Track.name t
                   /\ artist r = Track.artist t).
Proof.
  apply (scan_new_rows scripted no_float demo_key library true ∅
           limited_after_two (codepoints "t1")).
  vm_compute. reflexivity.
Defined.

(** A body that is not an object, on the lookup of the second track. *)
Lemma lookup_exception_propagates_witness :
  let script := [ ok (search_hit "s1"); ok (song_detail (JNum 114));
                  ok (JArr []) ] in
  let before :=
    scan_for_bpms scripted no_float demo_key (take 1 library) true ∅ script in
  let aborted :=
    scan_for_bpms scripted no_float demo_key library true ∅ script in
  fst aborted = Raised AttributeError
  /\ conn (snd aborted) = conn (snd before)
  /\ lookups (snd aborted)
     = lookups (snd before) ++ [song "t2" "Silence (Live)" "Nobody"]
  /\ sleeps (snd aborted) = sleeps (snd before)
  /\ echoed (snd before)
     = echoed (snd aborted) ++ missing_report (missing_songs (snd before)).
Proof.
  apply (lookup_exception_propagates scripted no_float demo_key true
           (take 1 library) (drop 2 library)
           (song "t2" "Silence (Live)" "Nobody") ∅
           [ ok (search_hit "s1"); ok (song_detail (JNum 114)); ok (JArr []) ]
           (Stats 1 0 0 false) AttributeError).
  - vm_compute. reflexivity.
  - reflexivity.
  - vm_compute. reflexivity.
  - vm_compute. reflexivity.
Defined.

(** The run resumed on the table that the halted run left. *)
Lemma scan_resumes_at_first_miss_witness :
  let conn1 :=
    conn (snd (scan_for_bpms scripted no_float demo_key library true ∅
                 limited_after_two)) in
  exists later : list Track.t,
    lookups (snd (scan_for_bpms scripted no_float demo_key library true
                    conn1 []))
    = song "t3" "Heroes" "David Bowie" :: later
    /\ sublist later (drop 3 library).
Proof.
  apply (scan_resumes_at_first_miss scripted no_float demo_key true
           (take 2 library) (drop 3 library)
           (song "t3" "Heroes" "David Bowie")).
  - intros p Hp. apply (bool_decide_unpack _).
    vm_compute in Hp.
    repeat (apply elem_of_cons in Hp as [->|Hp]; [by vm_compute|]).
    by apply elem_of_nil in Hp.
  - vm_compute. reflexivity.
Defined.

(** A record with a reading of 85, an empty one and a zero. *)
Lemma parse_cadence_values_witness :
  2 <= 170 /\ 170 mod 2 = 0.
Proof.
  refine (proj1 (proj2 (parse_cadence_values
            [ [ (codepoints "heart_rate", Some 140);
                (codepoints "cadence", Some 85) ];
              [ (codepoints "cadence", None) ];
              [ (codepoints "cadence", Some 0) ] ] [] 170)) _).
  vm_compute. by left.
Defined.


(** A 429 on the detail request. *)
Lemma search_bpm_rate_limited_iff_witness :
  fst (search_bpm scripted no_float (codepoints "Song") (codepoints "Artist")
         demo_key [ ok (search_hit "s1"); Response 429 NotJSON ])
  = Returned RATE_LIMITED.
Proof.
  refine (proj2 (proj1 (search_bpm_rate_limited_iff scripted no_float
            (codepoints "Song") (codepoints "Artist") demo_key
            [ ok (search_hit "s1"); Response 429 NotJSON ])) _).
  right. exists (JStr (codepoints "s1")), NotJSON. split; reflexivity.
Defined.

(** A tempo of 82 is counted double, one of 120 not at all. *)
Lemma fixed_zones_matching_witness :
  match_to_zone 82 FIXED_ZONES <> []
  /\ ~ ((75 <= 120 /\ 120 <= 100) \/ (150 <= 120 /\ 120 <= 200)
        \/ (300 <= 120 /\ 120 <= 400))%Q.
Proof.
  split.
  - apply (proj2 (fixed_zones_matching 82)). left. split; by vm_compute.
  - intros H. apply (proj2 (fixed_zones_matching 120)) in H.
    by vm_compute in H.
Defined.
